(** * Barnes-Hut t-SNE (bhtsne): a shallow embedding of the core and its
      properties.

    The development follows the C++ sources:
    - [vptree.h]: the vantage-point tree and its k-nearest-neighbour search;
    - [tsne.cpp]: perplexity calibration ([computeGaussianPerplexity]),
      affinity symmetrization ([symmetrizeMatrix]) and the optimizer loop
      ([run], [computeGradient]);
    - [perplexity_search.cu]: the batched calibration kernels.

    Numbers.  A C [float] is idealised as an exact rational ([Q]): rounding,
    overflow and NaN are not part of this model, and a division by zero
    yields [0] as [Qdiv] does; the properties that depend on a quotient say
    when its divisor is not zero.  The binary search for [beta] doubles and
    halves a [float] up to 200 times, which leaves the range of a [float]:
    it is modelled a second time with that range ([Float],
    [FloatPerplexity]), for the properties that depend on it.  [exp] and
    [log] are parameters of the code that calls them.  A C [int] used as an array index or a count is a [nat];
    an array is a [list], read with [!!!] and written with [<[i:=x]>].  A
    read or write out of range is undefined behaviour in C++; here a read
    returns the default element and a write does nothing, and the theorems
    state the bounds they need.

    Part I holds the embedding, Part II the properties. *)

From Stdlib Require Import QArith Qabs Qround Qminmax Lqa Lia Bool ZArith String Sorted.
From stdpp Require Import base list sorting.

(** * Part I: the embedding *)

(** ** Numeric prelude *)

#[global] Instance Q_inhabited : Inhabited Q := populate 0%Q.

(** [FLT_MIN], [FLT_MAX] and [DBL_MAX] of <cfloat>. *)
Definition FLT_MIN : Q := (1 # (2 ^ 126))%Q.
Definition FLT_MAX : Q := inject_Z (2 ^ 128 - 2 ^ 104).
Definition DBL_MAX : Q := inject_Z (2 ^ 1024 - 2 ^ 971).

(** [x < y] of C on the idealised floats ([Qle_bool] is [x <= y]). *)
Definition Qlt_bool (x y : Q) : bool := negb (Qle_bool y x).

(** A counted loop [for (i = lo; i < hi; i++) body] over a state. *)
Definition for_loop {S : Type} (lo hi : nat) (body : nat -> S -> S) (s : S) : S :=
  fold_left (fun s i => body i s) (seq lo (hi - lo)) s.

(** ** vptree.h *)

Module VpTree.

(** [class DataPoint]: the dimension, the index in the data set and the
    (borrowed) coordinate block. *)
Record DataPoint := mkDataPoint { _D : nat; _ind : Z; _x : list Q }.

(** The default constructor [DataPoint()]. *)
#[global] Instance DataPoint_inhabited : Inhabited DataPoint :=
  populate (mkDataPoint 1 (-1) []).

Definition index (p : DataPoint) : Z := _ind p.
Definition dimensionality (p : DataPoint) : nat := _D p.
Definition x (p : DataPoint) (d : nat) : Q := _x p !!! d.

Definition euclidean_distance_squared (t1 t2 : DataPoint) : Q :=
  for_loop 0 (dimensionality t1)
    (fun d dd => let t := (x t1 d - x t2 d)%Q in (dd + t * t)%Q) 0%Q.

(** [struct Node]; [Null] is the null pointer. *)
Inductive Node :=
| Null
| MkNode (index : nat) (threshold : Q) (left_ right_ : Node).

Definition is_null (n : Node) : bool :=
  match n with Null => true | MkNode _ _ _ _ => false end.

(** [struct HeapItem], ordered by [dist]. *)
Record HeapItem := mkHeapItem { hindex : nat; dist : Q }.

(** [std::priority_queue<HeapItem>]: a max-priority queue on [dist].  It is
    kept as a list in non-increasing order of [dist], so that [top] is the
    head.  The order among items of equal [dist] is left open by the C++
    library; here the item pushed last comes first.  [pop] on an empty queue
    is undefined behaviour in C++; here it leaves the queue empty, and
    [pop_checked] below tells the two apart. *)
Abbreviation pqueue := (list HeapItem).

Fixpoint push (h : HeapItem) (q : pqueue) : pqueue :=
  match q with
  | [] => [h]
  | y :: q' => if Qle_bool (dist y) (dist h) then h :: q else y :: push h q'
  end.

Definition pop (q : pqueue) : pqueue := tail q.
Definition top_dist (q : pqueue) : Q := dist (hd (mkHeapItem 0 0%Q) q).
Definition size (q : pqueue) : nat := length q.

Section Tree.
(** The template parameter [distance] and the member [_items]. *)
Variable distance : DataPoint -> DataPoint -> Q.
Variable _items : list DataPoint.

(** The private [search]: [heap] and [tau] are passed by reference, so the
    second test of a branch reads the [tau] the first call left. *)
Fixpoint search_node (node : Node) (target : DataPoint) (k : nat)
         (st : pqueue * Q) : pqueue * Q :=
  match node with
  | Null => st
  | MkNode idx threshold left_ right_ =>
    let '(heap, tau) := st in
    let d := distance (_items !!! idx) target in
    let st :=
      if Qlt_bool d tau then
        let heap := if size heap =? k then pop heap else heap in
        let heap := push (mkHeapItem idx d) heap in
        let tau := if size heap =? k then top_dist heap else tau in
        (heap, tau)
      else (heap, tau) in
    if is_null left_ && is_null right_ then st
    else if Qlt_bool d threshold then
      let st := if Qle_bool (d - snd st) threshold
                then search_node left_ target k st else st in
      if Qle_bool threshold (d + snd st)
      then search_node right_ target k st else st
    else
      let st := if Qle_bool threshold (d + snd st)
                then search_node right_ target k st else st in
      if Qle_bool (d - snd st) threshold
      then search_node left_ target k st else st
  end.

(** Emptying the heap into [results] and [distances] (by [push_back]). *)
Fixpoint drain (heap : pqueue) : list DataPoint * list Q :=
  match heap with
  | [] => ([], [])
  | h :: heap' =>
    let '(rs, ds) := drain heap' in
    (_items !!! hindex h :: rs, dist h :: ds)
  end.

(** The public [search]: the results come off the heap farthest first and
    are reversed.  [float tau = DBL_MAX] is kept as the rational [DBL_MAX]. *)
Definition search (root : Node) (target : DataPoint) (k : nat)
  : list DataPoint * list Q :=
  let tau := DBL_MAX in
  let '(heap, _) := search_node root target k ([], tau) in
  let '(rs, ds) := drain heap in
  (rev rs, rev ds).

(** The same search with the undefined behaviour of the C++ library written
    out: [heap.pop()] on an empty [std::priority_queue] has no defined
    result, and [None] stands for it.  ([heap.top()] is only called after a
    [push].) *)
Definition pop_checked (q : pqueue) : option pqueue :=
  match q with
  | [] => None
  | _ :: q' => Some q'
  end.

Fixpoint search_node_checked (node : Node) (target : DataPoint) (k : nat)
         (st : pqueue * Q) : option (pqueue * Q) :=
  match node with
  | Null => Some st
  | MkNode idx threshold left_ right_ =>
    let '(heap, tau) := st in
    let d := distance (_items !!! idx) target in
    let visited :=
      if Qlt_bool d tau then
        match (if size heap =? k then pop_checked heap else Some heap) with
        | None => None
        | Some heap =>
          let heap := push (mkHeapItem idx d) heap in
          let tau := if size heap =? k then top_dist heap else tau in
          Some (heap, tau)
        end
      else Some (heap, tau) in
    match visited with
    | None => None
    | Some st =>
      if is_null left_ && is_null right_ then Some st
      else if Qlt_bool d threshold then
        match (if Qle_bool (d - snd st) threshold
               then search_node_checked left_ target k st else Some st) with
        | None => None
        | Some st =>
          if Qle_bool threshold (d + snd st)
          then search_node_checked right_ target k st else Some st
        end
      else
        match (if Qle_bool threshold (d + snd st)
               then search_node_checked right_ target k st else Some st) with
        | None => None
        | Some st =>
          if Qle_bool (d - snd st) threshold
          then search_node_checked left_ target k st else Some st
        end
    end
  end.

Definition search_checked (root : Node) (target : DataPoint) (k : nat)
  : option (list DataPoint * list Q) :=
  match search_node_checked root target k ([], DBL_MAX) with
  | None => None
  | Some (heap, _) => let '(rs, ds) := drain heap in Some (rev rs, rev ds)
  end.

End Tree.

(** What a caller of [search] gets.  The C++ function returns [void] after
    filling its two output vectors and has no other exit: no [assert], no
    [throw], no error code.  What is left besides a return is the undefined
    behaviour of a [pop] on the empty queue. *)
Inductive outcome :=
| Returned (results : list DataPoint) (distances : list Q)
| PreconditionFailure
| Undefined.

Definition search_outcome (distance : DataPoint -> DataPoint -> Q)
  (_items : list DataPoint) (root : Node) (target : DataPoint) (k : nat)
  : outcome :=
  match search_checked distance _items root target k with
  | Some (rs, ds) => Returned rs ds
  | None => Undefined
  end.

End VpTree.

(** ** vptree.h: building the tree *)

Module VpBuild.
Import VpTree.

Section Build.
Variable distance : DataPoint -> DataPoint -> Q.
(** [rand()] and [RAND_MAX] of <cstdlib>: the number the n-th call returns. *)
Variable rand : nat -> Z.
Variable RAND_MAX : Z.
(** [std::nth_element (first, nth, last, comp)] on the vector: the C++
    library fixes its result only up to its postcondition. *)
Variable nth_element :
  nat -> nat -> nat -> (DataPoint -> DataPoint -> bool) ->
  list DataPoint -> list DataPoint.

(** [struct DistanceComparator]. *)
Definition DistanceComparator (item a b : DataPoint) : bool :=
  Qlt_bool (distance item a) (distance item b).

(** [std::swap(_items[i], _items[j])]. *)
Definition swap (items : list DataPoint) (i j : nat) : list DataPoint :=
  <[j := items !!! i]> (<[i := items !!! j]> items).

(** [buildFromPoints(lower, upper)], threading [_items] and the number of
    calls of [rand()] so far.  The recursion is on [upper - lower], given as
    [fuel]. *)
Fixpoint buildFromPoints (fuel lower upper : nat) (st : list DataPoint * nat)
  : Node * (list DataPoint * nat) :=
  match fuel with
  | O => (Null, st)
  | S fuel' =>
    if upper =? lower then (Null, st)
    else if 1 <? upper - lower then
      let '(items, calls) := st in
      let i := (Z.to_nat (Qfloor (inject_Z (rand calls) / inject_Z RAND_MAX
                                  * inject_Z (Z.of_nat (upper - lower - 1))))
                + lower)%nat in
      let items := swap items lower i in
      let median := (upper + lower) / 2 in
      let items := nth_element (lower + 1) median upper
                               (DistanceComparator (items !!! lower)) items in
      let threshold := distance (items !!! lower) (items !!! median) in
      let '(l, st) := buildFromPoints fuel' (lower + 1) median (items, S calls) in
      let '(r, st) := buildFromPoints fuel' median upper st in
      (MkNode lower threshold l r, st)
    else (MkNode lower 0%Q Null Null, st)
  end.

(** [create(items)]: the permuted [_items] and [_root]. *)
Definition create (items : list DataPoint) : list DataPoint * Node :=
  let '(root, (items', _)) :=
    buildFromPoints (length items) 0 (length items) (items, 0) in
  (items', root).

End Build.
End VpBuild.

(** ** tsne.cpp: perplexity calibration *)

Module Perplexity.
Import VpTree.

(** The state of the binary search for one point. *)
Record search_state := mkSearch {
  found : bool;
  beta : Q;
  min_beta : Q;
  max_beta : Q;
  iter : nat;
  cur_P : list Q;
  sum_P : Q
}.

Definition tol : Q := 1e-5%Q.

Section Calibration.
(** [exp] and [log] of <cmath>. *)
Variable fexp : Q -> Q.
Variable flog : Q -> Q.

(** [distances] is the result of [search] for [K + 1] neighbours; entry 0
    (the point itself) is skipped. *)
Variable K : nat.
Variable distances : list Q.
Variable perplexity : Q.

Definition kernel_row (b : Q) (cur : list Q) : list Q :=
  for_loop 0 K (fun m cur => <[m := fexp (- b * distances !!! (m + 1)%nat)%Q]> cur) cur.

Definition row_sum (cur : list Q) : Q :=
  for_loop 0 K (fun m s => (s + cur !!! m)%Q) FLT_MIN.

Definition row_entropy (b : Q) (cur : list Q) (sum : Q) : Q :=
  let H := for_loop 0 K
             (fun m H => (H + b * (distances !!! (m + 1)%nat * cur !!! m))%Q) 0%Q in
  (H / sum + flog sum)%Q.

(** The bisection update of [beta] and its bounds, from [Hdiff]. *)
Definition bisect (Hdiff b lo hi : Q) : Q * Q * Q :=
  if Qlt_bool 0 Hdiff then
    let lo := b in
    if Qeq_bool hi FLT_MAX || Qeq_bool hi (- FLT_MAX)
    then ((b * 2)%Q, lo, hi)
    else (((b + hi) / 2)%Q, lo, hi)
  else
    let hi := b in
    if Qeq_bool lo (- FLT_MAX) || Qeq_bool lo FLT_MAX
    then ((b / 2)%Q, lo, hi)
    else (((b + lo) / 2)%Q, lo, hi).

(** The body of [while (!found && iter < 200)]. *)
Definition search_body (s : search_state) : search_state :=
  let cur := kernel_row (beta s) (cur_P s) in
  let sum := row_sum cur in
  let H := row_entropy (beta s) cur sum in
  let Hdiff := (H - flog perplexity)%Q in
  if Qlt_bool Hdiff tol && Qlt_bool (- Hdiff) tol then
    mkSearch true (beta s) (min_beta s) (max_beta s) (S (iter s)) cur sum
  else
    let '(b, lo, hi) := bisect Hdiff (beta s) (min_beta s) (max_beta s) in
    mkSearch false b lo hi (S (iter s)) cur sum.

(** The loop; it runs its body at most 200 times, so 200 is fuel enough. *)
Fixpoint search_loop (fuel : nat) (s : search_state) : search_state :=
  match fuel with
  | O => s
  | S fuel' =>
    if negb (found s) && (iter s <? 200)
    then search_loop fuel' (search_body s) else s
  end.

(** [std::vector<float> cur_P(K)] is zero-filled; [sum_P] is declared
    without a value. *)
Definition search_init : search_state :=
  mkSearch false 1%Q (- FLT_MAX)%Q FLT_MAX 0 (replicate K 0%Q) 0%Q.

Definition binary_search : search_state := search_loop 200 search_init.

(** Row-normalize the current row. *)
Definition normalize_row (s : search_state) : list Q :=
  for_loop 0 K (fun m cur => <[m := (cur !!! m / sum_P s)%Q]> cur) (cur_P s).

Definition calibrated_row : list Q := normalize_row binary_search.

End Calibration.
End Perplexity.

(** ** The range of a C [float] *)

Module Float.

(** A [float] with its range: a number, an infinity or NaN.  The numbers are
    kept exact; what is modelled of IEEE 754 single precision is the range.
    A result above [FLT_MAX] in magnitude is an infinity, a result of at most
    half the least positive [float] (2^-149) in magnitude is zero, and the
    infinities and NaN follow the IEEE rules: [inf - inf], [0 * inf],
    [inf / inf] and [0 / 0] are NaN, every operation on NaN is NaN and every
    comparison with NaN is false.  Zeros carry no sign: a non-zero number
    divided by zero is the infinity of the sign of the number. *)
Inductive float :=
| Num (q : Q)
| Inf (negative : bool)
| NaN.

#[global] Instance float_inhabited : Inhabited float := populate (Num 0%Q).

Definition half_least : Q := (1 # (2 ^ 150))%Q.

(** The [float] of an exact result. *)
Definition to_float (q : Q) : float :=
  if Qlt_bool FLT_MAX q then Inf false
  else if Qlt_bool q (- FLT_MAX) then Inf true
  else if Qle_bool (Qabs q) half_least then Num 0%Q
  else Num q.

Definition fneg (a : float) : float :=
  match a with
  | Num q => Num (- q)%Q
  | Inf s => Inf (negb s)
  | NaN => NaN
  end.

Definition fadd (a b : float) : float :=
  match a, b with
  | NaN, _ | _, NaN => NaN
  | Inf s, Inf t => if Bool.eqb s t then Inf s else NaN
  | Inf s, Num _ | Num _, Inf s => Inf s
  | Num x, Num y => to_float (x + y)%Q
  end.

Definition fsub (a b : float) : float := fadd a (fneg b).

Definition fmul (a b : float) : float :=
  match a, b with
  | NaN, _ | _, NaN => NaN
  | Inf s, Inf t => Inf (xorb s t)
  | Inf s, Num y | Num y, Inf s =>
    if Qeq_bool y 0 then NaN else Inf (xorb s (Qlt_bool y 0))
  | Num x, Num y => to_float (x * y)%Q
  end.

Definition fdiv (a b : float) : float :=
  match a, b with
  | NaN, _ | _, NaN => NaN
  | Inf _, Inf _ => NaN
  | Inf s, Num y => Inf (xorb s (Qlt_bool y 0))
  | Num _, Inf _ => Num 0%Q
  | Num x, Num y =>
    if Qeq_bool y 0
    then (if Qeq_bool x 0 then NaN else Inf (Qlt_bool x 0))
    else to_float (x / y)%Q
  end.

(** [a < b] and [a == b]. *)
Definition flt (a b : float) : bool :=
  match a, b with
  | NaN, _ | _, NaN => false
  | Inf s, Inf t => s && negb t
  | Inf s, Num _ => s
  | Num _, Inf t => negb t
  | Num x, Num y => Qlt_bool x y
  end.

Definition feq (a b : float) : bool :=
  match a, b with
  | Num x, Num y => Qeq_bool x y
  | Inf s, Inf t => Bool.eqb s t
  | _, _ => false
  end.

(** [exp] and [log] of <cmath> on a [float], from their values on the
    numbers: [exp (-inf) = 0], [exp (inf) = inf], [log 0 = -inf],
    [log (inf) = inf], and the logarithm of a negative number is NaN. *)
Definition exp_f (fexp : Q -> Q) (a : float) : float :=
  match a with
  | Num q => to_float (fexp q)
  | Inf true => Num 0%Q
  | Inf false => Inf false
  | NaN => NaN
  end.

Definition log_f (flog : Q -> Q) (a : float) : float :=
  match a with
  | Num q =>
    if Qlt_bool q 0 then NaN
    else if Qeq_bool q 0 then Inf true
    else to_float (flog q)
  | Inf false => Inf false
  | Inf true => NaN
  | NaN => NaN
  end.

End Float.

(** ** tsne.cpp: perplexity calibration, with the range of a [float] *)

Module FloatPerplexity.
Import Float.

(** The state of the binary search for one point. *)
Record search_state := mkSearch {
  found : bool;
  beta : float;
  min_beta : float;
  max_beta : float;
  iter : nat;
  cur_P : list float;
  sum_P : float
}.

Definition tol : float := Num 1e-5%Q.

Section Calibration.
Variable fexp : Q -> Q.
Variable flog : Q -> Q.
Variable K : nat.
Variable distances : list float.
Variable perplexity : float.

Definition kernel_row (b : float) (cur : list float) : list float :=
  for_loop 0 K
    (fun m cur => <[m := exp_f fexp (fmul (fneg b) (distances !!! (m + 1)%nat))]> cur)
    cur.

Definition row_sum (cur : list float) : float :=
  for_loop 0 K (fun m s => fadd s (cur !!! m)) (Num FLT_MIN).

Definition row_entropy (b : float) (cur : list float) (sum : float) : float :=
  let H := for_loop 0 K
             (fun m H => fadd H (fmul b (fmul (distances !!! (m + 1)%nat) (cur !!! m))))
             (Num 0%Q) in
  fadd (fdiv H sum) (log_f flog sum).

(** The bisection update of [beta] and its bounds, from [Hdiff]. *)
Definition bisect (Hdiff b lo hi : float) : float * float * float :=
  if flt (Num 0%Q) Hdiff then
    let lo := b in
    if feq hi (Num FLT_MAX) || feq hi (Num (- FLT_MAX)%Q)
    then (fmul b (Num 2%Q), lo, hi)
    else (fdiv (fadd b hi) (Num 2%Q), lo, hi)
  else
    let hi := b in
    if feq lo (Num (- FLT_MAX)%Q) || feq lo (Num FLT_MAX)
    then (fdiv b (Num 2%Q), lo, hi)
    else (fdiv (fadd b lo) (Num 2%Q), lo, hi).

(** The body of [while (!found && iter < 200)]. *)
Definition search_body (s : search_state) : search_state :=
  let cur := kernel_row (beta s) (cur_P s) in
  let sum := row_sum cur in
  let H := row_entropy (beta s) cur sum in
  let Hdiff := fsub H (log_f flog perplexity) in
  if flt Hdiff tol && flt (fneg Hdiff) tol then
    mkSearch true (beta s) (min_beta s) (max_beta s) (S (iter s)) cur sum
  else
    let '(b, lo, hi) := bisect Hdiff (beta s) (min_beta s) (max_beta s) in
    mkSearch false b lo hi (S (iter s)) cur sum.

Fixpoint search_loop (fuel : nat) (s : search_state) : search_state :=
  match fuel with
  | O => s
  | S fuel' =>
    if negb (found s) && (iter s <? 200)
    then search_loop fuel' (search_body s) else s
  end.

Definition search_init : search_state :=
  mkSearch false (Num 1%Q) (Num (- FLT_MAX)%Q) (Num FLT_MAX) 0
           (replicate K (Num 0%Q)) (Num 0%Q).

Definition binary_search : search_state := search_loop 200 search_init.

(** Row-normalize the current row. *)
Definition normalize_row (s : search_state) : list float :=
  for_loop 0 K (fun m cur => <[m := fdiv (cur !!! m) (sum_P s)]> cur) (cur_P s).

Definition calibrated_row : list float := normalize_row binary_search.

End Calibration.
End FloatPerplexity.

(** ** perplexity_search.cu: the batched calibration *)

Module PerplexitySearch.

Section Kernels.
(** [__expf] and [__logf]. *)
Variable fexp : Q -> Q.
Variable flog : Q -> Q.

(** [ComputePijKernel]: one thread per entry [TID]; the threads of a launch
    write distinct entries, so they are run here in index order. *)
Definition ComputePijKernel (pij squared_dist betas : list Q)
  (num_points num_near_neighbors : nat) : list Q :=
  for_loop 0 (num_points * num_near_neighbors)
    (fun TID pij =>
       let i := TID / num_near_neighbors in
       let j := TID mod num_near_neighbors in
       let b := betas !!! i in
       let d := squared_dist !!! TID in
       <[TID := if (j =? 0) && Qeq_bool d 0 then 0%Q else fexp (- b * d)%Q]> pij)
    pij.

(** The arrays [PerplexitySearchKernel] updates. *)
Record search_arrays := mkArrays {
  betas : list Q;
  lower_bound : list Q;
  upper_bound : list Q;
  found : list bool
}.

(** What thread [i] of [PerplexitySearchKernel] computes from its registers:
    the flag [is_found] and the new [beta], [min_beta], [max_beta]. *)
Definition kernel_update (neg_ent sum_P b lo hi perplexity_target epsilon : Q)
  : bool * (Q * Q * Q) :=
  let perplexity := (neg_ent / sum_P + flog sum_P)%Q in
  let perplexity_diff := (perplexity - flog perplexity_target)%Q in
  let is_found :=
    Qlt_bool perplexity_diff epsilon && Qlt_bool (- perplexity_diff) epsilon in
  if negb is_found then
    if Qlt_bool 0 perplexity_diff then
      let lo := b in
      let b := if Qeq_bool hi FLT_MAX || Qeq_bool hi (- FLT_MAX)
               then (b * 2)%Q else ((b + hi) / 2)%Q in
      (is_found, (b, lo, hi))
    else
      let hi := b in
      let b := if Qeq_bool lo (- FLT_MAX) || Qeq_bool lo FLT_MAX
               then (b / 2)%Q else ((b + lo) / 2)%Q in
      (is_found, (b, lo, hi))
  else (is_found, (b, lo, hi)).

Definition PerplexitySearchKernel (a : search_arrays)
  (neg_entropy row_sum : list Q) (perplexity_target epsilon : Q)
  (num_points : nat) : search_arrays :=
  for_loop 0 num_points
    (fun i a =>
       let '(is_found, (b, lo, hi)) :=
         kernel_update (neg_entropy !!! i) (row_sum !!! i) (betas a !!! i)
                       (lower_bound a !!! i) (upper_bound a !!! i)
                       perplexity_target epsilon in
       let a := if negb is_found
                then mkArrays (<[i := b]> (betas a)) (<[i := lo]> (lower_bound a))
                              (<[i := hi]> (upper_bound a)) (found a)
                else a in
       mkArrays (betas a) (lower_bound a) (upper_bound a) (<[i := is_found]> (found a)))
    a.

End Kernels.

(** [SearchPerplexity]: its second statement is [return;], after the
    [printf].  The vectors, the [do ... while] loop that launches the two
    kernels and the final row normalization stand below that [return] and
    are never run: [pij] is handed back as it came in. *)
Definition SearchPerplexity (pij squared_dist : list Q)
  (perplexity_target epsilon : Q) (num_points num_near_neighbors : nat)
  : list Q * list string :=
  (pij, ["SearchPerplexity called"%string]).

End PerplexitySearch.

(** ** tsne.cpp *)

Module Tsne.
Import VpTree.

(** The sparse matrix [row_P], [col_P], [val_P] (compressed rows). *)
Record csr := mkCsr { row_P : list nat; col_P : list nat; val_P : list Q }.

(** *** computeGaussianPerplexity *)

Section ComputeGaussianPerplexity.
Variable fexp : Q -> Q.
Variable flog : Q -> Q.
Variable rand : nat -> Z.
Variable RAND_MAX : Z.
Variable nth_element :
  nat -> nat -> nat -> (DataPoint -> DataPoint -> bool) ->
  list DataPoint -> list DataPoint.
(** The loop over the points is an OpenMP [parallel for].  Its bodies write
    different entries of [col_P] and [val_P]; they share the counter
    [steps_completed], which each body increments (atomically) and then
    reads again in the test of the progress line.  [read_steps n] is the
    value the test of point [n] reads: [n + 1] when the points are taken one
    after the other, any count of the bodies that have done their increment
    when several threads run. *)
Variable read_steps : nat -> nat.

(** [obj_X[n] = DataPoint(D, n, X + n * D)]. *)
Definition obj_X (X : list Q) (N D : nat) : list DataPoint :=
  for_loop 0 N (fun n v => <[n := mkDataPoint D (Z.of_nat n) (drop (n * D) X)]> v)
           (replicate N (mkDataPoint D (-1) X)).

(** The messages of [fprintf(stderr, ...)], by their format strings. *)
Definition msg_perplexity_K : string := "Perplexity should be lower than K!".
Definition msg_tree_time : string := "Building tree takes %.4f".
Definition msg_building : string := "Building tree...".
Definition msg_point : string := " - point %d of %d".

Definition log_freq : nat := 5.

(** The body of the loop over the points, for point [n]: the search, the
    binary search for [beta], the two stores and the progress line.
    [N / log_freq] is [0] for [N < 5]: with [verbose] on, the C++ remainder
    then divides by zero and the program is stopped; here [x mod 0 = x], and
    the properties of the messages are stated for [verbose] off or
    [5 <= N]. *)
Definition point_body (tree : list DataPoint * Node) (objs : list DataPoint)
  (N K : nat) (perplexity : Q) (verbose : bool) (n : nat)
  (st : csr * list string) : csr * list string :=
  let '(P, log) := st in
  let '(indices, distances) :=
    search euclidean_distance_squared (fst tree) (snd tree) (objs !!! n) (K + 1) in
  let s := Perplexity.binary_search fexp flog K distances perplexity in
  let cur := Perplexity.normalize_row K s in
  let '(col, val) :=
    for_loop 0 K
      (fun m '(col, val) =>
         (<[row_P P !!! n + m := Z.to_nat (index (indices !!! (m + 1)))]> col,
          <[row_P P !!! n + m := cur !!! m]> val))
      (col_P P, val_P P) in
  let P := mkCsr (row_P P) col val in
  let steps_completed := read_steps n in
  let log := if verbose && (steps_completed mod (N / log_freq) =? 0)
             then log ++ [msg_point] else log in
  (P, log).

Definition computeGaussianPerplexity (X : list Q) (N D : nat)
  (perplexity : Q) (K : nat) (verbose : bool) : csr * list string :=
  let log := if Qlt_bool (inject_Z (Z.of_nat K)) perplexity
             then [msg_perplexity_K] else [] in
  let row := for_loop 0 N (fun n row => <[n + 1 := row !!! n + K]> row)
                      (<[0 := 0]> (replicate (N + 1) 0)) in
  let P := mkCsr row (replicate (N * K) 0) (replicate (N * K) 0%Q) in
  let objs := obj_X X N D in
  let tree := VpBuild.create euclidean_distance_squared rand RAND_MAX nth_element objs in
  let log := if verbose then log ++ [msg_tree_time] else log in
  let log := if verbose then log ++ [msg_building] else log in
  for_loop 0 N (point_body tree objs N K perplexity verbose) (P, log).

End ComputeGaussianPerplexity.

(** *** symmetrizeMatrix *)

(** Whether element [(r, n)] is present: the scan of row [r] for column [n]
    (the first pass leaves the scan at the first hit, which gives the same
    flag). *)
Definition present (P : csr) (r n : nat) : bool :=
  for_loop (row_P P !!! r) (row_P P !!! (r + 1))
    (fun m found => found || (col_P P !!! m =? n)) false.

(** [a[i]++]. *)
Definition incr (a : list nat) (i : nat) : list nat := <[i := a !!! i + 1]> a.

(** First pass: the row counts of the symmetric matrix. *)
Definition count_body (P : csr) (n i : nat) (row_counts : list nat) : list nat :=
  if present P (col_P P !!! i) n
  then incr row_counts n
  else incr (incr row_counts n) (col_P P !!! i).

Definition row_counts (P : csr) (N : nat) : list nat :=
  for_loop 0 N
    (fun n rc => for_loop (row_P P !!! n) (row_P P !!! (n + 1)) (count_body P n) rc)
    (replicate N 0).

Definition no_elem (P : csr) (N : nat) : nat :=
  for_loop 0 N (fun n s => s + row_counts P N !!! n) 0.

Definition sym_row_P (P : csr) (N : nat) : list nat :=
  for_loop 0 N (fun n sr => <[n + 1 := sr !!! n + row_counts P N !!! n]> sr)
           (<[0 := 0]> (replicate (N + 1) 0)).

(** Second pass: the arrays being filled and the per-row [offset]. *)
Record fill_state := mkFill {
  sym_col_P : list nat;
  sym_val_P : list Q;
  offset : list nat
}.

(** The four stores for the pair [(n, j)] with value [v]. *)
Definition store_pair (sr : list nat) (n j : nat) (v : Q) (st : fill_state)
  : fill_state :=
  let sc := <[sr !!! n + offset st !!! n := j]> (sym_col_P st) in
  let sc := <[sr !!! j + offset st !!! j := n]> sc in
  let sv := <[sr !!! n + offset st !!! n := v]> (sym_val_P st) in
  let sv := <[sr !!! j + offset st !!! j := v]> sv in
  mkFill sc sv (offset st).

(** The scan of row [col_P[i]] in the second pass: no [break] here. *)
Definition scan_body (P : csr) (sr : list nat) (n i m : nat)
  (s : bool * fill_state) : bool * fill_state :=
  let j := col_P P !!! i in
  let '(found, st) := s in
  if col_P P !!! m =? n then
    (true,
     if n <=? j
     then store_pair sr n j (val_P P !!! i + val_P P !!! m)%Q st
     else st)
  else (found, st).

Definition fill_scan (P : csr) (sr : list nat) (n i : nat)
  (st : bool * fill_state) : bool * fill_state :=
  let j := col_P P !!! i in
  for_loop (row_P P !!! j) (row_P P !!! (j + 1)) (scan_body P sr n i) st.

Definition fill_body (P : csr) (sr : list nat) (n i : nat) (st : fill_state)
  : fill_state :=
  let j := col_P P !!! i in
  let '(found, st) := fill_scan P sr n i (false, st) in
  let st := if negb found then store_pair sr n j (val_P P !!! i) st else st in
  if negb found || (n <=? j) then
    let off := incr (offset st) n in
    let off := if negb (j =? n) then incr off j else off in
    mkFill (sym_col_P st) (sym_val_P st) off
  else st.

Definition fill (P : csr) (N : nat) : fill_state :=
  let sr := sym_row_P P N in
  for_loop 0 N
    (fun n st => for_loop (row_P P !!! n) (row_P P !!! (n + 1)) (fill_body P sr n) st)
    (mkFill (replicate (no_elem P N) 0) (replicate (no_elem P N) 0%Q)
            (replicate N 0)).

Definition symmetrizeMatrix (P : csr) (N : nat) : csr :=
  let st := fill P N in
  let sv := for_loop 0 (no_elem P N)
              (fun i sv => <[i := (sv !!! i / 2)%Q]> sv) (sym_val_P st) in
  mkCsr (sym_row_P P N) (sym_col_P st) sv.

(** The caller's normalization in [run]: the sum of the values, and every
    value divided by it. *)
Definition sum_P (P : csr) (N : nat) : Q :=
  for_loop 0 (row_P P !!! N) (fun i s => (s + val_P P !!! i)%Q) 0%Q.

Definition normalize_P (P : csr) (N : nat) : csr :=
  mkCsr (row_P P) (col_P P)
        (for_loop 0 (row_P P !!! N)
           (fun i v => <[i := (v !!! i / sum_P P N)%Q]> v) (val_P P)).

(** *** zeroMean *)

Definition zeroMean (X : list Q) (N D : nat) : list Q :=
  let mean := for_loop 0 N
                (fun n mean =>
                   for_loop 0 D
                     (fun d mean => <[d := (mean !!! d + X !!! (n * D + d)%nat)%Q]> mean)
                     mean)
                (replicate D 0%Q) in
  let mean := for_loop 0 D
                (fun d mean => <[d := (mean !!! d / inject_Z (Z.of_nat N))%Q]> mean)
                mean in
  for_loop 0 N
    (fun n X =>
       for_loop 0 D
         (fun d X => <[n * D + d := (X !!! (n * D + d)%nat - mean !!! d)%Q]> X) X)
    X.

(** *** computeGradient, evaluateError and run *)

Section Run.
Variable fexp : Q -> Q.
Variable flog : Q -> Q.
Variable rand : nat -> Z.
Variable RAND_MAX : Z.
Variable nth_element :
  nat -> nat -> nat -> (DataPoint -> DataPoint -> bool) ->
  list DataPoint -> list DataPoint.
(** The value of [steps_completed] that the progress test of a point reads
    in [computeGaussianPerplexity]. *)
Variable read_steps : nat -> nat.
(** [class SplitTree] (splittree.h, not among the sources): the tree built
    from the embedding, and [computeNonEdgeForces(point_index, theta, neg_f,
    &sum_Q)], which adds to the [no_dims] entries of [neg_f] from a given
    position and to [sum_Q]. *)
Variable SplitTree : Type.
Variable new_SplitTree : list Q -> nat -> nat -> SplitTree.
Variable computeNonEdgeForces :
  SplitTree -> nat -> Q -> list Q -> nat -> Q -> list Q * Q.
(** [sign] (tsne.h, not among the sources). *)
Variable sign : Q -> Q.
(** [randn()]: the number its n-th call returns. *)
Variable randn : nat -> Q.

Record grad_state := mkGrad {
  pos_f : list Q;
  neg_f : list Q;
  Q_ : list Q;
  P_i_sum : Q;
  C : Q
}.

(** The body of the loop over the edges of point [n]. *)
Definition edge_body (P : csr) (Y : list Q) (no_dims : nat) (eval_error : bool)
  (n i : nat) (st : grad_state) : grad_state :=
  let ind1 := n * no_dims in
  let ind2 := col_P P !!! i * no_dims in
  let D := for_loop 0 no_dims
             (fun d D => let t := (Y !!! (ind1 + d)%nat - Y !!! (ind2 + d)%nat)%Q in
                         (D + t * t)%Q) 0%Q in
  let v := val_P P !!! i in
  let st := if eval_error
            then mkGrad (pos_f st) (neg_f st) (Q_ st) (P_i_sum st + v)%Q
                        (C st + v * flog ((v + FLT_MIN) / (1 / (1 + D) + FLT_MIN)))%Q
            else st in
  let D := (v / (1 + D))%Q in
  mkGrad (for_loop 0 no_dims
            (fun d pf => <[ind1 + d := (pf !!! (ind1 + d)%nat
                                        + D * (Y !!! (ind1 + d)%nat - Y !!! (ind2 + d)%nat))%Q]> pf)
            (pos_f st))
         (neg_f st) (Q_ st) (P_i_sum st) (C st).

Definition gradient_body (P : csr) (Y : list Q) (no_dims : nat) (theta : Q)
  (eval_error : bool) (tree : SplitTree) (n : nat) (st : grad_state) : grad_state :=
  let st := for_loop (row_P P !!! n) (row_P P !!! (n + 1))
              (edge_body P Y no_dims eval_error n) st in
  let '(nf, this_Q) :=
    computeNonEdgeForces tree n theta (neg_f st) (n * no_dims) 0%Q in
  mkGrad (pos_f st) nf (<[n := this_Q]> (Q_ st)) (P_i_sum st) (C st).

(** [computeGradient]: the returned error [C] and the filled [dC]. *)
Definition computeGradient (P : csr) (Y : list Q) (N no_dims : nat)
  (dC : list Q) (theta : Q) (eval_error : bool) : Q * list Q :=
  let tree := new_SplitTree Y N no_dims in
  let st := for_loop 0 N (gradient_body P Y no_dims theta eval_error tree)
              (mkGrad (replicate (N * no_dims) 0%Q) (replicate (N * no_dims) 0%Q)
                      (replicate N 0%Q) 0%Q 0%Q) in
  let sum_Q := for_loop 0 N (fun i s => (s + Q_ st !!! i)%Q) 0%Q in
  let dC := for_loop 0 (N * no_dims)
              (fun i dC => <[i := (pos_f st !!! i - neg_f st !!! i / sum_Q)%Q]> dC) dC in
  ((C st + P_i_sum st * flog sum_Q)%Q, dC).

Definition evaluateError (P : csr) (Y : list Q) (N no_dims : nat) (theta : Q) : Q :=
  let tree := new_SplitTree Y N no_dims in
  let '(_, sum_Q) :=
    for_loop 0 N
      (fun n '(buff, sum_Q) => computeNonEdgeForces tree n theta buff 0 sum_Q)
      (replicate no_dims 0%Q, 0%Q) in
  for_loop 0 N
    (fun n C =>
       let ind1 := n * no_dims in
       for_loop (row_P P !!! n) (row_P P !!! (n + 1))
         (fun i C =>
            let ind2 := col_P P !!! i * no_dims in
            let q := for_loop 0 no_dims
                       (fun d q => let b := (Y !!! (ind1 + d)%nat - Y !!! (ind2 + d)%nat)%Q in
                                   (q + b * b)%Q) 0%Q in
            let q := (1 / (1 + q) / sum_Q)%Q in
            let v := val_P P !!! i in
            (C + v * flog ((v + FLT_MIN) / (q + FLT_MIN)))%Q)
         C)
    0%Q.

(** The variables of [run] that its training loop changes. *)
Record run_state := mkRun {
  Y : list Q;
  dY : list Q;
  uY : list Q;
  gains : list Q;
  val : list Q;
  momentum : Q;
  log : list string
}.

(** The body of the loop over the coordinates: gain, velocity, position. *)
Definition update_body (eta : Q) (i : nat) (s : run_state) : run_state :=
  let gains' :=
    <[i := if negb (Qeq_bool (sign (dY s !!! i)) (sign (uY s !!! i)))
           then (gains s !!! i + 0.2)%Q
           else (gains s !!! i * 0.8 + 0.01)%Q]> (gains s) in
  let uY' :=
    <[i := (momentum s * uY s !!! i - eta * gains' !!! i * dY s !!! i)%Q]> (uY s) in
  let Y' := <[i := (Y s !!! i + uY' !!! i)%Q]> (Y s) in
  mkRun Y' (dY s) uY' gains' (val s) (momentum s) (log s).

Definition eval_interval : nat := 100.
Definition final_momentum : Q := 0.8%Q.

Definition msg_iteration_first : string := "Iteration %d: error is %f".
Definition msg_iteration : string :=
  "Iteration %d: error is %f (%d iterations in %.4f seconds)".

Definition need_eval_error (verbose : bool) (max_iter iter : nat) : bool :=
  verbose && (((0 <? iter) && (iter mod eval_interval =? 0)) || (iter =? max_iter - 1)).

(** Stop lying about the P-values: [val_P[i] /= early_exaggeration]. *)
Definition stop_lying_values (row : list nat) (N : nat) (early_exaggeration : Q)
  (v : list Q) : list Q :=
  for_loop 0 (row !!! N) (fun i v => <[i := (v !!! i / early_exaggeration)%Q]> v) v.

(** One turn of the training loop.  [row] and [col] are [row_P] and [col_P],
    which the loop only reads. *)
Definition iteration (row col : list nat) (N no_dims : nat) (theta eta : Q)
  (max_iter : nat) (stop_lying_iter mom_switch_iter : Z)
  (early_exaggeration : Q) (verbose : bool) (iter : nat) (s : run_state)
  : run_state :=
  let eval := need_eval_error verbose max_iter iter in
  let '(error, dC) :=
    computeGradient (mkCsr row col (val s)) (Y s) N no_dims (dY s) theta eval in
  let s := mkRun (Y s) dC (uY s) (gains s) (val s) (momentum s) (log s) in
  let s := for_loop 0 (N * no_dims) (update_body eta) s in
  let s := mkRun (zeroMean (Y s) N no_dims) (dY s) (uY s) (gains s) (val s)
                 (momentum s) (log s) in
  let s := if (Z.of_nat iter =? stop_lying_iter)%Z
           then mkRun (Y s) (dY s) (uY s) (gains s)
                      (stop_lying_values row N early_exaggeration (val s))
                      (momentum s) (log s)
           else s in
  let s := if (Z.of_nat iter =? mom_switch_iter)%Z
           then mkRun (Y s) (dY s) (uY s) (gains s) (val s) final_momentum (log s)
           else s in
  if eval
  then mkRun (Y s) (dY s) (uY s) (gains s) (val s) (momentum s)
             (log s ++ [if iter =? 0 then msg_iteration_first else msg_iteration])
  else s.

(** The start of step 2: lie about the P-values, choose the switch iteration
    and the initial solution. *)
Definition stop_lying (n_iter_early_exag : Z) (init_from_Y : bool) : Z :=
  if init_from_Y then 0%Z else n_iter_early_exag.

Definition exaggerate (P : csr) (N : nat) (early_exaggeration : Q) : list Q :=
  for_loop 0 (row_P P !!! N)
    (fun i v => <[i := (v !!! i * early_exaggeration)%Q]> v) (val_P P).

Definition initial_Y (Y0 : list Q) (N no_dims : nat) (init_from_Y : bool) : list Q :=
  if init_from_Y then Y0
  else for_loop 0 (N * no_dims) (fun i Y => <[i := randn i]> Y) Y0.

(** The state at the start of the training loop, from the normalized
    symmetric matrix [P]; [dY] is allocated by [malloc], [uY] by [calloc]. *)
Definition start_state (P : csr) (N no_dims : nat) (Y0 : list Q)
  (init_from_Y : bool) (early_exaggeration : Q) (log0 : list string) : run_state :=
  mkRun (initial_Y Y0 N no_dims init_from_Y)
        (replicate (N * no_dims) 0%Q) (replicate (N * no_dims) 0%Q)
        (replicate (N * no_dims) 1%Q)
        (exaggerate P N early_exaggeration) 0.5%Q log0.

(** The training loop of a run of [max_iter] iterations, stopped before
    iteration [t]; the whole loop is [t = max_iter]. *)
Definition training_loop (P : csr) (N no_dims : nat) (Y0 : list Q) (theta : Q)
  (max_iter : nat) (n_iter_early_exag : Z) (init_from_Y verbose : bool)
  (early_exaggeration learning_rate : Q) (log0 : list string) (t : nat)
  : run_state :=
  let stop_lying_iter := stop_lying n_iter_early_exag init_from_Y in
  let mom_switch_iter := n_iter_early_exag in
  for_loop 0 t
    (iteration (row_P P) (col_P P) N no_dims theta learning_rate max_iter
               stop_lying_iter mom_switch_iter early_exaggeration verbose)
    (start_state P N no_dims Y0 init_from_Y early_exaggeration log0).

(** Step 2 of [run] up to the end of the training loop. *)
Definition train (P : csr) (N no_dims : nat) (Y0 : list Q) (theta : Q)
  (max_iter : nat) (n_iter_early_exag : Z) (init_from_Y verbose : bool)
  (early_exaggeration learning_rate : Q) (log0 : list string) : run_state :=
  training_loop P N no_dims Y0 theta max_iter n_iter_early_exag init_from_Y
                verbose early_exaggeration learning_rate log0 max_iter.

Definition msg_perplexity_large : string :=
  "Perplexity too large for the number of data points! Adjusting ...".

(** [(int) x]: truncation towards zero. *)
Definition to_int (q : Q) : Z := if Qlt_bool q 0 then Qceiling q else Qfloor q.

(** Step 1 of [run]: the normalized symmetric input similarities. *)
Definition input_similarities (X : list Q) (N D : nat) (perplexity : Q)
  (verbose : bool) : csr * list string :=
  let clamp := Qlt_bool (inject_Z (Z.of_nat N - 1)) (3 * perplexity)%Q in
  let perplexity := if clamp then inject_Z ((Z.of_nat N - 1) ÷ 3) else perplexity in
  let log := if clamp && verbose then [msg_perplexity_large] else [] in
  let X := zeroMean X N D in
  let max_X := for_loop 0 (N * D)
                 (fun i mx => if Qlt_bool mx (X !!! i) then X !!! i else mx) 0%Q in
  let X := for_loop 0 (N * D) (fun i X => <[i := (X !!! i / max_X)%Q]> X) X in
  let '(P, log') :=
    computeGaussianPerplexity fexp flog rand RAND_MAX nth_element read_steps X N D
      perplexity
      (Z.to_nat (to_int (3 * perplexity)%Q)) verbose in
  (normalize_P (symmetrizeMatrix P N) N, log ++ log').

(** [run]: the embedding [Y], the final error when asked for, the messages. *)
Definition run (X : list Q) (N D : nat) (Y0 : list Q) (no_dims : nat)
  (perplexity theta : Q) (max_iter : nat) (n_iter_early_exag : Z)
  (init_from_Y verbose : bool) (early_exaggeration learning_rate : Q)
  (final_error : bool) : list Q * option Q * list string :=
  let '(P, log1) := input_similarities X N D perplexity verbose in
  let s := train P N no_dims Y0 theta max_iter n_iter_early_exag init_from_Y
                 verbose early_exaggeration learning_rate log1 in
  (Y s,
   if final_error
   then Some (evaluateError (mkCsr (row_P P) (col_P P) (val s)) (Y s) N no_dims theta)
   else None,
   log s).

End Run.

(** Modelled from the spec: [sign], which tsne.h declares and src/ does not
    hold; the spec speaks of the sign of the gradient and of the velocity.
    It is used to run closed examples only. *)
Definition sign_model (x : Q) : Q :=
  if Qeq_bool x 0 then 0%Q else if Qlt_bool x 0 then (-1)%Q else 1%Q.

End Tsne.

(** ** Vocabulary of the properties *)

Module VpSpec.
Import VpTree.

(** The indices held by the nodes of a tree, root first. *)
Fixpoint nodes (t : Node) : list nat :=
  match t with
  | Null => []
  | MkNode i _ l r => i :: nodes l ++ nodes r
  end.

(** The partition [buildFromPoints] leaves, by the postcondition of
    [std::nth_element]: seen from the point of a node, no point of the left
    subtree is farther than the threshold and no point of the right subtree
    is nearer. *)
Fixpoint vp_ok (distance : DataPoint -> DataPoint -> Q) (items : list DataPoint)
  (t : Node) : Prop :=
  match t with
  | Null => True
  | MkNode i th l r =>
    (forall q, q ∈ nodes l -> (distance (items !!! i) (items !!! q) <= th)%Q) /\
    (forall q, q ∈ nodes r -> (th <= distance (items !!! i) (items !!! q))%Q) /\
    vp_ok distance items l /\ vp_ok distance items r
  end.

(** A queue in non-increasing order of [dist]. *)
Fixpoint descending (q : pqueue) : Prop :=
  match q with
  | [] => True
  | h :: q' => (forall y, y ∈ q' -> (dist y <= dist h)%Q) /\ descending q'
  end.

(** What [search_node] keeps true of [heap] and [tau] in a search of the
    tree [root] for [k] neighbours of [target]. *)
Definition search_inv (distance : DataPoint -> DataPoint -> Q)
  (items : list DataPoint) (target : DataPoint) (k : nat) (root : Node)
  (st : pqueue * Q) : Prop :=
  let '(heap, tau) := st in
  descending heap /\
  (forall h, h ∈ heap ->
     hindex h ∈ nodes root /\ dist h = distance (items !!! hindex h) target) /\
  length heap <= k /\
  (length heap < k -> tau = DBL_MAX) /\
  (length heap = k -> tau = top_dist heap).

(** The queue holds an item at distance zero. *)
Definition has_zero (st : pqueue * Q) : Prop :=
  exists h, h ∈ fst st /\ (dist h == 0)%Q.

(** The first part of a visit of [search_node]: the test against [tau] and
    the push. *)
Definition visit (distance : DataPoint -> DataPoint -> Q)
  (items : list DataPoint) (target : DataPoint) (k : nat) (idx : nat)
  (st : pqueue * Q) : pqueue * Q :=
  let '(heap, tau) := st in
  let d := distance (items !!! idx) target in
  if Qlt_bool d tau then
    let heap := if size heap =? k then pop heap else heap in
    let heap := push (mkHeapItem idx d) heap in
    let tau := if size heap =? k then top_dist heap else tau in
    (heap, tau)
  else (heap, tau).

End VpSpec.

Module SymSpec.
Import Tsne.

(** [i] is the position of an entry of row [n]. *)
Definition in_row (P : csr) (n i : nat) : Prop :=
  row_P P !!! n <= i < row_P P !!! (n + 1).

(** The positions of the entries of row [n], and the pairs (row, position)
    of all entries in the order the two passes visit them. *)
Definition row_entries (P : csr) (n : nat) : list nat :=
  seq (row_P P !!! n) (row_P P !!! (n + 1) - row_P P !!! n).

Definition entries (P : csr) (N : nat) : list (nat * nat) :=
  n ← seq 0 N; (fun i => (n, i)) <$> row_entries P n.

(** A sparse matrix of [N] rows as [computeGaussianPerplexity] leaves it:
    [N + 1] row offsets that start at 0 and do not decrease, the last being
    the number of entries; column indices below [N]; no column twice in a
    row. *)
Record csr_wf (P : csr) (N : nat) : Prop := mkWf {
  wf_length : length (row_P P) = N + 1;
  wf_first : row_P P !!! 0 = 0;
  wf_mono : forall n, n < N -> row_P P !!! n <= row_P P !!! (n + 1);
  wf_col_length : row_P P !!! N <= length (col_P P);
  wf_val_length : row_P P !!! N <= length (val_P P);
  wf_cols : forall n i, n < N -> in_row P n i -> col_P P !!! i < N;
  wf_nodup : forall n i i', n < N -> in_row P n i -> in_row P n i' ->
             col_P P !!! i = col_P P !!! i' -> i = i'
}.

(** The same as a test, for concrete matrices. *)
Definition csr_wfb (P : csr) (N : nat) : bool :=
  (length (row_P P) =? N + 1) && (row_P P !!! 0 =? 0)
  && forallb (fun n => row_P P !!! n <=? row_P P !!! (n + 1)) (seq 0 N)
  && (row_P P !!! N <=? length (col_P P)) && (row_P P !!! N <=? length (val_P P))
  && forallb (fun n =>
       forallb (fun i =>
         (col_P P !!! i <? N)
         && forallb (fun i' => negb (col_P P !!! i =? col_P P !!! i') || (i =? i'))
                    (row_entries P n))
         (row_entries P n))
       (seq 0 N).

(** For the entry at position [snd e] of row [fst e]: whether the second
    pass finds its reciprocal, whether the pass stores for it, and what the
    entry adds to [row_counts[r]] in the first pass and to [offset[r]] in the
    second. *)
Definition reciprocal (P : csr) (e : nat * nat) : bool :=
  present P (col_P P !!! snd e) (fst e).

Definition emitted (P : csr) (e : nat * nat) : bool :=
  negb (reciprocal P e) || (fst e <=? col_P P !!! snd e).

Definition count1 (P : csr) (r : nat) (e : nat * nat) : nat :=
  (if fst e =? r then 1 else 0)
  + (if negb (reciprocal P e) && (col_P P !!! snd e =? r) then 1 else 0).

Definition offset1 (P : csr) (r : nat) (e : nat * nat) : nat :=
  if emitted P e && ((fst e =? r) || (col_P P !!! snd e =? r)) then 1 else 0.

(** The position of the reciprocal of an entry, and the value the second
    pass stores for the entry (before the final halving). *)
Definition recip_index (P : csr) (e : nat * nat) : nat :=
  hd 0 (List.filter (fun m => col_P P !!! m =? fst e)
                    (row_entries P (col_P P !!! snd e))).

Definition pair_value (P : csr) (e : nat * nat) : Q :=
  if reciprocal P e
  then (val_P P !!! snd e + val_P P !!! recip_index P e)%Q
  else val_P P !!! snd e.

(** What an entry with a reciprocal adds to the count of its row without
    adding to its offset, and to the offset of its column without adding to
    its count. *)
Definition skipped (P : csr) (r : nat) (e : nat * nat) : nat :=
  if (fst e =? r) && reciprocal P e && (col_P P !!! snd e <? fst e) then 1 else 0.

Definition mirrored (P : csr) (r : nat) (e : nat * nat) : nat :=
  if (col_P P !!! snd e =? r) && reciprocal P e && (fst e <? col_P P !!! snd e)
  then 1 else 0.

(** The offset of row [r] after the second pass has visited the entries
    [es]. *)
Definition offsets_after (P : csr) (es : list (nat * nat)) (r : nat) : nat :=
  sum_list_with (offset1 P r) es.

(** Once the entries [es1] and then [e] are visited, the pair of [e] is in
    the two slots the offsets pointed at. *)
Definition slot_ok (P : csr) (N : nat) (st : fill_state)
  (es1 : list (nat * nat)) (e : nat * nat) : Prop :=
  emitted P e = true ->
  let n := fst e in
  let j := col_P P !!! snd e in
  let pn := sym_row_P P N !!! n + offsets_after P es1 n in
  let pj := sym_row_P P N !!! j + offsets_after P es1 j in
  sym_col_P st !!! pn = j /\ sym_val_P st !!! pn = pair_value P e /\
  sym_col_P st !!! pj = n /\ sym_val_P st !!! pj = pair_value P e.

(** The invariant of the second pass, after the entries [es]. *)
Definition fill_inv (P : csr) (N : nat) (es : list (nat * nat))
  (st : fill_state) : Prop :=
  length (sym_col_P st) = no_elem P N /\
  length (sym_val_P st) = no_elem P N /\
  length (offset st) = N /\
  (forall r, r < N -> offset st !!! r = offsets_after P es r) /\
  (forall es1 e es2, es = es1 ++ e :: es2 -> slot_ok P N st es1 e).

(** The entries the passes visit lie in the matrix. *)
Definition valid (P : csr) (N : nat) (e : nat * nat) : Prop :=
  fst e < N /\ in_row P (fst e) (snd e) /\ col_P P !!! snd e < N.

(** Entry [p] of the matrix is in row [r], has column [c] and value [v]. *)
Definition stored (P : csr) (r c : nat) (v : Q) (p : nat) : Prop :=
  in_row P r p /\ col_P P !!! p = c /\ val_P P !!! p = v.


End SymSpec.

Module FloatSpec.
Import Float FloatPerplexity.

(** A [float] that is a number, and one that is neither a negative number
    nor minus infinity. *)
Definition is_number (a : float) : Prop := exists q, a = Num q.

Definition not_negative (a : float) : Prop :=
  match a with
  | Num q => (0 <= q)%Q
  | Inf negative => negative = false
  | NaN => True
  end.

(** A squared distance that is a number: it is not negative. *)
Definition distance_ok (a : float) : Prop := exists q, a = Num q /\ (0 <= q)%Q.

(** A bound of the binary search: it is not set, or it is the [beta] of an
    earlier turn. *)
Definition bound_ok (a : float) : Prop :=
  feq a (Num FLT_MAX) = true \/ feq a (Num (- FLT_MAX)%Q) = true \/ not_negative a.

(** What the binary search keeps true of [beta] and of its bounds. *)
Definition sane (s : search_state) : Prop :=
  not_negative (beta s) /\ bound_ok (min_beta s) /\ bound_ok (max_beta s).

(** The largest [int]. *)
Definition INT_MAX : Z := 2147483647.

End FloatSpec.

Module OptimSpec.
Import Tsne.

(** The part of the state of [computeGradient] the gradient is made of. *)
Definition forces (st : grad_state) : list Q * list Q * list Q :=
  (pos_f st, neg_f st, Q_ st).

(** The gain [update_body] leaves, from the gain, the gradient and the
    velocity before it. *)
Definition new_gain (sign : Q -> Q) (g dy u : Q) : Q :=
  if negb (Qeq_bool (sign dy) (sign u)) then (g + 0.2)%Q else (g * 0.8 + 0.01)%Q.

(** The state of [run] without its messages. *)
Definition trajectory (s : run_state)
  : list Q * list Q * list Q * list Q * list Q * Q :=
  (Y s, dY s, uY s, gains s, val s, momentum s).

End OptimSpec.

(** ** Data of the closed examples *)

Module Examples.
Import VpTree.

(** Rational stand-ins for [exp] and [log], to run the code on concrete
    inputs: [(1 + x/8)^8], and the first three terms of the series of
    [2 * atanh ((x - 1) / (x + 1))].  They are exact at [exp 0 = 1] and
    [log 1 = 0]. *)
Definition exp_approx (x : Q) : Q :=
  let y := (1 + x / 8)%Q in
  let y2 := (y * y)%Q in
  let y4 := (y2 * y2)%Q in
  (y4 * y4)%Q.

Definition log_approx (x : Q) : Q :=
  let z := ((x - 1) / (x + 1))%Q in
  let z2 := (z * z)%Q in
  (2 * z * (1 + z2 * ((1 # 3) + z2 * (1 # 5))))%Q.

(** The points taken one after the other: the progress test of point [n]
    reads [steps_completed = n + 1]. *)
Definition one_thread (n : nat) : nat := n + 1.

(** A [std::nth_element] that finds the range already partitioned, and a
    [rand()] that returns 0. *)
Definition nth_element_keep (first nth last : nat)
  (comp : DataPoint -> DataPoint -> bool) (v : list DataPoint) : list DataPoint := v.
Definition rand_zero (n : nat) : Z := 0%Z.
Definition RAND_MAX : Z := 2147483647%Z.

(** Three points on a line, with the tree [create] builds from them. *)
Definition pt (i : Z) (c : Q) : DataPoint := mkDataPoint 1 i [c].
Definition line_items : list DataPoint := [pt 0 0%Q; pt 1 1%Q; pt 2 3%Q].
Definition line_tree : Node :=
  MkNode 0 1%Q Null (MkNode 1 4%Q Null (MkNode 2 0%Q Null Null)).

(** Three points with the same coordinate. *)
Definition same_points : list DataPoint := [pt 0 5%Q; pt 1 5%Q; pt 2 5%Q].

(** Ten coincident points in dimension 1. *)
Definition ten_points : list Q := replicate 10 0%Q.

(** A matrix of three rows: the entries (0,1) and (1,0) are reciprocal, the
    entry (0,2) is not. *)
Definition three_rows : Tsne.csr :=
  Tsne.mkCsr [0; 2; 3; 3] [1; 2; 0] [0.5; 0.5; 1]%Q.

(** A state of the training loop with one coordinate. *)
Definition one_coordinate : Tsne.run_state :=
  Tsne.mkRun [1%Q] [1%Q] [1%Q] [1%Q] [] 0.5%Q [].

End Examples.

(** ** Vocabulary of the further properties *)

Module DataSpec.

(** The sum of column [d] of an [N] x [D] matrix stored by rows. *)
Definition column_sum (X : list Q) (N D d : nat) : Q :=
  for_loop 0 N (fun n s => (s + X !!! (n * D + d)%nat)%Q) 0%Q.

End DataSpec.

Module KnnSpec.
Import VpTree VpSpec.

#[global] Instance HeapItem_inhabited : Inhabited HeapItem :=
  populate (mkHeapItem 0 0%Q).

(** The thresholds of the nodes of a tree. *)
Fixpoint thresholds (t : Node) : list Q :=
  match t with
  | Null => []
  | MkNode _ th l r => th :: thresholds l ++ thresholds r
  end.

(** No item of the queue is farther than [tau]. *)
Definition below (st : pqueue * Q) : Prop :=
  forall h, h ∈ fst st -> (dist h <= snd st)%Q.

(** The point of index [q] is accounted for: it is in the queue, or it is
    no nearer to the target than [tau]. *)
Definition covered (distance : DataPoint -> DataPoint -> Q)
  (items : list DataPoint) (target : DataPoint) (q : nat) (st : pqueue * Q) : Prop :=
  (exists h, h ∈ fst st /\ hindex h = q) \/
  (snd st <= distance (items !!! q) target)%Q.

(** What a step of the search keeps, from [st] to [st']: the invariant, the
    bound [tau] on the queue, a [tau] that does not grow, and the points
    accounted for. *)
Definition step_ok (distance : DataPoint -> DataPoint -> Q)
  (items : list DataPoint) (target : DataPoint) (k : nat) (root : Node)
  (st st' : pqueue * Q) : Prop :=
  search_inv distance items target k root st' /\ below st' /\
  (snd st' <= snd st)%Q /\
  forall q, covered distance items target q st -> covered distance items target q st'.

End KnnSpec.

Module BuildSpec.
Import VpTree.

(** [v'] is [v] with the entries at the positions from [a] to [b - 1]
    rearranged. *)
Definition seg_perm (a b : nat) (v v' : list DataPoint) : Prop :=
  v' ≡ₚ v /\ forall j, j < a \/ b <= j -> v' !!! j = v !!! j.

(** What [std::nth_element (first, nth, last, comp)] promises for the
    comparator of a vantage point: the range is rearranged, the rest is
    kept, no entry before [nth] is above the entry at [nth] and no entry
    after it is below. *)
Definition nth_element_post (distance : DataPoint -> DataPoint -> Q)
  (nth_element : nat -> nat -> nat -> (DataPoint -> DataPoint -> bool) ->
                 list DataPoint -> list DataPoint) : Prop :=
  forall first nth last item v,
    first <= nth -> nth < last -> last <= length v ->
    let comp := VpBuild.DistanceComparator distance item in
    let v' := nth_element first nth last comp v in
    seg_perm first last v v' /\
    (forall j, first <= j < nth -> comp (v' !!! nth) (v' !!! j) = false) /\
    (forall j, nth <= j < last -> comp (v' !!! j) (v' !!! nth) = false).

(** What [rand()] promises. *)
Definition rand_post (rand : nat -> Z) (RAND_MAX : Z) : Prop :=
  (0 < RAND_MAX)%Z /\ forall n, (0 <= rand n <= RAND_MAX)%Z.

(** A [std::nth_element] that sorts the whole range: [b] is not below [a]
    for the comparator. *)
Definition not_below (comp : DataPoint -> DataPoint -> bool) : relation DataPoint :=
  fun a b => comp b a = false.

#[global] Instance not_below_dec comp a b : Decision (not_below comp a b) :=
  decide (comp b a = false).

Definition nth_element_sort (first nth last : nat)
  (comp : DataPoint -> DataPoint -> bool) (v : list DataPoint) : list DataPoint :=
  take first v
  ++ merge_sort (not_below comp) (take (last - first) (drop first v))
  ++ drop last v.

(** What [buildFromPoints (lower, upper)] makes of [items]: the tree [t] and
    the rearranged [items']. *)
Definition built (distance : DataPoint -> DataPoint -> Q) (lower upper : nat)
  (items : list DataPoint) (t : Node) (items' : list DataPoint) : Prop :=
  seg_perm lower upper items items' /\
  VpSpec.nodes t = seq lower (upper - lower) /\
  VpSpec.vp_ok distance items' t /\
  forall th, th ∈ KnnSpec.thresholds t ->
    th = 0%Q \/
    exists i j, lower <= i < upper /\ lower <= j < upper /\
                th = distance (items' !!! i) (items' !!! j).

End BuildSpec.

Module RunSpec.
Import VpTree Tsne.




(** The perplexity [run] goes on with after its first test, and the number
    of neighbours [(int) (3 * perplexity)] it asks for. *)
Definition clamped_perplexity (N : nat) (perplexity : Q) : Q :=
  if Qlt_bool (inject_Z (Z.of_nat N - 1)) (3 * perplexity)%Q
  then inject_Z ((Z.of_nat N - 1) ÷ 3) else perplexity.

Definition neighbours (N : nat) (perplexity : Q) : nat :=
  Z.to_nat (to_int (3 * clamped_perplexity N perplexity)%Q).

(** [max_X] of [run], and the data divided by it. *)
Definition max_X (X : list Q) (n : nat) : Q :=
  for_loop 0 n (fun i mx => if Qlt_bool mx (X !!! i) then X !!! i else mx) 0%Q.

Definition scaled (X : list Q) (n : nat) : list Q :=
  for_loop 0 n (fun i X' => <[i := (X' !!! i / max_X X n)%Q]> X') X.

(** The arrays of a run hold the [N * no_dims] coordinates. *)
Definition sized (N no_dims : nat) (s : run_state) : Prop :=
  N * no_dims <= length (Y s) /\ N * no_dims <= length (uY s) /\
  N * no_dims <= length (gains s).

End RunSpec.

Module KernelSpec.
Import PerplexitySearch.

(** A kernel launch: the threads, named by their global index
    [threadIdx.x + blockIdx.x * blockDim.x], in the order they happen to
    run. *)
Definition launch {S : Type} (order : list nat) (thread : nat -> S -> S) (s : S) : S :=
  fold_left (fun s i => thread i s) order s.

Section Threads.
Variable fexp : Q -> Q.
Variable flog : Q -> Q.

(** The thread [TID] of [ComputePijKernel], with its test of the range. *)
Definition pij_thread (squared_dist betas : list Q)
  (num_points num_near_neighbors : nat) (TID : nat) (pij : list Q) : list Q :=
  if num_points * num_near_neighbors <=? TID then pij
  else
    let i := TID / num_near_neighbors in
    let j := TID mod num_near_neighbors in
    let b := betas !!! i in
    let d := squared_dist !!! TID in
    <[TID := if (j =? 0) && Qeq_bool d 0 then 0%Q else fexp (- b * d)%Q]> pij.

(** The thread [i] of [PerplexitySearchKernel], with its test of the range. *)
Definition search_thread (neg_entropy row_sum : list Q)
  (perplexity_target epsilon : Q) (num_points : nat) (i : nat) (a : search_arrays)
  : search_arrays :=
  if num_points <=? i then a
  else
    let '(is_found, (b, lo, hi)) :=
      kernel_update flog (neg_entropy !!! i) (row_sum !!! i) (betas a !!! i)
                    (lower_bound a !!! i) (upper_bound a !!! i)
                    perplexity_target epsilon in
    let a := if negb is_found
             then mkArrays (<[i := b]> (betas a)) (<[i := lo]> (lower_bound a))
                           (<[i := hi]> (upper_bound a)) (found a)
             else a in
    mkArrays (betas a) (lower_bound a) (upper_bound a) (<[i := is_found]> (found a)).

End Threads.

(** The arrays hold an entry for every point. *)
Definition arrays_sized (num_points : nat) (a : search_arrays) : Prop :=
  num_points <= length (betas a) /\ num_points <= length (lower_bound a) /\
  num_points <= length (upper_bound a) /\ num_points <= length (found a).

(** Entry [i] of the four arrays. *)
Definition entry (a : search_arrays) (i : nat) : Q * Q * Q * bool :=
  (betas a !!! i, lower_bound a !!! i, upper_bound a !!! i, found a !!! i).

Definition sizes (a : search_arrays) : nat * nat * nat * nat :=
  (length (betas a), length (lower_bound a), length (upper_bound a), length (found a)).

End KernelSpec.

(** ** Stand-ins for the closed examples of the further properties *)

Module Stubs.
Import VpTree Examples.

(** A [SplitTree] that holds nothing and whose [computeNonEdgeForces] adds no
    force and 1 to [sum_Q]; a [randn] that returns 0. *)
Definition no_tree (Y : list Q) (N no_dims : nat) : unit := tt.
Definition no_forces (t : unit) (n : nat) (theta : Q) (neg_f : list Q)
  (pos : nat) (sum_Q : Q) : list Q * Q := (neg_f, (sum_Q + 1)%Q).
Definition randn_zero (n : nat) : Q := 0%Q.

(** A positive stand-in for [exp]: the reciprocal of the first three terms
    of the series of [exp (- x)]; the divisor is [((x - 1)^2 + 1) / 2]. *)
Definition exp_recip (x : Q) : Q := (1 / (1 - x + x * x / 2))%Q.

(** The distance of two points on a line, which has the triangle
    inequality, and the tree of [line_items] for it. *)
Definition line_distance (a b : DataPoint) : Q := Qabs (x a 0 - x b 0).
Definition line_tree_abs : Node :=
  MkNode 0 1%Q Null (MkNode 1 2%Q Null (MkNode 2 0%Q Null Null)).

(** Six points on a line, and the coordinates of three points on a line. *)
Definition six_points : list DataPoint :=
  [pt 0 0%Q; pt 1 1%Q; pt 2 2%Q; pt 3 2.5%Q; pt 4 3%Q; pt 5 4%Q].
Definition three_points : list Q := [0; 1; 3]%Q.

(** The arrays of [PerplexitySearchKernel] for two points. *)
Definition two_arrays : PerplexitySearch.search_arrays :=
  PerplexitySearch.mkArrays [1; 1]%Q [- FLT_MAX; - FLT_MAX]%Q [FLT_MAX; FLT_MAX]%Q
                            [false; false].

End Stubs.

(** * Part II: properties *)

(** ** Loops *)

Lemma for_loop_ge {S : Type} lo hi (body : nat -> S -> S) s :
  hi <= lo -> for_loop lo hi body s = s.
Proof.
  intros H. unfold for_loop. replace (hi - lo) with 0 by lia. reflexivity.
Qed.

Lemma for_loop_S {S : Type} lo hi (body : nat -> S -> S) s :
  lo <= hi -> for_loop lo (Datatypes.S hi) body s = body hi (for_loop lo hi body s).
Proof.
  intros H. unfold for_loop.
  replace (Datatypes.S hi - lo) with (Datatypes.S (hi - lo)) by lia.
  rewrite seq_S, fold_left_app. simpl.
  replace (lo + (hi - lo)) with hi by lia. reflexivity.
Qed.

(** The invariant rule of a counted loop. *)
Lemma for_loop_inv {S : Type} (I : nat -> S -> Prop) lo hi (body : nat -> S -> S) s :
  lo <= hi ->
  I lo s ->
  (forall i s, lo <= i < hi -> I i s -> I (Datatypes.S i) (body i s)) ->
  I hi (for_loop lo hi body s).
Proof.
  intros Hle H0 Hstep. induction hi as [|hi IH].
  - assert (lo = 0) by lia. subst. rewrite for_loop_ge by lia. exact H0.
  - destruct (decide (lo = Datatypes.S hi)) as [->|Hne].
    + rewrite for_loop_ge by lia. exact H0.
    + rewrite for_loop_S by lia. apply Hstep; [lia|].
      apply IH; [lia|]. intros i s' Hi. apply Hstep. lia.
Qed.

Lemma Qlt_bool_iff x y : Qlt_bool x y = true <-> (x < y)%Q.
Proof.
  unfold Qlt_bool. rewrite negb_true_iff, <- not_true_iff_false, Qle_bool_iff.
  split; [apply Qnot_le_lt | apply Qlt_not_le].
Qed.

Lemma Qlt_bool_false x y : Qlt_bool x y = false <-> (y <= x)%Q.
Proof.
  unfold Qlt_bool. rewrite negb_false_iff. apply Qle_bool_iff.
Qed.

Lemma Qle_bool_false x y : Qle_bool x y = false <-> (y < x)%Q.
Proof.
  rewrite <- not_true_iff_false, Qle_bool_iff.
  split; [apply Qnot_le_lt | apply Qlt_not_le].
Qed.

Lemma FLT_MIN_pos : (0 < FLT_MIN)%Q.
Proof. reflexivity. Qed.

Lemma DBL_MAX_pos : (0 < DBL_MAX)%Q.
Proof. reflexivity. Qed.

(** ** Loops that rewrite an array entry by entry *)

Lemma for_loop_insert_length {A} n (f : nat -> list A -> A) (l : list A) :
  length (for_loop 0 n (fun m l => <[m := f m l]> l) l) = length l.
Proof.
  apply (for_loop_inv (fun _ l' => length l' = length l)); [lia|reflexivity|].
  intros i l' _ H. rewrite length_insert. exact H.
Qed.

(** A loop [for (m = 0; m < n; m++) a[m] = F m a[m]] leaves [F m a[m]] in
    the entries below [n] and the others as they were. *)
Lemma for_loop_insert_lookup {A} `{!Inhabited A} n (F : nat -> A -> A) (l : list A) i :
  n <= length l ->
  for_loop 0 n (fun m l => <[m := F m (l !!! m)]> l) l !!! i
  = if i <? n then F i (l !!! i) else l !!! i.
Proof.
  intros Hn.
  enough (H : length (for_loop 0 n (fun m l => <[m := F m (l !!! m)]> l) l) = length l /\
              forall i, for_loop 0 n (fun m l => <[m := F m (l !!! m)]> l) l !!! i
                        = if i <? n then F i (l !!! i) else l !!! i)
    by apply H.
  clear i. induction n as [|n IH].
  - rewrite for_loop_ge by lia. split; [reflexivity|]. intros i. reflexivity.
  - rewrite for_loop_S by lia. destruct IH as [IHlen IH]; [lia|].
    split; [rewrite length_insert; exact IHlen|]. intros i.
    destruct (decide (i = n)) as [->|Hne].
    + rewrite list_lookup_total_insert_eq by lia.
      rewrite IH. rewrite (proj2 (Nat.ltb_ge n n)) by lia.
      rewrite (proj2 (Nat.ltb_lt n (S n))) by lia. reflexivity.
    + rewrite list_lookup_total_insert_ne by congruence. rewrite IH.
      destruct (i <? n) eqn:E1, (i <? S n) eqn:E2; try reflexivity.
      * apply Nat.ltb_lt in E1. apply Nat.ltb_ge in E2. lia.
      * apply Nat.ltb_ge in E1. apply Nat.ltb_lt in E2. lia.
Qed.

(** The same for a loop whose new entry does not read the array. *)
Lemma for_loop_set_lookup {A} `{!Inhabited A} n (g : nat -> A) (l : list A) i :
  n <= length l ->
  for_loop 0 n (fun m l => <[m := g m]> l) l !!! i
  = if i <? n then g i else l !!! i.
Proof.
  intros Hn. apply (for_loop_insert_lookup n (fun m _ => g m) l i Hn).
Qed.

(** A sum accumulated by a loop, from a start value. *)
Lemma for_loop_sum_ge n (g : nat -> Q) (s0 : Q) :
  (forall m, m < n -> (0 <= g m)%Q) ->
  (s0 <= for_loop 0 n (fun m s => (s + g m)%Q) s0)%Q.
Proof.
  intros Hg.
  apply (for_loop_inv (fun _ s => (s0 <= s)%Q)); [lia|apply Qle_refl|].
  intros i s Hi Hs. specialize (Hg i (proj2 Hi)). cbv beta. lra.
Qed.

(** ** The vantage-point tree *)

Section VpFacts.
Import VpTree VpSpec.
Variable distance : DataPoint -> DataPoint -> Q.
Variable items : list DataPoint.
Variable target : DataPoint.
Variable k : nat.
Hypothesis k_pos : 0 < k.
Hypothesis distance_nonneg : forall a, (0 <= distance a target)%Q.

Lemma elem_of_push h q y : y ∈ push h q <-> y = h \/ y ∈ q.
Proof.
  induction q as [|z q IH]; simpl.
  - rewrite list_elem_of_singleton, elem_of_nil. tauto.
  - destruct (Qle_bool (dist z) (dist h)).
    + rewrite elem_of_cons. tauto.
    + rewrite !elem_of_cons, IH. tauto.
Qed.

Lemma length_push h q : length (push h q) = S (length q).
Proof.
  induction q as [|z q IH]; simpl; [reflexivity|].
  destruct (Qle_bool (dist z) (dist h)); simpl; congruence.
Qed.

Lemma descending_push h q : descending q -> descending (push h q).
Proof.
  induction q as [|z q IH]; simpl; intros Hq.
  - split; [|exact I]. intros y Hy. inversion Hy.
  - destruct Hq as [Hz Hq].
    destruct (Qle_bool (dist z) (dist h)) eqn:E.
    + apply Qle_bool_iff in E. simpl. split; [|split; assumption].
      intros y Hy. apply elem_of_cons in Hy as [->|Hy]; [exact E|].
      apply Qle_trans with (dist z); [apply Hz, Hy | exact E].
    + apply Qle_bool_false in E. simpl. split; [|apply IH, Hq].
      intros y Hy. apply elem_of_push in Hy as [->|Hy].
      * apply Qlt_le_weak, E.
      * apply Hz, Hy.
Qed.

Lemma descending_pop q : descending q -> descending (pop q).
Proof. destruct q; simpl; tauto. Qed.

Local Abbreviation search_inv := (search_inv distance items target k).
Local Abbreviation visit := (visit distance items target k).

Lemma search_node_unfold idx th l r st :
  search_node distance items (MkNode idx th l r) target k st =
  let d := distance (items !!! idx) target in
  let st := visit idx st in
  if is_null l && is_null r then st
  else if Qlt_bool d th then
    let st := if Qle_bool (d - snd st) th
              then search_node distance items l target k st else st in
    if Qle_bool th (d + snd st)
    then search_node distance items r target k st else st
  else
    let st := if Qle_bool th (d + snd st)
              then search_node distance items r target k st else st in
    if Qle_bool (d - snd st) th
    then search_node distance items l target k st else st.
Proof. destruct st as [heap tau]. reflexivity. Qed.

Lemma inv_tau_nonneg root st : search_inv root st -> (0 <= snd st)%Q.
Proof.
  destruct st as [heap tau]. intros (Hd & He & Hle & Hlt & Heq). simpl.
  destruct (decide (length heap = k)) as [E|E].
  - rewrite (Heq E). destruct heap as [|h heap]; simpl in *; [lia|].
    unfold top_dist. simpl.
    destruct (He h) as [_ ->]; [left|]. apply distance_nonneg.
  - rewrite Hlt by lia. apply Qlt_le_weak, DBL_MAX_pos.
Qed.

Lemma visit_inv root idx st :
  idx ∈ nodes root -> search_inv root st -> search_inv root (visit idx st).
Proof.
  intros Hidx Hinv. pose proof (inv_tau_nonneg _ _ Hinv) as Htau.
  destruct st as [heap tau]. destruct Hinv as (Hd & He & Hle & Hlt & Heq).
  unfold visit. destruct (Qlt_bool _ tau) eqn:E;
    [|exact (conj Hd (conj He (conj Hle (conj Hlt Heq))))].
  unfold size. set (h := mkHeapItem idx (distance (items !!! idx) target)).
  set (heap' := if length heap =? k then pop heap else heap).
  assert (Hpop : descending heap').
  { subst heap'. destruct (length heap =? k); [apply descending_pop|]; assumption. }
  assert (Hlen : length heap' < k /\ (length heap <> k -> heap' = heap)
                 /\ (length heap = k -> S (length heap') = k)).
  { subst heap'. destruct (length heap =? k) eqn:E'.
    - apply Nat.eqb_eq in E'. destruct heap; simpl in *; lia.
    - apply Nat.eqb_neq in E'. split; [lia|split; [reflexivity|lia]]. }
  destruct Hlen as (Hlen & Hsame & Hfull).
  assert (Hel : forall y, y ∈ heap' -> y ∈ heap).
  { subst heap'. destruct (length heap =? k); [|tauto]. destruct heap; simpl; [tauto|].
    intros y Hy. right. exact Hy. }
  clearbody heap'.
  split; [|split; [|split; [|split]]].
  - apply descending_push, Hpop.
  - intros y Hy. apply elem_of_push in Hy as [->|Hy]; [split; [exact Hidx|reflexivity]|].
    apply He, Hel, Hy.
  - rewrite length_push. lia.
  - rewrite length_push. intros Hl. destruct (S (length heap') =? k) eqn:E'.
    + apply Nat.eqb_eq in E'. lia.
    + destruct (decide (length heap = k)) as [E''|E''].
      * specialize (Hfull E''). lia.
      * apply Hlt. rewrite (Hsame E'') in Hl. lia.
  - rewrite length_push. intros Hl.
    apply Nat.eqb_eq in Hl. rewrite Hl. reflexivity.
Qed.

Lemma descending_top_max q y :
  descending q -> y ∈ q -> (dist y <= top_dist q)%Q.
Proof.
  destruct q as [|h q]; simpl; intros Hq Hy; [inversion Hy|].
  destruct Hq as [Hh _]. unfold top_dist. simpl. apply elem_of_cons in Hy as [->|Hy].
  - apply Qle_refl.
  - apply Hh, Hy.
Qed.

Lemma visit_has_zero root idx st :
  search_inv root st -> has_zero st -> has_zero (visit idx st).
Proof.
  intros Hinv [z [Hz Hz0]]. destruct st as [heap tau]. simpl in Hz.
  destruct Hinv as (Hd & He & Hle & Hlt & Heq).
  unfold visit. destruct (Qlt_bool _ tau) eqn:E; [|exists z; split; assumption].
  apply Qlt_bool_iff in E. exists z. split; [|exact Hz0]. simpl.
  apply elem_of_push. right. unfold size.
  destruct (length heap =? k) eqn:E'; [|exact Hz].
  apply Nat.eqb_eq in E'. rewrite (Heq E') in E.
  destruct heap as [|h heap]; [inversion Hz|]. simpl.
  apply elem_of_cons in Hz as [->|Hz]; [|exact Hz].
  exfalso. unfold top_dist in E. simpl in E.
  pose proof (distance_nonneg (items !!! idx)) as Hnn. rewrite Hz0 in E.
  apply (Qlt_irrefl 0). eapply Qle_lt_trans; eassumption.
Qed.

Lemma visit_finds_zero root idx st :
  search_inv root st -> (distance (items !!! idx) target == 0)%Q ->
  has_zero (visit idx st).
Proof.
  intros Hinv H0. pose proof (inv_tau_nonneg _ _ Hinv) as Htau.
  destruct st as [heap tau]. simpl in Htau.
  destruct Hinv as (Hd & He & Hle & Hlt & Heq).
  unfold visit. destruct (Qlt_bool _ tau) eqn:E.
  - eexists. split; [simpl; apply elem_of_push; left; reflexivity|]. exact H0.
  - apply Qlt_bool_false in E. rewrite H0 in E.
    assert (Hk : length heap = k).
    { destruct (decide (length heap = k)) as [Hk|Hk]; [exact Hk|].
      rewrite Hlt in E by lia. exfalso.
      apply (Qlt_irrefl 0). eapply Qlt_le_trans; [apply DBL_MAX_pos | exact E]. }
    rewrite (Heq Hk) in E, Htau.
    destruct heap as [|h heap]; [simpl in Hk; lia|].
    exists h. split; [left|]. unfold top_dist in *. simpl in *.
    apply Qle_antisym; assumption.
Qed.

Lemma search_node_keeps root t :
  forall st, (forall i, i ∈ nodes t -> i ∈ nodes root) ->
    search_inv root st ->
    search_inv root (search_node distance items t target k st) /\
    (has_zero st -> has_zero (search_node distance items t target k st)).
Proof.
  induction t as [|idx th l IHl r IHr]; intros st Hsub Hinv; [tauto|].
  rewrite search_node_unfold. cbv zeta.
  assert (Hidx : idx ∈ nodes root) by (apply Hsub; left).
  assert (Hl : forall i, i ∈ nodes l -> i ∈ nodes root).
  { intros i Hi. apply Hsub. simpl. right. apply elem_of_app. left. exact Hi. }
  assert (Hr : forall i, i ∈ nodes r -> i ∈ nodes root).
  { intros i Hi. apply Hsub. simpl. right. apply elem_of_app. right. exact Hi. }
  pose proof (visit_inv root idx st Hidx Hinv) as Hv.
  pose proof (visit_has_zero root idx st Hinv) as Hvz.
  set (st1 := visit idx st) in *. clearbody st1.
  assert (Hstep : forall (c : bool) t' s,
            (forall s, search_inv root s ->
               search_inv root (search_node distance items t' target k s) /\
               (has_zero s -> has_zero (search_node distance items t' target k s))) ->
            search_inv root s ->
            search_inv root (if c then search_node distance items t' target k s else s) /\
            (has_zero s ->
             has_zero (if c then search_node distance items t' target k s else s))).
  { intros [] t' s IH Hs; [apply IH, Hs | tauto]. }
  destruct (is_null l && is_null r); [tauto|].
  destruct (Qlt_bool _ th).
  - destruct (Hstep (Qle_bool (distance (items !!! idx) target - st1.2) th) l st1
                (fun s => IHl s Hl) Hv) as [H1 H1z].
    match goal with |- context [if ?c then search_node _ _ r _ _ ?s else _] =>
      destruct (Hstep c r s (fun s' => IHr s' Hr) H1) as [H2 H2z] end.
    tauto.
  - destruct (Hstep (Qle_bool th (distance (items !!! idx) target + st1.2)) r st1
                (fun s => IHr s Hr) Hv) as [H1 H1z].
    match goal with |- context [if ?c then search_node _ _ l _ _ ?s else _] =>
      destruct (Hstep c l s (fun s' => IHl s' Hl) H1) as [H2 H2z] end.
    tauto.
Qed.

(** The target coincides with the point of index [p]. *)
Variable p : nat.
Hypothesis target_is_p :
  forall a, (distance a (items !!! p) == distance a target)%Q.
Hypothesis distance_p : (distance (items !!! p) target == 0)%Q.

Lemma search_node_finds root t :
  forall st, (forall i, i ∈ nodes t -> i ∈ nodes root) ->
    search_inv root st -> vp_ok distance items t -> p ∈ nodes t ->
    has_zero (search_node distance items t target k st).
Proof.
  induction t as [|idx th l IHl r IHr]; intros st Hsub Hinv Hok Hp;
    [inversion Hp|].
  rewrite search_node_unfold. cbv zeta.
  assert (Hidx : idx ∈ nodes root) by (apply Hsub; left).
  assert (Hl : forall i, i ∈ nodes l -> i ∈ nodes root).
  { intros i Hi. apply Hsub. simpl. right. apply elem_of_app. left. exact Hi. }
  assert (Hr : forall i, i ∈ nodes r -> i ∈ nodes root).
  { intros i Hi. apply Hsub. simpl. right. apply elem_of_app. right. exact Hi. }
  destruct Hok as (Hleft & Hright & Hokl & Hokr).
  pose proof (visit_inv root idx st Hidx Hinv) as Hv.
  pose proof (visit_has_zero root idx st Hinv) as Hvz.
  pose proof (visit_finds_zero root idx st Hinv) as Hvf.
  set (st1 := visit idx st) in *. clearbody st1.
  set (d := distance (items !!! idx) target) in *.
  simpl in Hp. apply elem_of_cons in Hp as [->|Hp].
  { (* the node itself *)
    specialize (Hvf distance_p).
    destruct (is_null l && is_null r); [exact Hvf|].
    destruct (Qlt_bool d th).
    - destruct (Qle_bool (d - st1.2) th).
      + destruct (search_node_keeps root l st1 Hl Hv) as [H1 H1z].
        destruct (Qle_bool th _); [|tauto].
        apply (search_node_keeps root r _ Hr H1); tauto.
      + destruct (Qle_bool th _); [|tauto].
        apply (search_node_keeps root r _ Hr Hv); tauto.
    - destruct (Qle_bool th (d + st1.2)).
      + destruct (search_node_keeps root r st1 Hr Hv) as [H1 H1z].
        destruct (Qle_bool _ th); [|tauto].
        apply (search_node_keeps root l _ Hl H1); tauto.
      + destruct (Qle_bool _ th); [|tauto].
        apply (search_node_keeps root l _ Hl Hv); tauto. }
  assert (Hnn : (is_null l && is_null r) = false).
  { destruct l, r; simpl in *; try reflexivity. inversion Hp. }
  rewrite Hnn. apply elem_of_app in Hp as [Hp|Hp].
  - (* [p] is in the left subtree: its distance to the node is at most [th] *)
    assert (Hd : (d <= th)%Q).
    { unfold d. rewrite <- target_is_p. apply Hleft, Hp. }
    destruct (Qlt_bool d th).
    + assert (E : Qle_bool (d - st1.2) th = true).
      { apply Qle_bool_iff. pose proof (inv_tau_nonneg _ _ Hv). lra. }
      rewrite E. pose proof (IHl st1 Hl Hv Hokl Hp) as Hz.
      destruct (search_node_keeps root l st1 Hl Hv) as [H1 _].
      destruct (Qle_bool th _); [|exact Hz].
      apply (search_node_keeps root r _ Hr H1); exact Hz.
    + set (st2 := if Qle_bool th (d + st1.2)
                  then search_node distance items r target k st1 else st1).
      assert (H2 : search_inv root st2).
      { subst st2. destruct (Qle_bool th _); [|exact Hv].
        apply (search_node_keeps root r st1 Hr Hv). }
      assert (E : Qle_bool (d - st2.2) th = true).
      { apply Qle_bool_iff. pose proof (inv_tau_nonneg _ _ H2). lra. }
      rewrite E. apply (IHl st2 Hl H2 Hokl Hp).
  - (* [p] is in the right subtree: its distance to the node is at least [th] *)
    assert (Hd : (th <= d)%Q).
    { unfold d. rewrite <- target_is_p. apply Hright, Hp. }
    assert (E0 : Qlt_bool d th = false) by (apply Qlt_bool_false, Hd).
    rewrite E0.
    assert (E : Qle_bool th (d + st1.2) = true).
    { apply Qle_bool_iff. pose proof (inv_tau_nonneg _ _ Hv). lra. }
    rewrite E. pose proof (IHr st1 Hr Hv Hokr Hp) as Hz.
    destruct (search_node_keeps root r st1 Hr Hv) as [H1 _].
    destruct (Qle_bool _ th); [|exact Hz].
    apply (search_node_keeps root l _ Hl H1); exact Hz.
Qed.
End VpFacts.

Import VpTree VpSpec.

Lemma rev_reverse {A} (l : list A) : rev l = reverse l.
Proof. unfold reverse. apply rev_alt. Qed.

Lemma map_fmap {A B} (f : A -> B) (l : list A) : map f l = f <$> l.
Proof. induction l as [|a l IH]; [reflexivity|]. simpl. rewrite IH. reflexivity. Qed.

Lemma reverse_fmap_lookup {A B} (f : A -> B) (l : list A) j a :
  l !! j = Some a -> reverse (f <$> l) !! (length l - S j) = Some (f a).
Proof.
  intros Hj. assert (j < length l) by (eapply lookup_lt_Some; eassumption).
  rewrite reverse_lookup by (rewrite length_fmap; lia).
  rewrite length_fmap.
  replace (length l - S (length l - S j)) with j by lia.
  rewrite list_lookup_fmap, Hj. reflexivity.
Qed.

Lemma drain_spec items heap :
  drain items heap = (map (fun h => items !!! hindex h) heap, map dist heap).
Proof.
  induction heap as [|h heap IH]; simpl; [reflexivity|]. rewrite IH. reflexivity.
Qed.

Lemma search_spec distance items root target k :
  let heap := fst (search_node distance items root target k ([], DBL_MAX)) in
  search distance items root target k =
  (reverse ((fun h => items !!! hindex h) <$> heap), reverse (dist <$> heap)).
Proof.
  unfold search. destruct (search_node _ _ _ _ _ _) as [heap tau].
  rewrite drain_spec, !rev_reverse, !map_fmap. reflexivity.
Qed.


Lemma StronglySorted_snoc (l : list Q) (a : Q) :
  StronglySorted Qle l -> Forall (fun y => (y <= a)%Q) l ->
  StronglySorted Qle (l ++ [a]).
Proof.
  induction l as [|b l IH]; simpl; intros Hs Hall.
  - constructor; constructor.
  - apply StronglySorted_inv in Hs as [Hs Hb].
    apply Forall_cons in Hall as [Hba Hall].
    constructor; [apply IH; assumption|].
    apply Forall_app. split; [exact Hb|]. constructor; [exact Hba|constructor].
Qed.

Lemma descending_sorted heap :
  descending heap -> StronglySorted Qle (reverse (dist <$> heap)).
Proof.
  induction heap as [|h heap IH]; simpl; intros Hd; [constructor|].
  destruct Hd as [Hh Hd]. rewrite reverse_cons.
  apply StronglySorted_snoc; [apply IH, Hd|].
  apply Forall_forall. intros y Hy.
  apply elem_of_reverse, list_elem_of_fmap in Hy as [z [-> Hz]].
  apply Hh, Hz.
Qed.

Lemma search_inv_init distance items target k root :
  0 < k -> search_inv distance items target k root ([], DBL_MAX).
Proof.
  intros Hk. unfold search_inv. simpl.
  split; [exact I|]. split; [intros h Hh; inversion Hh|].
  split; [lia|]. split; [reflexivity|lia].
Qed.

(** Squared Euclidean distance: never negative, and zero between two points
    with the same coordinates. *)
Lemma euclidean_nonneg a b : (0 <= euclidean_distance_squared a b)%Q.
Proof.
  unfold euclidean_distance_squared.
  apply (for_loop_inv (fun _ dd => (0 <= dd)%Q)); [lia|apply Qle_refl|].
  intros i dd _ Hdd. cbv beta zeta in *.
  generalize (x a i - x b i)%Q. intros t. nra.
Qed.

Lemma euclidean_same_coordinates a b :
  _x a = _x b -> (euclidean_distance_squared a b == 0)%Q.
Proof.
  intros Hx. unfold euclidean_distance_squared.
  apply (for_loop_inv (fun _ dd => (dd == 0)%Q)); [lia|reflexivity|].
  intros i dd _ Hdd. cbv beta zeta in *. unfold x. rewrite Hx, Hdd. ring.
Qed.

Lemma euclidean_target a b c :
  _x b = _x c -> euclidean_distance_squared a b = euclidean_distance_squared a c.
Proof.
  intros Hx. unfold euclidean_distance_squared, x. rewrite Hx. reflexivity.
Qed.

(** C4, as the code has it.  A search for [k >= 1] neighbours of a target
    whose coordinates are those of the indexed point [p] returns its
    distances in non-decreasing order, each the squared Euclidean distance of
    the result beside it, and one of the results is an indexed point at
    distance zero.  That point is [p] itself when no other indexed point is
    at distance zero; when there are such points it may be one of them. *)
Theorem search_sorted_and_finds_identical
  (items : list DataPoint) (root : Node) (target : DataPoint) (k p : nat) :
  0 < k ->
  vp_ok euclidean_distance_squared items root ->
  p ∈ nodes root ->
  _x target = _x (items !!! p) ->
  exists results distances,
    search euclidean_distance_squared items root target k = (results, distances) /\
    StronglySorted Qle distances /\
    Forall2 (fun r d => d = euclidean_distance_squared r target) results distances /\
    (exists i q d,
       q ∈ nodes root /\ results !! i = Some (items !!! q) /\
       distances !! i = Some d /\ (d == 0)%Q) /\
    ((forall q, q ∈ nodes root -> q <> p ->
        (0 < euclidean_distance_squared (items !!! q) target)%Q) ->
     exists i d,
       results !! i = Some (items !!! p) /\ distances !! i = Some d /\ (d == 0)%Q).
Proof.
  intros Hk Hok Hp Hx.
  pose proof (search_inv_init euclidean_distance_squared items target k root Hk) as H0.
  assert (Hnn : forall a, (0 <= euclidean_distance_squared a target)%Q)
    by (intros a; apply euclidean_nonneg).
  destruct (search_node_keeps euclidean_distance_squared items target k Hk Hnn
              root root _ (fun i Hi => Hi) H0) as [Hinv _].
  assert (Hz := search_node_finds euclidean_distance_squared items target k Hk Hnn p
              (fun a => eq_ind _ (fun y => (euclidean_distance_squared a (items !!! p) == y)%Q)
                               (Qeq_refl _) _ (euclidean_target a _ _ (eq_sym Hx)))
              (euclidean_same_coordinates _ _ (eq_sym Hx))
              root root _ (fun i Hi => Hi) H0 Hok Hp).
  rewrite search_spec. cbv zeta.
  destruct (search_node _ _ _ _ _ _) as [heap tau]. simpl in *.
  destruct Hinv as (Hd & He & _).
  destruct Hz as [h [Hh Hh0]]. simpl in Hh.
  pose proof Hh as Hh'. apply list_elem_of_lookup in Hh' as [j Hj].
  assert (Hjl : j < length heap) by (eapply lookup_lt_Some; eassumption).
  assert (R1 := reverse_fmap_lookup (fun h => items !!! hindex h) heap j h Hj).
  assert (R2 := reverse_fmap_lookup dist heap j h Hj).
  eexists _, _. split; [reflexivity|]. split; [apply descending_sorted, Hd|].
  split; [|split].
  - apply Forall2_reverse, Forall2_fmap, Forall_Forall2_diag, Forall_forall.
    intros h' Hh'. apply He, Hh'.
  - exists (length heap - S j), (hindex h), (dist h).
    split; [apply (He h), Hh|]. split; [exact R1|]. split; [exact R2|exact Hh0].
  - intros Honly. destruct (He h Hh) as [Hin Hdist].
    assert (E : hindex h = p).
    { destruct (decide (hindex h = p)) as [E|E]; [exact E|].
      specialize (Honly _ Hin E). rewrite <- Hdist in Honly. lra. }
    exists (length heap - S j), (dist h). rewrite <- E.
    split; [exact R1|]. split; [exact R2|exact Hh0].
Qed.

Import Examples.

Example line_tree_created :
  VpBuild.create euclidean_distance_squared rand_zero RAND_MAX nth_element_keep line_items
  = (line_items, line_tree).
Proof. reflexivity. Qed.

Lemma search_sorted_and_finds_identical_witness :
  exists results distances,
    search euclidean_distance_squared line_items line_tree (pt 7 0%Q) 2
      = (results, distances) /\
    StronglySorted Qle distances /\
    Forall2 (fun r d => d = euclidean_distance_squared r (pt 7 0%Q)) results distances /\
    (exists i q d,
       q ∈ nodes line_tree /\ results !! i = Some (line_items !!! q) /\
       distances !! i = Some d /\ (d == 0)%Q) /\
    ((forall q, q ∈ nodes line_tree -> q <> 0 ->
        (0 < euclidean_distance_squared (line_items !!! q) (pt 7 0%Q))%Q) ->
     exists i d,
       results !! i = Some (line_items !!! 0) /\ distances !! i = Some d /\ (d == 0)%Q).
Proof.
  apply (search_sorted_and_finds_identical line_items line_tree (pt 7 0%Q) 2 0).
  - lia.
  - simpl. repeat split; try (intros q Hq; repeat (apply elem_of_cons in Hq as [->|Hq]); [..|inversion Hq]); vm_compute; congruence.
  - left.
  - reflexivity.
Defined.

(** C4 as stated fails for duplicate points.  Three points with the one
    coordinate 5 and the indices 0, 1 and 2, in the tree [create] builds
    from them: the test [dist < tau] is strict, so once [k] points at
    distance zero are in the queue no further one enters.  A search for the
    nearest neighbour of the point of index 1 returns the point of index 0,
    and a search for the two nearest neighbours of the point of index 2
    returns the points of index 0 and 1: the queried point is not among the
    results. *)
Lemma search_returns_a_duplicate_of_the_target :
  let tree := VpBuild.create euclidean_distance_squared rand_zero RAND_MAX
                nth_element_keep same_points in
  fst tree = same_points /\
  vp_ok euclidean_distance_squared (fst tree) (snd tree) /\
  nodes (snd tree) = [0; 1; 2] /\
  search euclidean_distance_squared (fst tree) (snd tree) (same_points !!! 1) 1
  = ([pt 0 5%Q], [0%Q]) /\
  (same_points !!! 1 ∉ [pt 0 5%Q]) /\
  fst (search euclidean_distance_squared (fst tree) (snd tree) (same_points !!! 2) 2)
  ≡ₚ [pt 0 5%Q; pt 1 5%Q] /\
  (same_points !!! 2 ∉ [pt 0 5%Q; pt 1 5%Q]).
Proof.
  cbv zeta.
  assert (E : VpBuild.create euclidean_distance_squared rand_zero RAND_MAX
                nth_element_keep same_points
              = (same_points,
                 MkNode 0 0%Q Null (MkNode 1 0%Q Null (MkNode 2 0%Q Null Null))))
    by (vm_compute; reflexivity).
  rewrite E. cbn [fst snd].
  split; [reflexivity|]. split.
  - simpl. repeat split;
      try (intros q Hq; repeat (apply elem_of_cons in Hq as [->|Hq]); [..|inversion Hq]);
      vm_compute; congruence.
  - split; [reflexivity|]. split; [vm_compute; reflexivity|]. split.
    + intros H. repeat (apply elem_of_cons in H as [H|H]); [discriminate|inversion H].
    + split.
      * replace (fst (search _ _ _ _ _)) with [pt 0 5%Q; pt 1 5%Q]
          by (vm_compute; reflexivity).
        reflexivity.
      * intros H. repeat (apply elem_of_cons in H as [H|H]); [discriminate..|inversion H].
Qed.

Import VpTree VpSpec Examples.

Lemma search_node_length distance items target k t :
  forall st,
    length (fst (search_node distance items t target k st))
    <= length (fst st) + length (nodes t).
Proof.
  induction t as [|idx th l IHl r IHr]; intros st; [simpl; lia|].
  rewrite search_node_unfold. cbv zeta.
  assert (Hv : length (fst (visit distance items target k idx st)) <= S (length (fst st))).
  { destruct st as [heap tau]. unfold visit. destruct (Qlt_bool _ tau); simpl; [|lia].
    rewrite length_push. unfold size. destruct (length heap =? k); [|lia].
    destruct heap; simpl; lia. }
  set (st1 := visit distance items target k idx st) in *. clearbody st1.
  simpl nodes. rewrite length_cons, length_app.
  assert (Hstep : forall (c : bool) t' s n,
            (forall s, length (fst (search_node distance items t' target k s))
                       <= length (fst s) + length (nodes t')) ->
            length (fst s) <= n ->
            length (fst (if c then search_node distance items t' target k s else s))
            <= n + length (nodes t')).
  { intros [] t' s n IH Hs; cbv iota; [specialize (IH s)|]; lia. }
  destruct (is_null l && is_null r); [lia|].
  destruct (Qlt_bool _ th).
  - match goal with |- context [if ?c then search_node _ _ r _ _ ?s else _] =>
      pose proof (Hstep c r s (S (length st.1) + length (nodes l)) IHr) as H2 end.
    match type of H2 with context [if ?c then search_node _ _ l _ _ ?s else _] =>
      pose proof (Hstep c l s (S (length st.1)) IHl Hv) as H1 end.
    specialize (H2 H1). lia.
  - match goal with |- context [if ?c then search_node _ _ l _ _ ?s else _] =>
      pose proof (Hstep c l s (S (length st.1) + length (nodes r)) IHl) as H2 end.
    match type of H2 with context [if ?c then search_node _ _ r _ _ ?s else _] =>
      pose proof (Hstep c r s (S (length st.1)) IHr Hv) as H1 end.
    specialize (H2 H1). lia.
Qed.

(** With [k >= 1] the queue is not empty when it is popped, so the search
    with the checks is the search. *)
Lemma search_node_checked_spec distance items target k :
  0 < k -> forall t st,
    search_node_checked distance items t target k st
    = Some (search_node distance items t target k st).
Proof.
  intros Hk. induction t as [|idx th l IHl r IHr]; intros [heap tau]; [reflexivity|].
  cbn [search_node_checked search_node].
  assert (Hpop : (if size heap =? k then pop_checked heap else Some heap)
                 = Some (if size heap =? k then pop heap else heap)).
  { destruct (size heap =? k) eqn:E; [|reflexivity].
    destruct heap as [|h heap]; [|reflexivity].
    apply Nat.eqb_eq in E. simpl in E. lia. }
  rewrite Hpop. clear Hpop.
  set (st1 := if Qlt_bool _ tau then _ else (heap, tau)).
  replace (if Qlt_bool (distance (items !!! idx) target) tau
           then Some _ else Some (heap, tau)) with (Some st1)
    by (unfold st1; destruct (Qlt_bool _ tau); reflexivity).
  clearbody st1.
  destruct (is_null l && is_null r); [reflexivity|].
  destruct (Qlt_bool _ th).
  - replace (if Qle_bool (distance (items !!! idx) target - snd st1) th
             then search_node_checked distance items l target k st1 else Some st1)
      with (Some (if Qle_bool (distance (items !!! idx) target - snd st1) th
                  then search_node distance items l target k st1 else st1))
      by (destruct (Qle_bool _ th); [rewrite IHl|]; reflexivity).
    destruct (Qle_bool th _); [apply IHr|reflexivity].
  - replace (if Qle_bool th (distance (items !!! idx) target + snd st1)
             then search_node_checked distance items r target k st1 else Some st1)
      with (Some (if Qle_bool th (distance (items !!! idx) target + snd st1)
                  then search_node distance items r target k st1 else st1))
      by (destruct (Qle_bool th _); [rewrite IHr|]; reflexivity).
    destruct (Qle_bool _ th); [apply IHl|reflexivity].
Qed.

Lemma search_checked_spec distance items root target k :
  0 < k \/ root = Null ->
  search_checked distance items root target k
  = Some (search distance items root target k).
Proof.
  intros H. unfold search_checked, search. cbv zeta.
  assert (E : search_node_checked distance items root target k ([], DBL_MAX)
              = Some (search_node distance items root target k ([], DBL_MAX))).
  { destruct H as [Hk| ->]; [apply search_node_checked_spec, Hk|reflexivity]. }
  rewrite E. destruct (search_node _ _ _ _ _ _) as [heap tau].
  destruct (drain items heap). reflexivity.
Qed.

(** With [k = 0] the first point nearer than [DBL_MAX], the one of the root,
    finds [heap.size() == k] with an empty queue and pops it. *)
Lemma search_checked_zero distance items idx th l r target :
  Qlt_bool (distance (items !!! idx) target) DBL_MAX = true ->
  search_checked distance items (MkNode idx th l r) target 0 = None.
Proof.
  intros Hd. unfold search_checked. cbn [search_node_checked].
  rewrite Hd. reflexivity.
Qed.

(** C5, as the code has it.  [search] has no failure exit: for [k >= 1], and
    for an empty index whatever [k] is, it returns two lists of one length,
    which is at most the number of indexed points; on an empty index they
    are empty.  With [k] above the number of points the result is thus
    shorter than [k], and nothing tells the caller. *)
Theorem search_never_rejects
  (distance : DataPoint -> DataPoint -> Q) (items : list DataPoint)
  (root : Node) (target : DataPoint) (k : nat) :
  0 < k \/ root = Null ->
  exists results distances,
    search_outcome distance items root target k = Returned results distances /\
    search distance items root target k = (results, distances) /\
    length results = length distances /\
    length results <= length (nodes root) /\
    (root = Null -> results = [] /\ distances = []).
Proof.
  intros H. unfold search_outcome. rewrite (search_checked_spec _ _ _ _ _ H).
  rewrite search_spec. cbv zeta.
  pose proof (search_node_length distance items target k root ([], DBL_MAX)) as Hlen.
  eexists _, _. split; [reflexivity|]. split; [reflexivity|].
  rewrite !length_reverse, !length_fmap. split; [reflexivity|].
  split; [exact Hlen|]. intros ->. split; reflexivity.
Qed.

Lemma search_never_rejects_witness :
  exists results distances,
    search_outcome euclidean_distance_squared line_items line_tree (pt 7 0%Q) 5
    = Returned results distances /\
    search euclidean_distance_squared line_items line_tree (pt 7 0%Q) 5
    = (results, distances) /\
    length results = length distances /\
    length results <= length (nodes line_tree) /\
    (line_tree = Null -> results = [] /\ distances = []).
Proof.
  apply (search_never_rejects euclidean_distance_squared line_items line_tree (pt 7 0%Q) 5).
  left. lia.
Defined.

(** C5 as stated fails: a search of the empty index for three neighbours and
    a search of a three-point index for five neighbours both return, the
    first with no result and the second with three. *)
Lemma search_malformed_input_not_rejected :
  search_outcome euclidean_distance_squared [] Null (pt 0 0%Q) 3 = Returned [] [] /\
  exists distances,
    search_outcome euclidean_distance_squared line_items line_tree (pt 7 0%Q) 5
    = Returned line_items distances /\ length distances = 3.
Proof.
  split; [reflexivity|]. eexists. split; [vm_compute; reflexivity|reflexivity].
Qed.

(** ** Perplexity calibration *)

Section CalibrationFacts.
Import Perplexity.
Variable fexp : Q -> Q.
Variable flog : Q -> Q.
Variable K : nat.
Variable distances : list Q.
Variable perplexity : Q.

Local Abbreviation body := (search_body fexp flog K distances perplexity).
Local Abbreviation loop := (search_loop fexp flog K distances perplexity).















Lemma row_sum_ge cur :
  (forall m, m < K -> (0 <= cur !!! m)%Q) -> (FLT_MIN <= row_sum K cur)%Q.
Proof. intros H. apply (for_loop_sum_ge K (fun m => cur !!! m) FLT_MIN H). Qed.





End CalibrationFacts.

Import VpTree Examples.





Lemma exp_approx_nonneg x : (0 <= exp_approx x)%Q.
Proof.
  unfold exp_approx. cbv zeta. generalize (1 + x / 8)%Q. intros y.
  assert (H2 : (0 <= y * y)%Q) by nra.
  assert (H4 : (0 <= (y * y) * (y * y))%Q) by nra.
  nra.
Qed.

(** ** Perplexity calibration with the range of a [float] *)

Section FloatFacts.
Import Float FloatSpec.

Lemma half_least_pos : (0 < half_least)%Q.
Proof. reflexivity. Qed.

Lemma FLT_MAX_large : (1 < FLT_MAX)%Q.
Proof. reflexivity. Qed.

(** The [float] of a non-negative result that is not above [FLT_MAX] is a
    number, the result or zero. *)
Lemma to_float_nonneg q :
  (0 <= q)%Q -> (q <= FLT_MAX)%Q ->
  exists r, to_float q = Num r /\ (0 <= r <= q)%Q /\ ((half_least < q)%Q -> r = q).
Proof.
  intros H0 H1. unfold to_float.
  rewrite (proj2 (Qlt_bool_false FLT_MAX q)) by exact H1.
  pose proof FLT_MAX_large as HM.
  rewrite (proj2 (Qlt_bool_false q (- FLT_MAX))) by lra.
  destruct (Qle_bool (Qabs q) half_least) eqn:E.
  - exists 0%Q. split; [reflexivity|]. split; [lra|].
    intros Hq. apply Qle_bool_iff in E. rewrite Qabs_pos in E by exact H0. lra.
  - exists q. split; [reflexivity|]. split; [lra|reflexivity].
Qed.

(** The [float] of a result that is not negative is not a negative number. *)
Lemma to_float_not_negative q : (0 <= q)%Q -> not_negative (to_float q).
Proof.
  intros H0. unfold to_float. pose proof FLT_MAX_large as HM.
  destruct (Qlt_bool FLT_MAX q); [reflexivity|].
  rewrite (proj2 (Qlt_bool_false q (- FLT_MAX))) by lra.
  destruct (Qle_bool (Qabs q) half_least); simpl; lra.
Qed.

Lemma fadd_not_negative a b :
  not_negative a -> not_negative b -> not_negative (fadd a b).
Proof.
  destruct a as [x|s|], b as [y|t|]; simpl; intros Ha Hb;
    try exact I; try assumption.
  - apply to_float_not_negative. lra.
  - subst. reflexivity.
Qed.

Lemma half_not_negative a : not_negative a -> not_negative (fdiv a (Num 2%Q)).
Proof.
  destruct a as [x|s|]; simpl; intros Ha; [|subst; reflexivity|exact I].
  apply to_float_not_negative. apply Qle_shift_div_l; [reflexivity|]. lra.
Qed.

Lemma double_not_negative a : not_negative a -> not_negative (fmul a (Num 2%Q)).
Proof.
  destruct a as [x|s|]; simpl; intros Ha; [|subst; reflexivity|exact I].
  apply to_float_not_negative. lra.
Qed.

(** What is not a number stays so when it is doubled, halved or averaged. *)
Lemma double_number a : is_number (fmul a (Num 2%Q)) -> is_number a.
Proof. destruct a as [x|s|]; simpl; intros [q Hq]; [eexists; reflexivity|discriminate..]. Qed.

Lemma half_number a : is_number (fdiv a (Num 2%Q)) -> is_number a.
Proof. destruct a as [x|s|]; simpl; intros [q Hq]; [eexists; reflexivity|discriminate..]. Qed.

Lemma fadd_number a b : is_number (fadd a b) -> is_number a.
Proof.
  destruct a as [x|s|], b as [y|t|]; simpl; intros [q Hq];
    try (eexists; reflexivity); try discriminate.
  destruct (Bool.eqb s t); discriminate.
Qed.

End FloatFacts.

Section FloatCalibrationFacts.
Import Float FloatSpec FloatPerplexity.
Variable fexp : Q -> Q.
Variable flog : Q -> Q.
Variable K : nat.
Variable distances : list float.
Variable perplexity : float.

Local Abbreviation body := (search_body fexp flog K distances perplexity).
Local Abbreviation loop := (search_loop fexp flog K distances perplexity).

Lemma bisect_sane Hdiff b lo hi :
  not_negative b -> bound_ok lo -> bound_ok hi ->
  not_negative (fst (fst (bisect Hdiff b lo hi))) /\
  bound_ok (snd (fst (bisect Hdiff b lo hi))) /\
  bound_ok (snd (bisect Hdiff b lo hi)).
Proof.
  intros Hb Hlo Hhi. unfold bisect.
  assert (Hbb : bound_ok b) by (right; right; exact Hb).
  destruct (flt (Num 0%Q) Hdiff).
  - destruct (feq hi (Num FLT_MAX) || feq hi (Num (- FLT_MAX)%Q)) eqn:E; cbn [fst snd].
    + split; [apply double_not_negative, Hb|split; assumption].
    + apply orb_false_iff in E as [E1 E2].
      assert (H : not_negative hi) by (destruct Hhi as [H|[H|H]]; [congruence..|exact H]).
      split; [apply half_not_negative, fadd_not_negative; assumption|split; assumption].
  - destruct (feq lo (Num (- FLT_MAX)%Q) || feq lo (Num FLT_MAX)) eqn:E; cbn [fst snd].
    + split; [apply half_not_negative, Hb|split; assumption].
    + apply orb_false_iff in E as [E1 E2].
      assert (H : not_negative lo) by (destruct Hlo as [H|[H|H]]; [congruence..|exact H]).
      split; [apply half_not_negative, fadd_not_negative; assumption|split; assumption].
Qed.

Lemma bisect_number Hdiff b lo hi :
  is_number (fst (fst (bisect Hdiff b lo hi))) -> is_number b.
Proof.
  unfold bisect. destruct (flt (Num 0%Q) Hdiff).
  - destruct (_ || _); cbn [fst snd]; intros H.
    + apply double_number, H.
    + apply half_number, fadd_number in H. exact H.
  - destruct (_ || _); cbn [fst snd]; intros H.
    + apply half_number, H.
    + apply half_number, fadd_number in H. exact H.
Qed.

Lemma float_body_iter s : iter (body s) = S (iter s).
Proof.
  unfold search_body. destruct (_ && _); [reflexivity|].
  destruct (bisect _ _ _ _) as [[b lo] hi]. reflexivity.
Qed.

Lemma float_body_row s :
  cur_P (body s) = kernel_row fexp K distances (beta s) (cur_P s) /\
  sum_P (body s) = row_sum K (cur_P (body s)).
Proof.
  unfold search_body. destruct (_ && _); [split; reflexivity|].
  destruct (bisect _ _ _ _) as [[b lo] hi]. split; reflexivity.
Qed.

Lemma float_body_sane s : sane s -> sane (body s).
Proof.
  intros (Hb & Hlo & Hhi). unfold search_body. cbv zeta.
  destruct (_ && _); [split; [exact Hb|split; assumption]|].
  match goal with |- context [bisect ?h _ _ _] =>
    pose proof (bisect_sane h _ _ _ Hb Hlo Hhi) as H;
    destruct (bisect h (beta s) (min_beta s) (max_beta s)) as [[b lo] hi] end.
  exact H.
Qed.

Lemma float_body_number s : is_number (beta (body s)) -> is_number (beta s).
Proof.
  unfold search_body. cbv zeta. destruct (_ && _); [intros H; exact H|].
  match goal with |- context [bisect ?h _ _ _] =>
    pose proof (bisect_number h (beta s) (min_beta s) (max_beta s)) as H;
    destruct (bisect h (beta s) (min_beta s) (max_beta s)) as [[b lo] hi] end.
  exact H.
Qed.

Lemma float_kernel_row_length b cur :
  length (kernel_row fexp K distances b cur) = length cur.
Proof. apply (for_loop_insert_length K (fun m _ => exp_f fexp _)). Qed.

Lemma float_body_length s : length (cur_P (body s)) = length (cur_P s).
Proof. rewrite (proj1 (float_body_row s)). apply float_kernel_row_length. Qed.

(** Once the body has run, the final state is what the body left last, from
    a state the loop reached. *)
Lemma float_loop_last fuel s :
  sane s ->
  exists s', loop fuel (body s) = body s' /\ sane s' /\
             length (cur_P s') = length (cur_P s).
Proof.
  revert s. induction fuel as [|fuel IH]; intros s Hs; simpl.
  - exists s. split; [reflexivity|]. split; [exact Hs|reflexivity].
  - destruct (_ && _).
    + destruct (IH (body s) (float_body_sane s Hs)) as (s' & H1 & H2 & H3).
      exists s'. split; [exact H1|]. split; [exact H2|].
      rewrite H3. apply float_body_length.
    + exists s. split; [reflexivity|]. split; [exact Hs|reflexivity].
Qed.

Lemma float_loop_sane fuel s : sane s -> sane (loop fuel s).
Proof.
  revert s. induction fuel as [|fuel IH]; intros s Hs; simpl; [exact Hs|].
  destruct (_ && _); [apply IH, float_body_sane, Hs|exact Hs].
Qed.

Lemma float_init_sane : sane (search_init K).
Proof. split; [simpl; lra|]. split; [right; left|left]; reflexivity. Qed.

Lemma float_search_last :
  exists s', binary_search fexp flog K distances perplexity = body s' /\
             sane s' /\ length (cur_P s') = K.
Proof.
  unfold binary_search.
  change (search_loop fexp flog K distances perplexity 200 (search_init K))
    with (loop 199 (body (search_init K))).
  destruct (float_loop_last 199 (search_init K) float_init_sane) as (s' & H1 & H2 & H3).
  exists s'. split; [exact H1|]. split; [exact H2|].
  rewrite H3. apply length_replicate.
Qed.

Hypothesis unit_exp : forall x, (x <= 0)%Q -> (0 <= fexp x <= 1)%Q.
Hypothesis finite_distances : forall m, m < K -> distance_ok (distances !!! (m + 1)%nat).
Hypothesis int_K : (Z.of_nat K <= INT_MAX)%Z.

(** The Gaussian row of a [beta] that is a number and not negative: numbers
    between 0 and 1. *)
Lemma float_kernel_entry b d :
  (0 <= b)%Q -> distance_ok d ->
  exists c, exp_f fexp (fmul (fneg (Num b)) d) = Num c /\ (0 <= c <= 1)%Q.
Proof.
  intros Hb (q & -> & Hq). simpl.
  assert (Hx : (- b * q <= 0)%Q) by nra.
  pose proof FLT_MAX_large as HM. pose proof half_least_pos as HL.
  assert (Hexp : forall x, (x <= 0)%Q ->
            exists c, to_float (fexp x) = Num c /\ (0 <= c <= 1)%Q).
  { intros x Hx0. destruct (unit_exp x Hx0) as [E0 E1].
    destruct (to_float_nonneg (fexp x) E0 ltac:(lra)) as (r & Hr & Hr' & _).
    exists r. split; [exact Hr|lra]. }
  unfold to_float at 1.
  rewrite (proj2 (Qlt_bool_false FLT_MAX (- b * q))) by lra.
  destruct (Qlt_bool (- b * q) (- FLT_MAX)).
  - exists 0%Q. split; [reflexivity|lra].
  - destruct (Qle_bool _ half_least); cbn [exp_f]; apply Hexp; [lra|exact Hx].
Qed.

Lemma float_kernel_row_entry b cur m :
  (0 <= b)%Q -> K <= length cur -> m < K ->
  exists c, kernel_row fexp K distances (Num b) cur !!! m = Num c /\ (0 <= c <= 1)%Q.
Proof.
  intros Hb HK Hm. unfold kernel_row.
  rewrite (for_loop_set_lookup K
             (fun m => exp_f fexp (fmul (fneg (Num b)) (distances !!! (m + 1)%nat))))
    by exact HK.
  rewrite (proj2 (Nat.ltb_lt m K)) by exact Hm.
  apply float_kernel_entry; [exact Hb|apply finite_distances, Hm].
Qed.

(** The sum of such a row, taken from [FLT_MIN]: a number that is at least
    [FLT_MIN], at least every entry, and at most [FLT_MIN + K]. *)
Lemma float_row_sum cur :
  (forall m, m < K -> exists c, cur !!! m = Num c /\ (0 <= c <= 1)%Q) ->
  exists sum,
    row_sum K cur = Num sum /\ (FLT_MIN <= sum)%Q /\
    (sum <= FLT_MIN + inject_Z (Z.of_nat K))%Q /\
    forall m c, m < K -> cur !!! m = Num c -> (c <= sum)%Q.
Proof.
  intros Hcur. unfold row_sum.
  assert (HK : (inject_Z (Z.of_nat K) <= inject_Z INT_MAX)%Q)
    by (rewrite <- Zle_Qle; exact int_K).
  assert (HI : (FLT_MIN + inject_Z INT_MAX <= FLT_MAX)%Q) by (vm_compute; discriminate).
  assert (HL : (half_least < FLT_MIN)%Q) by reflexivity.
  pose proof FLT_MIN_pos as HF.
  revert HI HL HF. generalize FLT_MIN. intros F HI HL HF.
  enough (H : forall n, n <= K ->
            exists sum,
              for_loop 0 n (fun m s => fadd s (cur !!! m)) (Num F) = Num sum /\
              (F <= sum)%Q /\ (sum <= F + inject_Z (Z.of_nat n))%Q /\
              forall m c, m < n -> cur !!! m = Num c -> (c <= sum)%Q)
    by (apply (H K); lia).
  induction n as [|n IH]; intros Hn.
  - rewrite for_loop_ge by lia. exists F. split; [reflexivity|].
    split; [lra|]. split; [change (inject_Z (Z.of_nat 0)) with 0%Q; lra|]. intros m c Hm. lia.
  - rewrite for_loop_S by lia.
    destruct (IH ltac:(lia)) as (sum & -> & H1 & H2 & H3).
    destruct (Hcur n ltac:(lia)) as (c & Hc & Hc0 & Hc1). rewrite Hc. cbn [fadd].
    assert (Hn1 : (inject_Z (Z.of_nat (S n)) == inject_Z (Z.of_nat n) + 1)%Q).
    { rewrite Nat2Z.inj_succ. unfold Z.succ. rewrite inject_Z_plus. reflexivity. }
    assert (HnK : (inject_Z (Z.of_nat (S n)) <= inject_Z (Z.of_nat K))%Q)
      by (rewrite <- Zle_Qle; lia).
    destruct (to_float_nonneg (sum + c)%Q ltac:(lra) ltac:(lra))
      as (r & Hr & _ & Hkeep).
    rewrite Hkeep in Hr by lra.
    exists (sum + c)%Q. split; [exact Hr|]. split; [lra|]. split; [lra|].
    intros m c' Hm Hc'. destruct (decide (m = n)) as [->|Hne].
    + rewrite Hc in Hc'. injection Hc' as <-. lra.
    + specialize (H3 m c' ltac:(lia) Hc'). lra.
Qed.

Lemma float_normalize_row_lookup s m :
  K <= length (cur_P s) -> m < K ->
  normalize_row K s !!! m = fdiv (cur_P s !!! m) (sum_P s).
Proof.
  intros HK Hm. unfold normalize_row.
  rewrite (for_loop_insert_lookup K (fun _ c => fdiv c (sum_P s))) by exact HK.
  rewrite (proj2 (Nat.ltb_lt m K)) by exact Hm. reflexivity.
Qed.

(** The row and its sum when the search ends with a [beta] that is a
    number. *)
Lemma float_search_finite :
  is_number (beta (binary_search fexp flog K distances perplexity)) ->
  exists sum,
    sum_P (binary_search fexp flog K distances perplexity) = Num sum /\
    (FLT_MIN <= sum)%Q /\ (sum <= FLT_MIN + inject_Z (Z.of_nat K))%Q /\
    forall m, m < K ->
      exists w, calibrated_row fexp flog K distances perplexity !!! m = Num w /\
                (0 <= w <= 1)%Q.
Proof.
  intros Hnum. destruct float_search_last as (s' & Hs' & (Hnn & _) & Hlen).
  unfold calibrated_row. rewrite Hs' in *.
  apply float_body_number in Hnum as [b Hb]. rewrite Hb in Hnn. simpl in Hnn.
  destruct (float_body_row s') as (Hrow & Hsum). rewrite Hb in Hrow.
  assert (Hcur : forall m, m < K ->
            exists c, cur_P (body s') !!! m = Num c /\ (0 <= c <= 1)%Q).
  { intros m Hm. rewrite Hrow. apply float_kernel_row_entry; [exact Hnn|lia|exact Hm]. }
  destruct (float_row_sum _ Hcur) as (sum & Es & H1 & H2 & H3).
  exists sum. rewrite Hsum. split; [exact Es|]. split; [exact H1|]. split; [exact H2|].
  clear H2. intros m Hm. destruct (Hcur m Hm) as (c & Hc & Hc0 & Hc1).
  rewrite float_normalize_row_lookup by (rewrite ?float_body_length; lia).
  rewrite Hsum, Es, Hc. cbn [fdiv].
  pose proof FLT_MIN_pos as HF. revert H1 HF. generalize FLT_MIN. intros F H1 HF.
  assert (Hne : Qeq_bool sum 0 = false).
  { apply not_true_iff_false. intros E. apply Qeq_bool_iff in E. lra. }
  rewrite Hne.
  assert (Hq0 : (0 <= c / sum)%Q) by (apply Qle_shift_div_l; lra).
  assert (Hq1 : (c / sum <= 1)%Q).
  { apply Qle_shift_div_r; [lra|]. specialize (H3 m c Hm Hc). lra. }
  pose proof FLT_MAX_large as HM.
  destruct (to_float_nonneg (c / sum)%Q Hq0 ltac:(lra)) as (r & Hr & Hr' & _).
  exists r. split; [exact Hr|lra].
Qed.

End FloatCalibrationFacts.

Import Float FloatSpec.

(** C10, as the code has it, with the range of a [float].  When the binary
    search ends with a [beta] that is a number (it has not overflowed), for
    an [exp] between 0 and 1 on the numbers that are not positive, [K] an
    [int] and [K] neighbours at distances that are numbers and not negative:
    the divisor [sum_P] of the final normalization is a number between
    [FLT_MIN] and [FLT_MIN + K], so it is positive and never zero, also when
    every [exp(-beta d)] is zero; and every weight of the normalized row is
    a number between 0 and 1. *)
Theorem normalization_divisor_positive
  (fexp flog : Q -> Q) (K : nat) (distances : list float) (perplexity : float) :
  (forall x, (x <= 0)%Q -> (0 <= fexp x <= 1)%Q) ->
  (forall m, m < K -> distance_ok (distances !!! (m + 1)%nat)) ->
  (Z.of_nat K <= INT_MAX)%Z ->
  let s := FloatPerplexity.binary_search fexp flog K distances perplexity in
  is_number (FloatPerplexity.beta s) ->
  exists sum,
    FloatPerplexity.sum_P s = Num sum /\
    (FLT_MIN <= sum)%Q /\ (0 < sum)%Q /\ (sum <= FLT_MIN + inject_Z (Z.of_nat K))%Q /\
    forall m, m < K ->
      exists w,
        FloatPerplexity.calibrated_row fexp flog K distances perplexity !!! m = Num w /\
        (0 <= w <= 1)%Q.
Proof.
  intros Hexp Hd HK s Hnum.
  destruct (float_search_finite fexp flog K distances perplexity Hexp Hd HK Hnum)
    as (sum & H1 & H2 & H3 & H4).
  exists sum. split; [exact H1|]. split; [exact H2|].
  split; [apply (Qlt_le_trans _ FLT_MIN); [exact FLT_MIN_pos|exact H2]|].
  split; [exact H3|exact H4].
Qed.

Lemma exp_recip_unit x : (x <= 0)%Q -> (0 <= Stubs.exp_recip x <= 1)%Q.
Proof.
  intros Hx. unfold Stubs.exp_recip.
  assert (Hd : (1 <= 1 - x + x * x / 2)%Q).
  { assert (H : (0 <= x * x / 2)%Q) by (apply Qle_shift_div_l; [reflexivity|nra]). lra. }
  split.
  - apply Qle_shift_div_l; lra.
  - apply Qle_shift_div_r; lra.
Qed.

(** A point with one neighbour at squared distance 1 and perplexity 5: every
    turn halves [beta], which ends at zero, and the row is [1 / (1 +
    FLT_MIN)]. *)
Lemma normalization_divisor_positive_witness :
  let s := FloatPerplexity.binary_search Stubs.exp_recip log_approx 1
             [Num 0%Q; Num 1%Q] (Num 5%Q) in
  exists sum,
    FloatPerplexity.sum_P s = Num sum /\
    (FLT_MIN <= sum)%Q /\ (0 < sum)%Q /\ (sum <= FLT_MIN + inject_Z (Z.of_nat 1))%Q /\
    forall m, m < 1 ->
      exists w,
        FloatPerplexity.calibrated_row Stubs.exp_recip log_approx 1
          [Num 0%Q; Num 1%Q] (Num 5%Q) !!! m = Num w /\
        (0 <= w <= 1)%Q.
Proof.
  apply (normalization_divisor_positive Stubs.exp_recip log_approx 1
           [Num 0%Q; Num 1%Q] (Num 5%Q)).
  - exact exp_recip_unit.
  - intros m Hm. assert (m = 0) as -> by lia. exists 1%Q. split; [reflexivity|lra].
  - vm_compute. discriminate.
  - exists 0%Q. vm_compute. reflexivity.
Defined.

(** C10 as stated fails for a point with duplicates.  Four coincident
    points, three neighbours each and perplexity 1: the three neighbours of
    point 0 are at squared distance 0, the entropy of the row stays above
    that of the perplexity, every turn doubles [beta], which exceeds
    [FLT_MAX] after 128 turns and is infinite from then on; [-beta * 0] is
    NaN, and so are [sum_P] and the three weights of the row. *)
Lemma duplicate_neighbours_give_nan :
  let objs := Tsne.obj_X (replicate 4 0%Q) 4 1 in
  let tree := VpBuild.create euclidean_distance_squared rand_zero RAND_MAX
                nth_element_keep objs in
  let distances :=
    Num <$> snd (search euclidean_distance_squared (fst tree) (snd tree) (objs !!! 0) 4) in
  let s := FloatPerplexity.binary_search Stubs.exp_recip log_approx 3 distances
             (Num 1%Q) in
  distances = [Num 0%Q; Num 0%Q; Num 0%Q; Num 0%Q] /\
  FloatPerplexity.beta
    (FloatPerplexity.search_loop Stubs.exp_recip log_approx 3 distances (Num 1%Q) 127
       (FloatPerplexity.search_init 3))
  = Num (inject_Z (2 ^ 127)) /\
  FloatPerplexity.beta
    (FloatPerplexity.search_loop Stubs.exp_recip log_approx 3 distances (Num 1%Q) 128
       (FloatPerplexity.search_init 3))
  = Inf false /\
  FloatPerplexity.iter s = 200 /\ FloatPerplexity.found s = false /\
  FloatPerplexity.beta s = Inf false /\
  FloatPerplexity.sum_P s = NaN /\
  FloatPerplexity.calibrated_row Stubs.exp_recip log_approx 3 distances (Num 1%Q)
  = [NaN; NaN; NaN].
Proof. cbv zeta. repeat split; vm_compute; reflexivity. Qed.

Import Examples.

(** ** The batched calibration *)

(** The update a thread of [PerplexitySearchKernel] makes is the bisection
    step of the loop of [computeGaussianPerplexity]. *)
Lemma kernel_update_bisect (flog : Q -> Q)
  (neg_ent sum_P b lo hi perplexity_target epsilon : Q) :
  PerplexitySearch.kernel_update flog neg_ent sum_P b lo hi perplexity_target epsilon
  = let Hdiff := (neg_ent / sum_P + flog sum_P - flog perplexity_target)%Q in
    if Qlt_bool Hdiff epsilon && Qlt_bool (- Hdiff) epsilon
    then (true, (b, lo, hi))
    else (false, Perplexity.bisect Hdiff b lo hi).
Proof.
  unfold PerplexitySearch.kernel_update, Perplexity.bisect. cbv zeta.
  destruct (Qlt_bool _ epsilon && Qlt_bool _ epsilon); simpl; [reflexivity|].
  destruct (Qlt_bool 0 _); [destruct (_ || _)|destruct (_ || _)]; reflexivity.
Qed.

(** C2, at the [return].  [SearchPerplexity] hands [pij] back as it came in,
    whatever the distances: the kernels, whose update is the bisection step
    of the CPU loop, are never launched.  For one point with two neighbours
    at squared distance 0, the weight of the second neighbour stays the 0 it
    came in with, where the row [computeGaussianPerplexity] stores for that
    neighbour is not 0. *)
Theorem SearchPerplexity_returns_pij_unchanged :
  (forall pij squared_dist perplexity_target epsilon num_points num_near_neighbors,
     fst (PerplexitySearch.SearchPerplexity pij squared_dist perplexity_target
            epsilon num_points num_near_neighbors) = pij) /\
  (forall flog neg_ent sum_P b lo hi perplexity_target epsilon,
     snd (PerplexitySearch.kernel_update flog neg_ent sum_P b lo hi
            perplexity_target epsilon)
     = let Hdiff := (neg_ent / sum_P + flog sum_P - flog perplexity_target)%Q in
       if Qlt_bool Hdiff epsilon && Qlt_bool (- Hdiff) epsilon
       then (b, lo, hi) else Perplexity.bisect Hdiff b lo hi) /\
  fst (PerplexitySearch.SearchPerplexity [0; 0]%Q [0; 0]%Q 0.5%Q Perplexity.tol 1 2)
    !!! 1 = 0%Q /\
  ~ (Perplexity.calibrated_row exp_approx log_approx 1 [0; 0]%Q 0.5%Q !!! 0%nat == 0)%Q.
Proof.
  split; [reflexivity|]. split.
  - intros. rewrite kernel_update_bisect. cbv zeta.
    destruct (_ && _); reflexivity.
  - split; [reflexivity|]. vm_compute. discriminate.
Qed.

(** ** The optimizer *)

(** Two loops over the same range, whose bodies keep a relation. *)
Lemma for_loop_rel {S T : Type} (R : S -> T -> Prop) lo hi
  (b1 : nat -> S -> S) (b2 : nat -> T -> T) s t :
  R s t ->
  (forall i s t, lo <= i < hi -> R s t -> R (b1 i s) (b2 i t)) ->
  R (for_loop lo hi b1 s) (for_loop lo hi b2 t).
Proof.
  intros H0 Hstep. destruct (decide (lo <= hi)) as [Hle|Hgt].
  - induction hi as [|hi IH].
    + rewrite !for_loop_ge by lia. exact H0.
    + destruct (decide (lo = Datatypes.S hi)) as [->|Hne].
      * rewrite !for_loop_ge by lia. exact H0.
      * rewrite !for_loop_S by lia. apply Hstep; [lia|].
        apply IH; [|lia]. intros i s' t' Hi. apply Hstep. lia.
  - rewrite !for_loop_ge by lia. exact H0.
Qed.

Section OptimizerFacts.
Import Tsne OptimSpec.
Variable flog : Q -> Q.
Variable SplitTree : Type.
Variable new_SplitTree : list Q -> nat -> nat -> SplitTree.
Variable computeNonEdgeForces :
  SplitTree -> nat -> Q -> list Q -> nat -> Q -> list Q * Q.
Variable sign : Q -> Q.

Local Abbreviation gradient := (computeGradient flog SplitTree new_SplitTree computeNonEdgeForces).
Local Abbreviation step := (iteration flog SplitTree new_SplitTree computeNonEdgeForces sign).

Lemma edge_body_forces P Y0 no_dims e1 e2 n i st1 st2 :
  forces st1 = forces st2 ->
  forces (edge_body flog P Y0 no_dims e1 n i st1)
  = forces (edge_body flog P Y0 no_dims e2 n i st2).
Proof.
  unfold forces. intros H. injection H as Hp Hn HQ.
  unfold edge_body. destruct e1, e2; simpl; rewrite Hp, Hn, HQ; reflexivity.
Qed.

Lemma gradient_body_forces P Y0 no_dims theta e1 e2 tree n st1 st2 :
  forces st1 = forces st2 ->
  forces (gradient_body flog SplitTree computeNonEdgeForces P Y0 no_dims theta e1 tree n st1)
  = forces (gradient_body flog SplitTree computeNonEdgeForces P Y0 no_dims theta e2 tree n st2).
Proof.
  intros H. unfold gradient_body.
  assert (Hl : forces (for_loop (row_P P !!! n) (row_P P !!! (n + 1))
                         (edge_body flog P Y0 no_dims e1 n) st1)
               = forces (for_loop (row_P P !!! n) (row_P P !!! (n + 1))
                           (edge_body flog P Y0 no_dims e2 n) st2)).
  { apply (for_loop_rel (fun a b => forces a = forces b)); [exact H|].
    intros i a b _ Hab. apply edge_body_forces, Hab. }
  unfold forces in Hl. injection Hl as Hp Hn HQ. rewrite Hn.
  destruct (computeNonEdgeForces _ _ _ _ _ _) as [nf this_Q].
  unfold forces. simpl. rewrite Hp, HQ. reflexivity.
Qed.

(** The gradient does not depend on [eval_error]. *)
Lemma computeGradient_eval_error P Y0 N no_dims dC theta :
  snd (gradient P Y0 N no_dims dC theta true)
  = snd (gradient P Y0 N no_dims dC theta false).
Proof.
  unfold computeGradient. cbv zeta. simpl snd.
  set (init := mkGrad _ _ _ _ _).
  assert (Hl : forces (for_loop 0 N
                 (gradient_body flog SplitTree computeNonEdgeForces P Y0 no_dims theta true
                    (new_SplitTree Y0 N no_dims)) init)
             = forces (for_loop 0 N
                 (gradient_body flog SplitTree computeNonEdgeForces P Y0 no_dims theta false
                    (new_SplitTree Y0 N no_dims)) init)).
  { apply (for_loop_rel (fun a b => forces a = forces b)); [reflexivity|].
    intros i a b _ Hab. apply gradient_body_forces, Hab. }
  unfold forces in Hl. injection Hl as Hp Hn HQ. rewrite Hp, Hn, HQ. reflexivity.
Qed.

Lemma update_body_trajectory eta i s t :
  trajectory s = trajectory t ->
  trajectory (update_body sign eta i s) = trajectory (update_body sign eta i t).
Proof.
  unfold trajectory. intros H. injection H as H1 H2 H3 H4 H5 H6.
  unfold update_body. simpl. rewrite H1, H2, H3, H4, H5, H6. reflexivity.
Qed.

Lemma iteration_trajectory row col N no_dims theta eta max_iter sl ms e v1 v2 it s t :
  trajectory s = trajectory t ->
  trajectory (step row col N no_dims theta eta max_iter sl ms e v1 it s)
  = trajectory (step row col N no_dims theta eta max_iter sl ms e v2 it t).
Proof.
  intros H. unfold trajectory in H. injection H as H1 H2 H3 H4 H5 H6.
  unfold iteration.
  assert (Hg : snd (gradient (mkCsr row col (val s)) (Y s) N no_dims (dY s) theta
                      (need_eval_error v1 max_iter it))
             = snd (gradient (mkCsr row col (val t)) (Y t) N no_dims (dY t) theta
                      (need_eval_error v2 max_iter it))).
  { rewrite H1, H2, H5.
    destruct (need_eval_error v1 max_iter it), (need_eval_error v2 max_iter it);
      try reflexivity; [|symmetry]; apply computeGradient_eval_error. }
  destruct (gradient (mkCsr row col (val s)) _ _ _ _ _ _) as [err1 dC1].
  destruct (gradient (mkCsr row col (val t)) _ _ _ _ _ _) as [err2 dC2].
  simpl in Hg. subst dC2.
  assert (Hu : trajectory (for_loop 0 (N * no_dims) (update_body sign eta)
                 (mkRun (Y s) dC1 (uY s) (gains s) (val s) (momentum s) (log s)))
             = trajectory (for_loop 0 (N * no_dims) (update_body sign eta)
                 (mkRun (Y t) dC1 (uY t) (gains t) (val t) (momentum t) (log t)))).
  { apply (for_loop_rel (fun a b => trajectory a = trajectory b)).
    - unfold trajectory. simpl. rewrite H1, H3, H4, H5, H6. reflexivity.
    - intros i a b _ Hab. apply update_body_trajectory, Hab. }
  unfold trajectory in Hu. injection Hu as U1 U2 U3 U4 U5 U6.
  set (a := for_loop 0 (N * no_dims) (update_body sign eta) _) in *.
  set (b := for_loop 0 (N * no_dims) (update_body sign eta) _) in *.
  clearbody a b.
  destruct (Z.of_nat it =? sl)%Z, (Z.of_nat it =? ms)%Z,
    (need_eval_error v1 max_iter it), (need_eval_error v2 max_iter it);
    unfold trajectory; simpl; rewrite U1, U2, U3, U4, U5, ?U6; reflexivity.
Qed.
End OptimizerFacts.

Section UpdateFacts.
Import Tsne.
Variable sign : Q -> Q.

Local Abbreviation new_gain := (OptimSpec.new_gain sign).

Lemma update_loop_spec eta n s :
  n <= length (Y s) -> n <= length (uY s) -> n <= length (gains s) ->
  let s' := for_loop 0 n (update_body sign eta) s in
  (dY s' = dY s /\ val s' = val s /\ momentum s' = momentum s /\ log s' = log s) /\
  (length (Y s') = length (Y s) /\ length (uY s') = length (uY s) /\
   length (gains s') = length (gains s)) /\
  forall i,
    gains s' !!! i
    = (if i <? n then new_gain (gains s !!! i) (dY s !!! i) (uY s !!! i)
       else gains s !!! i) /\
    uY s' !!! i
    = (if i <? n
       then (momentum s * uY s !!! i
             - eta * new_gain (gains s !!! i) (dY s !!! i) (uY s !!! i) * dY s !!! i)%Q
       else uY s !!! i) /\
    Y s' !!! i
    = (if i <? n
       then (Y s !!! i
             + (momentum s * uY s !!! i
                - eta * new_gain (gains s !!! i) (dY s !!! i) (uY s !!! i) * dY s !!! i))%Q
       else Y s !!! i).
Proof.
  intros HY HU HG. cbv zeta. induction n as [|n IH].
  - rewrite for_loop_ge by lia. repeat split.
  - rewrite for_loop_S by lia.
    destruct IH as ((E1 & E2 & E3 & E4) & (L1 & L2 & L3) & IH); [lia..|].
    set (s1 := for_loop 0 n (update_body sign eta) s) in *. clearbody s1.
    unfold update_body. simpl.
    split; [repeat split; assumption|].
    split; [rewrite !length_insert; repeat split; assumption|].
    intros i. destruct (IH i) as (G & U & P). destruct (IH n) as (Gn & Un & Pn).
    rewrite (proj2 (Nat.ltb_ge n n)) in Gn, Un, Pn by lia.
    destruct (decide (i = n)) as [->|Hne].
    + rewrite !list_lookup_total_insert_eq by lia.
      rewrite (proj2 (Nat.ltb_lt n (S n))) by lia.
      rewrite Gn, Un, Pn, E1, E3. unfold new_gain. repeat split.
    + rewrite !list_lookup_total_insert_ne by congruence.
      rewrite G, U, P.
      destruct (i <? n) eqn:A1, (i <? S n) eqn:A2; try (repeat split; fail).
      * apply Nat.ltb_lt in A1. apply Nat.ltb_ge in A2. lia.
      * apply Nat.ltb_ge in A1. apply Nat.ltb_lt in A2. lia.
Qed.

(** C6, as the code has it.  In the loop over the coordinates of an
    iteration, for every coordinate [i]: the gain grows by 0.2 when the sign
    of the gradient differs from the sign of the velocity, and otherwise is
    multiplied by 0.8 and increased by 0.01; the velocity becomes
    [momentum * velocity - eta * gain * gradient] with the new gain; the
    position is increased by the new velocity. *)
Theorem update_rule (eta : Q) (N no_dims : nat) (s : run_state) (i : nat) :
  N * no_dims <= length (Y s) -> N * no_dims <= length (uY s) ->
  N * no_dims <= length (gains s) -> i < N * no_dims ->
  let s' := for_loop 0 (N * no_dims) (update_body sign eta) s in
  gains s' !!! i
  = (if negb (Qeq_bool (sign (dY s !!! i)) (sign (uY s !!! i)))
     then (gains s !!! i + 0.2)%Q else (gains s !!! i * 0.8 + 0.01)%Q) /\
  uY s' !!! i = (momentum s * uY s !!! i - eta * gains s' !!! i * dY s !!! i)%Q /\
  Y s' !!! i = (Y s !!! i + uY s' !!! i)%Q.
Proof.
  intros HY HU HG Hi. cbv zeta.
  destruct (update_loop_spec eta (N * no_dims) s HY HU HG) as (_ & _ & H).
  cbv zeta in H. destruct (H i) as (G & U & P).
  rewrite (proj2 (Nat.ltb_lt i (N * no_dims))) in G, U, P by exact Hi.
  rewrite G, U, P. unfold new_gain. repeat split.
Qed.
End UpdateFacts.

Import Examples.

Lemma update_rule_witness :
  let s := one_coordinate in
  let s' := for_loop 0 (1 * 1) (Tsne.update_body Tsne.sign_model 200%Q) s in
  Tsne.gains s' !!! 0%nat
  = (if negb (Qeq_bool (Tsne.sign_model (Tsne.dY s !!! 0%nat)) (Tsne.sign_model (Tsne.uY s !!! 0%nat)))
     then (Tsne.gains s !!! 0%nat + 0.2)%Q else (Tsne.gains s !!! 0%nat * 0.8 + 0.01)%Q) /\
  Tsne.uY s' !!! 0%nat
  = (Tsne.momentum s * Tsne.uY s !!! 0%nat - 200 * Tsne.gains s' !!! 0%nat * Tsne.dY s !!! 0%nat)%Q /\
  Tsne.Y s' !!! 0%nat = (Tsne.Y s !!! 0%nat + Tsne.uY s' !!! 0%nat)%Q.
Proof.
  apply (update_rule Tsne.sign_model 200%Q 1 1 one_coordinate 0); simpl; lia.
Defined.

(** C6 as stated fails: with gain 1 and a gradient and a velocity of the
    same sign, the new gain is [1 * 0.8 + 0.01 = 0.81], which is not
    [max (1 * 0.8) 0.01 = 0.8]. *)
Lemma gain_decay_is_not_a_floor :
  let s' := for_loop 0 (1 * 1) (Tsne.update_body Tsne.sign_model 200%Q) one_coordinate in
  (Tsne.gains s' !!! 0%nat == 0.81)%Q /\
  ~ (Tsne.gains s' !!! 0%nat == Qmax (Tsne.gains one_coordinate !!! 0%nat * 0.8) 0.01)%Q.
Proof.
  split; [reflexivity|]. vm_compute. discriminate.
Qed.

Import Tsne OptimSpec Examples.

Section ScheduleFacts.
Variable flog : Q -> Q.
Variable SplitTree : Type.
Variable new_SplitTree : list Q -> nat -> nat -> SplitTree.
Variable computeNonEdgeForces :
  SplitTree -> nat -> Q -> list Q -> nat -> Q -> list Q * Q.
Variable sign : Q -> Q.
Variable randn : nat -> Q.

Local Abbreviation step := (iteration flog SplitTree new_SplitTree computeNonEdgeForces sign).
Local Abbreviation loop :=
  (training_loop flog SplitTree new_SplitTree computeNonEdgeForces sign randn).

Lemma update_loop_val eta n s :
  val (for_loop 0 n (update_body sign eta) s) = val s.
Proof.
  apply (for_loop_inv (fun _ s' => val s' = val s)); [lia|reflexivity|].
  intros i s' _ H. exact H.
Qed.

(** An iteration changes the P-values only when it is the switch iteration. *)
Lemma iteration_val row col N no_dims theta eta max_iter sl ms e v it s :
  val (step row col N no_dims theta eta max_iter sl ms e v it s)
  = if (Z.of_nat it =? sl)%Z then stop_lying_values row N e (val s) else val s.
Proof.
  unfold iteration. destruct (computeGradient _ _ _ _ _ _ _ _ _ _ _) as [err dC].
  pose proof (update_loop_val eta (N * no_dims)
                (mkRun (Y s) dC (uY s) (gains s) (val s) (momentum s) (log s))) as Hu.
  simpl in Hu.
  set (a := for_loop 0 (N * no_dims) (update_body sign eta) _) in *. clearbody a.
  destruct (Z.of_nat it =? sl)%Z, (Z.of_nat it =? ms)%Z, (need_eval_error v max_iter it);
    simpl; rewrite Hu; reflexivity.
Qed.

(** The P-values at the start of iteration [t]: the exaggerated ones, divided
    back once if the switch iteration was among the iterations before [t]. *)
Lemma training_loop_val P N no_dims Y0 theta max_iter n_iter init_from_Y verbose e eta log0 t :
  val (loop P N no_dims Y0 theta max_iter n_iter init_from_Y verbose e eta log0 t)
  = if (0 <=? stop_lying n_iter init_from_Y)%Z
       && (stop_lying n_iter init_from_Y <? Z.of_nat t)%Z
    then stop_lying_values (row_P P) N e (exaggerate P N e)
    else exaggerate P N e.
Proof.
  unfold training_loop. cbv zeta.
  generalize (stop_lying n_iter init_from_Y). intros z. induction t as [|t IH].
  - rewrite for_loop_ge by lia. simpl.
    destruct (Z.leb_spec 0 z), (Z.ltb_spec z (Z.of_nat 0)); simpl; try reflexivity; lia.
  - rewrite for_loop_S by lia. rewrite iteration_val, IH.
    destruct (Z.eqb_spec (Z.of_nat t) z), (Z.leb_spec 0 z),
      (Z.ltb_spec z (Z.of_nat t)), (Z.ltb_spec z (Z.of_nat (S t)));
      simpl; try reflexivity; lia.
Qed.

(** C7, at [init_from_Y].  The gradient of iteration 0 is computed from the
    exaggerated P-values, also when the starting embedding is supplied: they
    are divided back at the end of iteration 0, so it is from iteration 1 on
    that the values are the unexaggerated ones. *)
Theorem init_from_Y_first_iteration_exaggerated
  (P : csr) (N no_dims : nat) (Y0 : list Q) (theta : Q) (max_iter : nat)
  (n_iter_early_exag : Z) (verbose : bool) (early_exaggeration learning_rate : Q)
  (log0 : list string) (t : nat) :
  val (loop P N no_dims Y0 theta max_iter n_iter_early_exag true verbose
            early_exaggeration learning_rate log0 t)
  = if t =? 0 then exaggerate P N early_exaggeration
    else stop_lying_values (row_P P) N early_exaggeration
           (exaggerate P N early_exaggeration).
Proof.
  rewrite training_loop_val. simpl stop_lying. destruct t as [|t]; [reflexivity|].
  destruct (Z.leb_spec 0 0), (Z.ltb_spec 0 (Z.of_nat (S t))); simpl; try reflexivity; lia.
Qed.

(** The schedule of every run: the P-values at the start of iteration [t]
    are the exaggerated ones up to the switch iteration, it included, and
    the ones divided back, once, after it; a run that ends before the switch
    iteration never divides them back. *)
Theorem exaggeration_schedule
  (P : csr) (N no_dims : nat) (Y0 : list Q) (theta : Q) (max_iter : nat)
  (n_iter_early_exag : Z) (init_from_Y verbose : bool)
  (early_exaggeration learning_rate : Q) (log0 : list string) (t : nat) :
  val (loop P N no_dims Y0 theta max_iter n_iter_early_exag init_from_Y verbose
            early_exaggeration learning_rate log0 t)
  = if (0 <=? stop_lying n_iter_early_exag init_from_Y)%Z
       && (stop_lying n_iter_early_exag init_from_Y <? Z.of_nat t)%Z
    then stop_lying_values (row_P P) N early_exaggeration
           (exaggerate P N early_exaggeration)
    else exaggerate P N early_exaggeration.
Proof. apply training_loop_val. Qed.

(** C9.  The gradient [dC] is the same with the error evaluation on and off,
    and so are the embedding, the velocities, the gains, the P-values and
    the momentum after any number of iterations of a run with messages and
    of the same run without. *)
Theorem error_evaluation_keeps_trajectory
  (P : csr) (N no_dims : nat) (Y0 dC : list Q) (theta : Q) (max_iter : nat)
  (n_iter_early_exag : Z) (init_from_Y : bool)
  (early_exaggeration learning_rate : Q) (log1 log2 : list string) (t : nat) :
  snd (computeGradient flog SplitTree new_SplitTree computeNonEdgeForces
         P Y0 N no_dims dC theta true)
  = snd (computeGradient flog SplitTree new_SplitTree computeNonEdgeForces
           P Y0 N no_dims dC theta false) /\
  trajectory (loop P N no_dims Y0 theta max_iter n_iter_early_exag init_from_Y true
                   early_exaggeration learning_rate log1 t)
  = trajectory (loop P N no_dims Y0 theta max_iter n_iter_early_exag init_from_Y false
                     early_exaggeration learning_rate log2 t).
Proof.
  split; [apply computeGradient_eval_error|].
  unfold training_loop. cbv zeta.
  apply (for_loop_rel (fun a b => trajectory a = trajectory b)); [reflexivity|].
  intros i a b _ Hab. apply iteration_trajectory, Hab.
Qed.
End ScheduleFacts.

Import Tsne SymSpec.

(** ** Affinity symmetrization *)

(** *** The two passes as one loop over the entries *)

Lemma for_loop_fold {S : Type} lo hi (body : nat -> S -> S) s :
  for_loop lo hi body s = fold_left (fun s i => body i s) (seq lo (hi - lo)) s.
Proof. reflexivity. Qed.

Lemma fold_left_fmap {S A B : Type} (f : S -> B -> S) (g : A -> B) l s :
  fold_left f (g <$> l) s = fold_left (fun s a => f s (g a)) l s.
Proof. revert s. induction l as [|a l IH]; intros s; simpl; [reflexivity|apply IH]. Qed.

Lemma fold_left_bind {S A B : Type} (f : S -> B -> S) (g : A -> list B) l s :
  fold_left f (l ≫= g) s = fold_left (fun s a => fold_left f (g a) s) l s.
Proof.
  revert s. induction l as [|a l IH]; intros s; simpl; [reflexivity|].
  rewrite fold_left_app. apply IH.
Qed.

Lemma fold_left_ext_eq {S A : Type} (f g : S -> A -> S) l s :
  (forall s a, f s a = g s a) -> fold_left f l s = fold_left g l s.
Proof.
  intros H. revert s. induction l as [|a l IH]; intros s; simpl; [reflexivity|].
  rewrite H. apply IH.
Qed.

Lemma nested_loop {S : Type} (P : csr) (N : nat) (body : nat -> nat -> S -> S) s :
  for_loop 0 N
    (fun n s => for_loop (row_P P !!! n) (row_P P !!! (n + 1)) (body n) s) s
  = fold_left (fun s e => body (fst e) (snd e) s) (entries P N) s.
Proof.
  unfold entries. rewrite fold_left_bind. unfold for_loop at 1.
  rewrite Nat.sub_0_r. apply fold_left_ext_eq. intros s' n.
  rewrite fold_left_fmap. reflexivity.
Qed.

Lemma elem_of_row_entries P n i : i ∈ row_entries P n <-> in_row P n i.
Proof. unfold row_entries, in_row. rewrite elem_of_seq. lia. Qed.

Lemma elem_of_entries P N n i :
  (n, i) ∈ entries P N <-> n < N /\ in_row P n i.
Proof.
  unfold entries. rewrite list_elem_of_bind. split.
  - intros (m & Hi & Hm). apply list_elem_of_fmap in Hi as (i' & Heq & Hi').
    injection Heq as -> ->. apply elem_of_seq in Hm.
    apply elem_of_row_entries in Hi'. split; [lia|exact Hi'].
  - intros [Hn Hi]. exists n. split.
    + apply list_elem_of_fmap. exists i. split; [reflexivity|].
      apply elem_of_row_entries, Hi.
    + apply elem_of_seq. lia.
Qed.

(** *** The scan for the reciprocal entry *)

Lemma present_spec P r n :
  present P r n = true <-> exists m, in_row P r m /\ col_P P !!! m = n.
Proof.
  unfold present. rewrite for_loop_fold. fold (row_entries P r).
  setoid_rewrite <- elem_of_row_entries.
  generalize (row_entries P r). intros l.
  assert (H : forall b, fold_left (fun (s : bool) i => s || (col_P P !!! i =? n)) l b = true
                        <-> b = true \/ exists m, m ∈ l /\ col_P P !!! m = n).
  { induction l as [|a l IH]; intros b; simpl.
    - split; [tauto|]. intros [H|(m & Hm & _)]; [exact H|inversion Hm].
    - rewrite IH, orb_true_iff, Nat.eqb_eq. split.
      + intros [[H|H]|(m & Hm & Hc)]; [tauto| |].
        * right. exists a. split; [left|exact H].
        * right. exists m. split; [right; exact Hm|exact Hc].
      + intros [H|(m & Hm & Hc)]; [tauto|].
        apply elem_of_cons in Hm as [->|Hm]; [tauto|].
        right. exists m. tauto. }
  rewrite H. split; [intros [H'|H']; [discriminate|exact H']|tauto].
Qed.

Lemma present_false P r n :
  present P r n = false <-> forall m, in_row P r m -> col_P P !!! m <> n.
Proof.
  rewrite <- not_true_iff_false, present_spec. split.
  - intros H m Hm Hc. apply H. exists m. tauto.
  - intros H (m & Hm & Hc). exact (H m Hm Hc).
Qed.

(** An entry of row [n] with column [n] is its own reciprocal. *)
Lemma present_self P n i : in_row P n i -> col_P P !!! i = n -> present P n n = true.
Proof. intros Hi Hc. apply present_spec. exists i. tauto. Qed.

Import Tsne SymSpec.

(** *** The first pass: the row counts *)

Lemma incr_length a i : length (incr a i) = length a.
Proof. apply length_insert. Qed.

Lemma incr_lookup a i r :
  i < length a -> incr a i !!! r = a !!! r + (if i =? r then 1 else 0).
Proof.
  intros Hi. unfold incr. destruct (Nat.eqb_spec i r) as [->|Hne].
  - rewrite list_lookup_total_insert_eq by exact Hi. reflexivity.
  - rewrite list_lookup_total_insert_ne by exact Hne. lia.
Qed.

Section Counts.
Variable P : csr.
Variable N : nat.
Hypothesis wf : csr_wf P N.

Local Abbreviation valid := (valid P N).

Lemma entries_valid e : e ∈ entries P N -> valid e.
Proof.
  destruct e as [n i]. intros He. apply elem_of_entries in He as [Hn Hi].
  split; [exact Hn|]. split; [exact Hi|]. eapply wf_cols; eassumption.
Qed.

Lemma count_body_spec e rc r :
  valid e -> length rc = N ->
  length (count_body P (fst e) (snd e) rc) = N /\
  count_body P (fst e) (snd e) rc !!! r = rc !!! r + count1 P r e.
Proof.
  intros (Hn & Hi & Hc) Hl. unfold count_body, count1, reciprocal.
  destruct (present P _ _); simpl.
  - rewrite incr_length, incr_lookup by lia. split; [exact Hl|lia].
  - rewrite !incr_length, !incr_lookup by (rewrite ?incr_length; lia).
    split; [exact Hl|]. lia.
Qed.

Lemma count_fold_spec es rc r :
  Forall valid es -> length rc = N ->
  length (fold_left (fun rc e => count_body P (fst e) (snd e) rc) es rc) = N /\
  fold_left (fun rc e => count_body P (fst e) (snd e) rc) es rc !!! r
  = rc !!! r + sum_list_with (count1 P r) es.
Proof.
  revert rc. induction es as [|e es IH]; intros rc Hv Hl; simpl.
  - split; [exact Hl|lia].
  - apply Forall_cons in Hv as [He Hv].
    destruct (count_body_spec e rc r He Hl) as [Hl' Hr'].
    destruct (IH _ Hv Hl') as [IH1 IH2]. split; [exact IH1|]. rewrite IH2, Hr'. lia.
Qed.

Lemma row_counts_spec r :
  length (row_counts P N) = N /\
  row_counts P N !!! r = sum_list_with (count1 P r) (entries P N).
Proof.
  unfold row_counts. rewrite nested_loop.
  destruct (count_fold_spec (entries P N) (replicate N 0) r) as [H1 H2].
  - apply Forall_forall. intros e. apply entries_valid.
  - apply length_replicate.
  - split; [exact H1|]. rewrite H2.
    destruct (decide (r < N)) as [Hr|Hr].
    + rewrite lookup_total_replicate_2 by exact Hr. reflexivity.
    + rewrite list_lookup_total_alt, lookup_ge_None_2; [reflexivity|].
      rewrite length_replicate. lia.
Qed.

(** *** The row offsets of the result *)

Lemma sym_row_P_spec :
  length (sym_row_P P N) = N + 1 /\
  sym_row_P P N !!! 0 = 0 /\
  forall n, n < N -> sym_row_P P N !!! (n + 1) = sym_row_P P N !!! n + row_counts P N !!! n.
Proof.
  unfold sym_row_P.
  apply (for_loop_inv (fun k sr =>
           length sr = N + 1 /\ sr !!! 0 = 0 /\
           forall n, n < k -> sr !!! (n + 1) = sr !!! n + row_counts P N !!! n)).
  - lia.
  - rewrite length_insert, length_replicate. split; [reflexivity|].
    split; [|intros n Hn; lia].
    apply list_lookup_total_insert_eq. rewrite length_replicate. lia.
  - intros k sr Hk (Hl & H0 & Hs). rewrite length_insert.
    split; [exact Hl|]. split.
    + rewrite list_lookup_total_insert_ne by lia. exact H0.
    + intros n Hn. destruct (decide (n = k)) as [->|Hne].
      * rewrite list_lookup_total_insert_eq by lia.
        rewrite list_lookup_total_insert_ne by lia. reflexivity.
      * rewrite !list_lookup_total_insert_ne by lia. apply Hs. lia.
Qed.

Lemma sym_row_P_mono r r' :
  r <= r' -> r' <= N -> sym_row_P P N !!! r <= sym_row_P P N !!! r'.
Proof.
  destruct sym_row_P_spec as (_ & _ & Hs).
  intros Hle HN. induction r' as [|r' IH]; [replace r with 0 by lia; lia|].
  destruct (decide (r = S r')) as [->|Hne]; [lia|].
  specialize (Hs r' ltac:(lia)). replace (r' + 1) with (S r') in Hs by lia.
  specialize (IH ltac:(lia) ltac:(lia)). lia.
Qed.

Lemma no_elem_spec : no_elem P N = sym_row_P P N !!! N.
Proof.
  destruct sym_row_P_spec as (_ & H0 & Hs). unfold no_elem.
  enough (H : forall k, k <= N ->
            for_loop 0 k (fun n s => s + row_counts P N !!! n) 0 = sym_row_P P N !!! k)
    by (apply H; lia).
  induction k as [|k IH]; intros Hk.
  - rewrite for_loop_ge by lia. symmetry. exact H0.
  - rewrite for_loop_S by lia. rewrite IH by lia.
    specialize (Hs k ltac:(lia)). replace (k + 1) with (S k) in Hs by lia. lia.
Qed.

(** Two slots of different rows are different positions. *)
Lemma slots_disjoint r r' a b :
  r < N -> r' < N -> r <> r' ->
  a < row_counts P N !!! r -> b < row_counts P N !!! r' ->
  sym_row_P P N !!! r + a <> sym_row_P P N !!! r' + b.
Proof.
  intros Hr Hr' Hne Ha Hb. destruct sym_row_P_spec as (_ & _ & Hs).
  pose proof (Hs r Hr) as H1. pose proof (Hs r' Hr') as H2.
  destruct (decide (r < r')) as [Hlt|Hgt].
  - pose proof (sym_row_P_mono (r + 1) r' ltac:(lia) ltac:(lia)). lia.
  - pose proof (sym_row_P_mono (r' + 1) r ltac:(lia) ltac:(lia)). lia.
Qed.

Lemma slot_in_range r a :
  r < N -> a < row_counts P N !!! r -> sym_row_P P N !!! r + a < no_elem P N.
Proof.
  intros Hr Ha. destruct sym_row_P_spec as (_ & _ & Hs).
  rewrite no_elem_spec. pose proof (Hs r Hr).
  pose proof (sym_row_P_mono (r + 1) N ltac:(lia) ltac:(lia)). lia.
Qed.

End Counts.

Import Tsne SymSpec.

(** *** Sums over lists of indices *)

Lemma sum_list_with_ext {A} (f g : A -> nat) l :
  (forall x, x ∈ l -> f x = g x) -> sum_list_with f l = sum_list_with g l.
Proof.
  induction l as [|a l IH]; intros H; simpl; [reflexivity|].
  rewrite (H a) by left. rewrite IH; [reflexivity|].
  intros x Hx. apply H. right. exact Hx.
Qed.

Lemma sum_list_with_plus {A} (f g : A -> nat) l :
  sum_list_with (fun x => f x + g x) l = sum_list_with f l + sum_list_with g l.
Proof. induction l as [|a l IH]; simpl; [reflexivity|]. rewrite IH. lia. Qed.

Lemma sum_list_with_zero {A} (f : A -> nat) l :
  (forall x, x ∈ l -> f x = 0) -> sum_list_with f l = 0.
Proof.
  induction l as [|a l IH]; intros H; simpl; [reflexivity|].
  rewrite (H a) by left. apply IH. intros x Hx. apply H. right. exact Hx.
Qed.

Lemma sum_list_with_fmap {A B} (f : B -> nat) (g : A -> B) l :
  sum_list_with f (g <$> l) = sum_list_with (fun a => f (g a)) l.
Proof. induction l as [|a l IH]; csimpl; [reflexivity|]. rewrite IH. reflexivity. Qed.

Lemma sum_list_with_bind {A B} (f : B -> nat) (g : A -> list B) l :
  sum_list_with f (l ≫= g) = sum_list_with (fun a => sum_list_with f (g a)) l.
Proof.
  induction l as [|a l IH]; csimpl; [reflexivity|].
  rewrite sum_list_with_app, IH. reflexivity.
Qed.

Lemma sum_list_with_mult {A} (c : nat) (f : A -> nat) l :
  sum_list_with (fun x => c * f x) l = c * sum_list_with f l.
Proof. induction l as [|a l IH]; simpl; [lia|]. rewrite IH. lia. Qed.

(** A sum with one term picked out. *)
Lemma sum_list_with_single (f : nat -> nat) N r :
  r < N -> sum_list_with (fun n => if n =? r then f n else 0) (seq 0 N) = f r.
Proof.
  intros Hr.
  assert (H : forall lo len, sum_list_with (fun n => if n =? r then f n else 0) (seq lo len)
                             = if (lo <=? r) && (r <? lo + len) then f r else 0).
  { intros lo len. revert lo. induction len as [|len IH]; intros lo; simpl.
    - destruct (lo <=? r) eqn:E1, (r <? lo + 0) eqn:E2; simpl; try reflexivity.
      apply Nat.leb_le in E1. apply Nat.ltb_lt in E2. lia.
    - rewrite IH.
      destruct (Nat.eqb_spec lo r), (Nat.leb_spec (S lo) r), (Nat.ltb_spec r (S lo + len)),
        (Nat.leb_spec lo r), (Nat.ltb_spec r (lo + S len)); simpl; subst; lia. }
  rewrite H. simpl.
  rewrite (proj2 (Nat.ltb_lt r N)) by exact Hr. reflexivity.
Qed.

Lemma sum_list_with_filter {A} (P : A -> Prop) `{!forall x, Decision (P x)}
  (g : A -> nat) l :
  sum_list_with g (filter P l) = sum_list_with (fun x => if decide (P x) then g x else 0) l.
Proof.
  induction l as [|a l IH]; simpl; [reflexivity|].
  rewrite filter_cons. destruct (decide (P a)); simpl; rewrite IH; reflexivity.
Qed.

(** A sum over a list of distinct numbers below [N] is a sum over [0..N-1]. *)
Lemma sum_list_with_NoDup (g : nat -> nat) (cs : list nat) N :
  NoDup cs -> (forall c, c ∈ cs -> c < N) ->
  sum_list_with g cs
  = sum_list_with (fun c => if decide (c ∈ cs) then g c else 0) (seq 0 N).
Proof.
  intros Hnd Hlt. rewrite <- (sum_list_with_filter (fun c => c ∈ cs)).
  apply sum_list_with_Permutation_proper.
  apply NoDup_Permutation; [exact Hnd|apply NoDup_filter, NoDup_seq|].
  intros c. rewrite list_elem_of_filter, elem_of_seq. split.
  - intros Hc. split; [exact Hc|]. specialize (Hlt c Hc). lia.
  - tauto.
Qed.

Import Tsne SymSpec.

(** *** The two passes count the same *)

Section CountsAgree.
Variable P : csr.
Variable N : nat.
Hypothesis wf : csr_wf P N.

Local Abbreviation col := (fun i => col_P P !!! i).

Lemma sum_entries (f : nat * nat -> nat) :
  sum_list_with f (entries P N)
  = sum_list_with (fun n => sum_list_with (fun i => f (n, i)) (row_entries P n)) (seq 0 N).
Proof.
  unfold entries. rewrite sum_list_with_bind. apply sum_list_with_ext.
  intros n _. apply sum_list_with_fmap.
Qed.

(** The columns of a row are distinct and below [N]. *)
Lemma row_cols_NoDup n : n < N -> NoDup (col <$> row_entries P n).
Proof.
  intros Hn. apply NoDup_fmap_2_strong; [|apply NoDup_seq].
  intros i i' Hi Hi' Heq. apply elem_of_row_entries in Hi, Hi'.
  eapply wf_nodup; eassumption.
Qed.

Lemma elem_of_row_cols n c : c ∈ col <$> row_entries P n <-> present P n c = true.
Proof.
  rewrite present_spec, list_elem_of_fmap. split.
  - intros (i & -> & Hi). exists i. split; [apply elem_of_row_entries, Hi|reflexivity].
  - intros (i & Hi & <-). exists i. split; [reflexivity|apply elem_of_row_entries, Hi].
Qed.

(** How many entries of row [n] have column [r]: one or none. *)
Lemma row_count_col n r :
  n < N ->
  sum_list_with (fun i => if col i =? r then 1 else 0) (row_entries P n)
  = if present P n r then 1 else 0.
Proof.
  intros Hn. destruct (present P n r) eqn:E.
  - apply present_spec in E as (m & Hm & Hc).
    pose proof (NoDup_seq (row_P P !!! n) (row_P P !!! (n + 1) - row_P P !!! n)) as Hnd.
    fold (row_entries P n) in Hnd.
    assert (Hin : m ∈ row_entries P n) by (apply elem_of_row_entries, Hm).
    apply list_elem_of_split in Hin as (l1 & l2 & Hl).
    assert (Hother : forall i, i ∈ l1 ++ l2 -> (if col i =? r then 1 else 0) = 0).
    { intros i Hi. destruct (Nat.eqb_spec (col i) r) as [Heq|]; [|reflexivity].
      exfalso. assert (i = m).
      { apply (wf_nodup P N wf n); [exact Hn| |exact Hm|cbv beta in *; congruence].
        apply elem_of_row_entries. rewrite Hl.
        apply elem_of_app in Hi as [Hi|Hi]; apply elem_of_app; [left|right; right]; exact Hi. }
      subst i. rewrite Hl in Hnd. apply NoDup_app in Hnd as (_ & Hd & Hnd2).
      apply NoDup_cons in Hnd2 as [Hm2 _].
      apply elem_of_app in Hi as [Hi|Hi]; [apply (Hd m Hi); left|exact (Hm2 Hi)]. }
    rewrite Hl, sum_list_with_app. simpl.
    rewrite (sum_list_with_zero _ l1), (sum_list_with_zero _ l2).
    + cbv beta. rewrite Hc, Nat.eqb_refl. reflexivity.
    + intros i Hi. apply Hother, elem_of_app. right. exact Hi.
    + intros i Hi. apply Hother, elem_of_app. left. exact Hi.
  - apply sum_list_with_zero. intros i Hi. apply elem_of_row_entries in Hi.
    pose proof (proj1 (present_false P n r) E i Hi) as Hne.
    destruct (Nat.eqb_spec (col i) r); [contradiction|reflexivity].
Qed.

Local Abbreviation skipped := (skipped P).
Local Abbreviation mirrored := (mirrored P).

Lemma count_offset_pointwise r e :
  valid P N e -> count1 P r e + mirrored r e = offset1 P r e + skipped r e.
Proof.
  intros (Hn & Hi & Hc). unfold count1, offset1, skipped, mirrored, emitted.
  destruct e as [n i]. simpl in *.
  assert (Hself : col i = n -> reciprocal P (n, i) = true).
  { intros Heq. unfold reciprocal. simpl. cbv beta in Heq. rewrite Heq.
    eapply present_self; eassumption. }
  destruct (reciprocal P (n, i)) eqn:E; simpl;
    destruct (Nat.eqb_spec n r), (Nat.eqb_spec (col i) r),
      (Nat.leb_spec n (col i)), (Nat.ltb_spec (col i) n), (Nat.ltb_spec n (col i));
    simpl; try lia.
  all: cbv beta in *; try lia.
  all: exfalso; assert (col_P P !!! i = n) as Hx by congruence; specialize (Hself Hx); discriminate.
Qed.

Lemma sum_skipped r :
  r < N ->
  sum_list_with (skipped r) (entries P N)
  = sum_list_with (fun c => if present P r c && present P c r && (c <? r) then 1 else 0)
                  (seq 0 N).
Proof.
  intros Hr. rewrite sum_entries.
  rewrite (sum_list_with_ext _
             (fun n => if n =? r
                       then sum_list_with
                              (fun c => if present P c r && (c <? r) then 1 else 0)
                              (col <$> row_entries P n)
                       else 0)).
  - rewrite (sum_list_with_single _ N r Hr).
    rewrite (sum_list_with_NoDup _ _ N (row_cols_NoDup r Hr)).
    + apply sum_list_with_ext. intros c _.
      destruct (decide (c ∈ col <$> row_entries P r)) as [Hc|Hc].
      * apply elem_of_row_cols in Hc. rewrite Hc. reflexivity.
      * rewrite elem_of_row_cols in Hc. apply not_true_is_false in Hc.
        rewrite Hc. reflexivity.
    + intros c Hc. apply list_elem_of_fmap in Hc as (i & -> & Hi).
      apply elem_of_row_entries in Hi. eapply wf_cols; eassumption.
  - intros n _. unfold skipped, reciprocal. simpl.
    destruct (Nat.eqb_spec n r) as [->|Hne].
    + rewrite sum_list_with_fmap. reflexivity.
    + apply sum_list_with_zero. intros i _. reflexivity.
Qed.

Lemma sum_mirrored r :
  r < N ->
  sum_list_with (mirrored r) (entries P N)
  = sum_list_with (fun c => if present P r c && present P c r && (c <? r) then 1 else 0)
                  (seq 0 N).
Proof.
  intros Hr. rewrite sum_entries. apply sum_list_with_ext. intros n Hn.
  apply elem_of_seq in Hn.
  rewrite (sum_list_with_ext _
             (fun i => (if present P r n && (n <? r) then 1 else 0)
                       * (if col i =? r then 1 else 0))).
  - rewrite sum_list_with_mult, row_count_col by lia.
    destruct (present P r n), (present P n r), (n <? r); reflexivity.
  - intros i _. unfold mirrored, reciprocal. simpl.
    destruct (Nat.eqb_spec (col i) r) as [Heq|Hne]; simpl.
    + cbv beta in Heq. rewrite Heq.
      destruct (present P r n), (n <? r); reflexivity.
    + destruct (present P r n && (n <? r)); reflexivity.
Qed.

(** The count of the first pass for a row is the final offset of the second. *)
Lemma counts_agree r :
  r < N ->
  sum_list_with (offset1 P r) (entries P N) = sum_list_with (count1 P r) (entries P N).
Proof.
  intros Hr.
  assert (H : sum_list_with (fun e => count1 P r e + mirrored r e) (entries P N)
              = sum_list_with (fun e => offset1 P r e + skipped r e) (entries P N)).
  { apply sum_list_with_ext. intros e He.
    apply count_offset_pointwise, (entries_valid P N wf), He. }
  rewrite !sum_list_with_plus, sum_skipped, sum_mirrored in H by exact Hr. lia.
Qed.

End CountsAgree.

Import Tsne SymSpec.

(** *** The second pass: the scan *)

Section Scan.
Variable P : csr.
Variable N : nat.
Hypothesis wf : csr_wf P N.
Variable sr : list nat.

Local Abbreviation col := (fun i => col_P P !!! i).
Lemma fill_scan_fold n i s :
  fill_scan P sr n i s
  = fold_left (fun s m => scan_body P sr n i m s) (row_entries P (col i)) s.
Proof. reflexivity. Qed.

Lemma scan_skip n i l s :
  (forall m, m ∈ l -> col m <> n) ->
  fold_left (fun s m => scan_body P sr n i m s) l s = s.
Proof.
  revert s. induction l as [|m l IH]; intros s H; simpl; [reflexivity|].
  destruct s as [b st]. unfold scan_body at 2.
  destruct (Nat.eqb_spec (col m) n) as [Heq|Hne].
  - exfalso. apply (H m); [left|exact Heq].
  - apply IH. intros m' Hm'. apply H. right. exact Hm'.
Qed.

(** With distinct columns in a row, the scan meets the reciprocal once. *)
Lemma row_split_at r m n :
  r < N -> in_row P r m -> col m = n ->
  exists l1 l2, row_entries P r = l1 ++ m :: l2 /\
                (forall m', m' ∈ l1 -> col m' <> n) /\
                (forall m', m' ∈ l2 -> col m' <> n).
Proof.
  intros Hr Hm Hc.
  pose proof (NoDup_seq (row_P P !!! r) (row_P P !!! (r + 1) - row_P P !!! r)) as Hnd.
  fold (row_entries P r) in Hnd.
  assert (Hin : m ∈ row_entries P r) by (apply elem_of_row_entries, Hm).
  apply list_elem_of_split in Hin as (l1 & l2 & Hl). exists l1, l2.
  split; [exact Hl|].
  rewrite Hl in Hnd. apply NoDup_app in Hnd as (_ & Hd & Hnd2).
  apply NoDup_cons in Hnd2 as [Hm2 _].
  assert (Hsame : forall m', m' ∈ row_entries P r -> col m' = n -> m' = m).
  { intros m' Hm' Hc'. apply (wf_nodup P N wf r); [exact Hr| |exact Hm|cbv beta in *; congruence].
    apply elem_of_row_entries, Hm'. }
  split; intros m' Hm' Hc'.
  - assert (m' = m) as -> by (apply Hsame; [rewrite Hl; apply elem_of_app; left; exact Hm'|exact Hc']).
    apply (Hd m Hm'). left.
  - assert (m' = m) as -> by (apply Hsame; [rewrite Hl; apply elem_of_app; right; right; exact Hm'|exact Hc']).
    exact (Hm2 Hm').
Qed.

Lemma filter_none (f : nat -> bool) l :
  (forall m, m ∈ l -> f m = false) -> List.filter f l = [].
Proof.
  induction l as [|a l IH]; intros H; simpl; [reflexivity|].
  rewrite (H a) by left. apply IH. intros m Hm. apply H. right. exact Hm.
Qed.

Lemma recip_index_spec e :
  valid P N e -> reciprocal P e = true ->
  in_row P (col (snd e)) (recip_index P e) /\ col (recip_index P e) = fst e.
Proof.
  intros (Hn & Hi & Hc) Hr. unfold reciprocal in Hr.
  apply present_spec in Hr as (m & Hm & Hcm).
  destruct (row_split_at _ m (fst e) Hc Hm Hcm) as (l1 & l2 & Hl & H1 & H2).
  assert (recip_index P e = m) as ->; [|split; assumption].
  unfold recip_index. rewrite Hl, List.filter_app. simpl.
  rewrite (filter_none _ l1), (filter_none _ l2).
  - cbv beta in Hcm. rewrite Hcm, Nat.eqb_refl. reflexivity.
  - intros m' Hm'. apply Nat.eqb_neq, H2, Hm'.
  - intros m' Hm'. apply Nat.eqb_neq, H1, Hm'.
Qed.

Lemma fill_scan_spec e st :
  valid P N e ->
  fill_scan P sr (fst e) (snd e) (false, st)
  = (reciprocal P e,
     if reciprocal P e && (fst e <=? col (snd e))
     then store_pair sr (fst e) (col (snd e))
                     (val_P P !!! snd e + val_P P !!! recip_index P e)%Q st
     else st).
Proof.
  intros Hv. rewrite fill_scan_fold. destruct (reciprocal P e) eqn:Hr.
  - destruct (recip_index_spec e Hv Hr) as [Hm Hcm].
    destruct Hv as (Hn & Hi & Hc).
    destruct (row_split_at _ _ (fst e) Hc Hm Hcm) as (l1 & l2 & Hl & H1 & H2).
    rewrite Hl, fold_left_app. rewrite (scan_skip _ _ l1) by exact H1. simpl.
    cbv beta in Hcm. rewrite Hcm, Nat.eqb_refl.
    rewrite (scan_skip _ _ l2) by exact H2. reflexivity.
  - simpl. apply scan_skip. intros m Hm. apply elem_of_row_entries in Hm.
    exact (proj1 (present_false P _ _) Hr m Hm).
Qed.

(** One turn of the second pass: nothing for an entry whose reciprocal lies
    in a row above, and else the stores of the pair followed by the two
    offsets moving on. *)
Lemma fill_body_spec e st :
  valid P N e ->
  fill_body P sr (fst e) (snd e) st
  = if emitted P e then
      let st' := store_pair sr (fst e) (col (snd e)) (pair_value P e) st in
      let off := incr (offset st') (fst e) in
      let off := if negb (col (snd e) =? fst e) then incr off (col (snd e)) else off in
      mkFill (sym_col_P st') (sym_val_P st') off
    else st.
Proof.
  intros Hv. unfold fill_body. rewrite (fill_scan_spec e st Hv).
  unfold emitted, pair_value.
  destruct (reciprocal P e) eqn:Hr; destruct (fst e <=? col_P P !!! snd e);
    reflexivity.
Qed.

End Scan.

Import Tsne SymSpec.

(** *** The second pass: the invariant *)

Ltac lookup_insert :=
  repeat first
    [ rewrite list_lookup_total_insert_eq by (rewrite ?length_insert; lia)
    | rewrite list_lookup_total_insert_ne by congruence ].

Section Fill.
Variable P : csr.
Variable N : nat.
Hypothesis wf : csr_wf P N.

Local Abbreviation sr := (sym_row_P P N).
Local Abbreviation rc := (row_counts P N).
Local Abbreviation O := (offsets_after P).
Local Abbreviation col := (fun i => col_P P !!! i).

Lemma offsets_after_app es es' r : O (es ++ es') r = O es r + O es' r.
Proof. apply sum_list_with_app. Qed.

Lemma offsets_after_cons e es r : O (e :: es) r = offset1 P r e + O es r.
Proof. reflexivity. Qed.

Lemma offsets_after_nil r : O [] r = 0.
Proof. reflexivity. Qed.

Lemma offset1_le_1 r e : offset1 P r e <= 1.
Proof. unfold offset1. destruct (_ && _); lia. Qed.

Lemma offset1_emitted r e :
  offset1 P r e = 1 <-> emitted P e = true /\ (fst e = r \/ col (snd e) = r).
Proof.
  unfold offset1. destruct (emitted P e); simpl.
  - destruct (Nat.eqb_spec (fst e) r), (Nat.eqb_spec (col_P P !!! snd e) r);
      simpl; split; try tauto; try lia; intros [_ [?|?]]; contradiction.
  - split; [lia|]. intros [? _]. discriminate.
Qed.

Lemma row_counts_total r : r < N -> rc !!! r = O (entries P N) r.
Proof.
  intros Hr. rewrite (proj2 (row_counts_spec P N wf r)).
  symmetry. apply (counts_agree P N wf r Hr).
Qed.

Lemma prefix_bound es rest r :
  entries P N = es ++ rest -> r < N -> O es r <= rc !!! r.
Proof.
  intros He Hr. rewrite (row_counts_total r Hr), He, offsets_after_app. lia.
Qed.

(** A slot filled earlier is not the slot a later entry fills. *)
Lemma old_slot_ne es1 e1 es2 rest r1 r :
  entries P N = (es1 ++ e1 :: es2) ++ rest ->
  offset1 P r1 e1 = 1 -> r1 < N -> r < N ->
  O (es1 ++ e1 :: es2) r < rc !!! r ->
  sr !!! r1 + O es1 r1 <> sr !!! r + O (es1 ++ e1 :: es2) r.
Proof.
  intros He H1 Hr1 Hr Hlt.
  pose proof (prefix_bound _ _ r1 He Hr1) as Hb.
  rewrite offsets_after_app, offsets_after_cons, H1 in Hb.
  destruct (decide (r1 = r)) as [->|Hne].
  - rewrite offsets_after_app, offsets_after_cons, H1. lia.
  - apply (slots_disjoint P N); [exact Hr1|exact Hr|exact Hne|lia|exact Hlt].
Qed.

Lemma snoc_split {A} (es : list A) e es1 e' es2 :
  es ++ [e] = es1 ++ e' :: es2 ->
  (es1 = es /\ e' = e /\ es2 = []) \/
  exists es2', es2 = es2' ++ [e] /\ es = es1 ++ e' :: es2'.
Proof.
  intros H. destruct es2 as [|x es2 _] using rev_ind.
  - left. apply app_inj_tail in H as [-> ->]. tauto.
  - right. exists es2.
    replace (es1 ++ e' :: es2 ++ [x]) with ((es1 ++ e' :: es2) ++ [x]) in H
      by (rewrite <- app_assoc; reflexivity).
    apply app_inj_tail in H as [-> ->]. tauto.
Qed.

Lemma fill_step es e rest st :
  entries P N = (es ++ [e]) ++ rest ->
  fill_inv P N es st ->
  fill_inv P N (es ++ [e]) (fill_body P sr (fst e) (snd e) st).
Proof.
  intros He (Hlc & Hlv & Hlo & Hoff & Hslots).
  assert (Hv : valid P N e).
  { apply (entries_valid P N wf). rewrite He. apply elem_of_app. left.
    apply elem_of_app. right. left. }
  rewrite (fill_body_spec P N wf sr e st Hv).
  destruct (emitted P e) eqn:Hem.
  2:{ (* nothing is stored *)
    split; [exact Hlc|]. split; [exact Hlv|]. split; [exact Hlo|]. split.
    - intros r Hr. rewrite offsets_after_app, Hoff by exact Hr.
      rewrite offsets_after_cons, offsets_after_nil.
      unfold offset1. rewrite Hem. simpl. lia.
    - intros es1 e' es2 Hs. apply snoc_split in Hs as [(-> & -> & _)|(es2' & _ & Hs)].
      + intros Hem'. rewrite Hem in Hem'. discriminate.
      + apply (Hslots _ _ _ Hs). }
  destruct Hv as (Hn & Hi & Hj). destruct e as [n i]. simpl fst in *. simpl snd in *.
  set (j := col_P P !!! i) in *.
  assert (Hon : offset1 P n (n, i) = 1) by (apply offset1_emitted; simpl; tauto).
  assert (Hoj : offset1 P j (n, i) = 1) by (apply offset1_emitted; simpl; tauto).
  assert (Hbn : O es n < rc !!! n).
  { pose proof (prefix_bound _ _ n He Hn) as Hb.
    rewrite offsets_after_app, offsets_after_cons, Hon in Hb. lia. }
  assert (Hbj : O es j < rc !!! j).
  { pose proof (prefix_bound _ _ j He Hj) as Hb.
    rewrite offsets_after_app, offsets_after_cons, Hoj in Hb. lia. }
  pose proof (slot_in_range P N n _ Hn Hbn) as Hrn.
  pose proof (slot_in_range P N j _ Hj Hbj) as Hrj.
  cbv zeta. unfold store_pair. simpl.
  rewrite (Hoff n Hn), (Hoff j Hj).
  set (pn := sr !!! n + O es n) in *. set (pj := sr !!! j + O es j) in *.
  unfold fill_inv. cbn [sym_col_P sym_val_P offset].
  split; [rewrite !length_insert; exact Hlc|].
  split; [rewrite !length_insert; exact Hlv|].
  split; [destruct (negb (j =? n)); rewrite ?incr_length; exact Hlo|].
  split.
  - intros r Hr. rewrite offsets_after_app, offsets_after_cons, offsets_after_nil.
    unfold offset1. rewrite Hem. simpl. fold j.
    destruct (Nat.eqb_spec j n) as [Hjn|Hjn]; simpl.
    + rewrite incr_lookup by lia. rewrite (Hoff r Hr). rewrite Hjn.
      destruct (Nat.eqb_spec n r); simpl; lia.
    + rewrite !incr_lookup by (rewrite ?incr_length; lia). rewrite (Hoff r Hr).
      destruct (Nat.eqb_spec n r), (Nat.eqb_spec j r); simpl; lia.
  - intros es1 e' es2 Hs. apply snoc_split in Hs as [(-> & -> & _)|(es2' & _ & Hs)].
    + (* the pair just stored *)
      intros _. cbv zeta. cbn [fst snd sym_col_P sym_val_P]. fold j. fold pn. fold pj.
      assert (Hpp : pn = pj -> n = j).
      { intros Heq. destruct (decide (n = j)) as [|Hne]; [assumption|].
        exfalso. exact (slots_disjoint P N n j _ _ Hn Hj Hne Hbn Hbj Heq). }
      destruct (decide (pn = pj)) as [Heq|Hne].
      * rewrite <- Heq, <- (Hpp Heq).
        split; [|split; [|split]]; lookup_insert; reflexivity.
      * split; [|split; [|split]]; lookup_insert; reflexivity.
    + (* a pair stored before *)
      intros Hem'. specialize (Hslots _ _ _ Hs Hem'). cbv zeta in Hslots |- *.
      cbn [sym_col_P sym_val_P].
      assert (Hv' : valid P N e').
      { apply (entries_valid P N wf). rewrite He, Hs.
        apply elem_of_app. left. apply elem_of_app. left.
        apply elem_of_app. right. left. }
      destruct Hv' as (Hn' & Hi' & Hj').
      assert (He' : entries P N = (es1 ++ e' :: es2') ++ ([(n, i)] ++ rest)).
      { rewrite He, Hs, <- !app_assoc. reflexivity. }
      assert (Hon' : offset1 P (fst e') e' = 1) by (apply offset1_emitted; tauto).
      assert (Hoj' : offset1 P (col_P P !!! snd e') e' = 1) by (apply offset1_emitted; tauto).
      rewrite <- Hs in He'.
      assert (N1 : sr !!! fst e' + O es1 (fst e') <> pn).
      { subst pn. rewrite Hs. apply (old_slot_ne _ _ _ ([(n, i)] ++ rest));
          [rewrite <- Hs; exact He'|assumption..|rewrite <- Hs; exact Hbn]. }
      assert (N2 : sr !!! fst e' + O es1 (fst e') <> pj).
      { subst pj. rewrite Hs. apply (old_slot_ne _ _ _ ([(n, i)] ++ rest));
          [rewrite <- Hs; exact He'|assumption..|rewrite <- Hs; exact Hbj]. }
      assert (N3 : sr !!! (col_P P !!! snd e') + O es1 (col_P P !!! snd e') <> pn).
      { subst pn. rewrite Hs. apply (old_slot_ne _ _ _ ([(n, i)] ++ rest));
          [rewrite <- Hs; exact He'|assumption..|rewrite <- Hs; exact Hbn]. }
      assert (N4 : sr !!! (col_P P !!! snd e') + O es1 (col_P P !!! snd e') <> pj).
      { subst pj. rewrite Hs. apply (old_slot_ne _ _ _ ([(n, i)] ++ rest));
          [rewrite <- Hs; exact He'|assumption..|rewrite <- Hs; exact Hbj]. }
      destruct Hslots as (S1 & S2 & S3 & S4).
      split; [|split; [|split]]; lookup_insert; assumption.
Qed.

Lemma fill_fold :
  fill P N
  = fold_left (fun st e => fill_body P sr (fst e) (snd e) st) (entries P N)
      (mkFill (replicate (no_elem P N) 0) (replicate (no_elem P N) 0%Q) (replicate N 0)).
Proof. unfold fill. cbv zeta. apply nested_loop. Qed.

Lemma fill_prefix es :
  forall rest, entries P N = es ++ rest ->
  fill_inv P N es
    (fold_left (fun st e => fill_body P sr (fst e) (snd e) st) es
       (mkFill (replicate (no_elem P N) 0) (replicate (no_elem P N) 0%Q) (replicate N 0))).
Proof.
  induction es as [|e es IH] using rev_ind; intros rest He.
  - simpl. split; [apply length_replicate|]. split; [apply length_replicate|].
    split; [apply length_replicate|]. split.
    + intros r Hr. simpl. apply lookup_total_replicate_2, Hr.
    + intros es1 e es2 Hs. destruct es1; discriminate.
  - rewrite fold_left_app. simpl. apply (fill_step es e rest _ He).
    apply (IH ([e] ++ rest)). rewrite He, <- app_assoc. reflexivity.
Qed.

(** The second pass leaves every pair in its two slots. *)
Lemma fill_spec : fill_inv P N (entries P N) (fill P N).
Proof. rewrite fill_fold. apply (fill_prefix _ []). rewrite app_nil_r. reflexivity. Qed.

End Fill.

Import Tsne SymSpec.

(** *** The symmetrized matrix *)

Section Symmetrized.
Variable P : csr.
Variable N : nat.
Hypothesis wf : csr_wf P N.

Local Abbreviation sr := (sym_row_P P N).
Local Abbreviation rc := (row_counts P N).
Local Abbreviation O := (offsets_after P).
Local Abbreviation S := (symmetrizeMatrix P N).

Lemma symmetrize_val p :
  p < no_elem P N -> val_P S !!! p = (sym_val_P (fill P N) !!! p / 2)%Q.
Proof.
  intros Hp. unfold symmetrizeMatrix. cbv zeta. cbn [val_P].
  destruct (fill_spec P N wf) as (_ & Hlv & _).
  rewrite (for_loop_insert_lookup (no_elem P N) (fun _ v => (v / 2)%Q)) by lia.
  rewrite (proj2 (Nat.ltb_lt p (no_elem P N))) by exact Hp. reflexivity.
Qed.

Lemma slot_in_row r k :
  r < N -> k < rc !!! r -> in_row S r (sr !!! r + k) /\ sr !!! r + k < no_elem P N.
Proof.
  intros Hr Hk. split; [|apply slot_in_range; assumption].
  unfold in_row, symmetrizeMatrix. cbv zeta. cbn [row_P].
  destruct (sym_row_P_spec P N) as (_ & _ & Hs). rewrite (Hs r Hr). lia.
Qed.

(** Every pair the second pass stores is in the result, halved, in the row
    of each end. *)
Lemma stored_pair es1 e es2 :
  entries P N = es1 ++ e :: es2 -> emitted P e = true ->
  stored S (fst e) (col_P P !!! snd e) (pair_value P e / 2)%Q
         (sr !!! fst e + O es1 (fst e)) /\
  stored S (col_P P !!! snd e) (fst e) (pair_value P e / 2)%Q
         (sr !!! (col_P P !!! snd e) + O es1 (col_P P !!! snd e)).
Proof.
  intros He Hem. destruct (fill_spec P N wf) as (_ & _ & _ & _ & Hslots).
  destruct (Hslots _ _ _ He Hem) as (C1 & V1 & C2 & V2).
  assert (Hv : valid P N e).
  { apply (entries_valid P N wf). rewrite He. apply elem_of_app. right. left. }
  destruct Hv as (Hn & Hi & Hj).
  assert (Hb : forall r, r < N -> offset1 P r e = 1 -> O es1 r < rc !!! r).
  { intros r Hr H1.
    pose proof (prefix_bound P N wf (es1 ++ [e]) es2 r) as Hb.
    rewrite <- app_assoc in Hb. specialize (Hb He Hr).
    rewrite offsets_after_app, offsets_after_cons, H1 in Hb. lia. }
  assert (B1 : O es1 (fst e) < rc !!! fst e)
    by (apply Hb; [exact Hn|apply offset1_emitted; tauto]).
  assert (B2 : O es1 (col_P P !!! snd e) < rc !!! (col_P P !!! snd e))
    by (apply Hb; [exact Hj|apply offset1_emitted; tauto]).
  destruct (slot_in_row _ _ Hn B1) as [R1 L1].
  destruct (slot_in_row _ _ Hj B2) as [R2 L2].
  unfold stored. rewrite (symmetrize_val _ L1), (symmetrize_val _ L2).
  unfold symmetrizeMatrix at 2 4. cbv zeta. cbn [col_P].
  rewrite C1, V1, C2, V2.
  split; (split; [assumption|split; reflexivity]).
Qed.

Lemma entry_split n i :
  n < N -> in_row P n i -> exists es1 es2, entries P N = es1 ++ (n, i) :: es2.
Proof.
  intros Hn Hi. apply list_elem_of_split, elem_of_entries. tauto.
Qed.

(** The slot of rank [k] of row [r] was filled by some entry. *)
Lemma rank_split es r k :
  k < O es r ->
  exists es1 e es2, es = es1 ++ e :: es2 /\ offset1 P r e = 1 /\ O es1 r = k.
Proof.
  induction es as [|e es IH] using rev_ind; intros Hk.
  - rewrite offsets_after_nil in Hk. lia.
  - rewrite offsets_after_app, offsets_after_cons, offsets_after_nil in Hk.
    pose proof (offset1_le_1 P r e).
    destruct (decide (k < O es r)) as [Hlt|Hge].
    + destruct (IH Hlt) as (es1 & e1 & es2 & -> & H1 & H2).
      exists es1, e1, (es2 ++ [e]). rewrite <- app_assoc. repeat split; assumption.
    + exists es, e, []. repeat split; lia.
Qed.

Lemma row_of_slot p :
  p < no_elem P N -> exists r, r < N /\ sr !!! r <= p < sr !!! (r + 1).
Proof.
  rewrite no_elem_spec. destruct (sym_row_P_spec P N) as (_ & H0 & _).
  enough (H : forall k, k <= N -> p < sr !!! k ->
                        exists r, r < k /\ sr !!! r <= p < sr !!! (r + 1))
    by (intros Hp; destruct (H N ltac:(lia) Hp) as (r & Hr & Hp'); exists r; split; [lia|exact Hp']).
  induction k as [|k IH]; intros Hk Hp; [lia|].
  destruct (decide (p < sr !!! k)) as [Hlt|Hge].
  - destruct (IH ltac:(lia) Hlt) as (r & Hr & Hp'). exists r. split; [lia|exact Hp'].
  - exists k. replace (k + 1) with (Datatypes.S k) by lia. split; lia.
Qed.


End Symmetrized.

Import Tsne SymSpec Examples.

Lemma csr_wfb_sound P N : csr_wfb P N = true -> csr_wf P N.
Proof.
  unfold csr_wfb. rewrite !andb_true_iff, !forallb_forall.
  intros (((((H1 & H2) & H3) & H4) & H5) & H6).
  assert (Hrow : forall n i, n < N -> in_row P n i ->
            (col_P P !!! i <? N) = true /\
            forall i', in_row P n i' ->
              negb (col_P P !!! i =? col_P P !!! i') || (i =? i') = true).
  { intros n i Hn Hi.
    specialize (H6 n ltac:(apply list_elem_of_In, elem_of_seq; lia)).
    rewrite forallb_forall in H6.
    specialize (H6 i ltac:(apply list_elem_of_In, elem_of_row_entries, Hi)).
    apply andb_true_iff in H6 as [Hc Hd]. split; [exact Hc|].
    intros i' Hi'. rewrite forallb_forall in Hd.
    apply Hd, list_elem_of_In, elem_of_row_entries, Hi'. }
  constructor.
  - apply Nat.eqb_eq, H1.
  - apply Nat.eqb_eq, H2.
  - intros n Hn. apply Nat.leb_le, H3, list_elem_of_In, elem_of_seq. lia.
  - apply Nat.leb_le, H4.
  - apply Nat.leb_le, H5.
  - intros n i Hn Hi. apply Nat.ltb_lt, (Hrow n i Hn Hi).
  - intros n i i' Hn Hi Hi' Heq.
    destruct (Hrow n i Hn Hi) as [_ Hd]. specialize (Hd i' Hi').
    rewrite Heq, Nat.eqb_refl in Hd. simpl in Hd. apply Nat.eqb_eq, Hd.
Qed.

(** C1, as the code has it.  Every value of the result is halved by the last
    loop: for an entry (n, j) with value v and no reciprocal, row n and row j
    of the result each hold an entry for the other with value v / 2; for an
    entry (n, j) with value v whose reciprocal (j, n) has value w, they each
    hold an entry with the average (v + w) / 2. *)
Theorem symmetrize_halves_every_pair (P : csr) (N n i : nat) :
  csr_wf P N -> n < N -> in_row P n i ->
  let j := col_P P !!! i in
  let v := val_P P !!! i in
  let S := symmetrizeMatrix P N in
  ((forall m, in_row P j m -> col_P P !!! m <> n) ->
   exists p q, stored S n j (v / 2)%Q p /\ stored S j n (v / 2)%Q q) /\
  (forall m, n <= j -> in_row P j m -> col_P P !!! m = n ->
   exists p q, stored S n j ((v + val_P P !!! m) / 2)%Q p /\
               stored S j n ((v + val_P P !!! m) / 2)%Q q).
Proof.
  intros wf Hn Hi. cbv zeta.
  destruct (entry_split P N n i Hn Hi) as (es1 & es2 & He).
  assert (Hv : valid P N (n, i)).
  { apply (entries_valid P N wf). rewrite He. apply elem_of_app. right. left. }
  split.
  - intros Hnone.
    assert (Hr : reciprocal P (n, i) = false) by (apply present_false, Hnone).
    assert (Hem : emitted P (n, i) = true) by (unfold emitted; rewrite Hr; reflexivity).
    destruct (stored_pair P N wf es1 (n, i) es2 He Hem) as [S1 S2].
    unfold pair_value in S1, S2. rewrite Hr in S1, S2. eauto.
  - intros m Hle Hm Hc.
    assert (Hr : reciprocal P (n, i) = true) by (apply present_spec; eauto).
    assert (Hem : emitted P (n, i) = true).
    { unfold emitted. simpl. rewrite (proj2 (Nat.leb_le _ _) Hle). apply orb_true_r. }
    destruct (recip_index_spec P N wf (n, i) Hv Hr) as [Rm Rc].
    assert (Hmm : recip_index P (n, i) = m).
    { destruct Hv as (_ & _ & Hj).
      apply (wf_nodup P N wf (col_P P !!! i)); [exact Hj|exact Rm|exact Hm|].
      simpl in Rc. congruence. }
    destruct (stored_pair P N wf es1 (n, i) es2 He Hem) as [S1 S2].
    unfold pair_value in S1, S2. rewrite Hr, Hmm in S1, S2. eauto.
Qed.

Lemma three_rows_wf : csr_wf three_rows 3.
Proof. apply csr_wfb_sound. reflexivity. Qed.

Lemma symmetrize_halves_every_pair_witness :
  let P := three_rows in
  let j := col_P P !!! 1 in
  let v := val_P P !!! 1 in
  let S := symmetrizeMatrix P 3 in
  ((forall m, in_row P j m -> col_P P !!! m <> 0) ->
   exists p q, stored S 0 j (v / 2)%Q p /\ stored S j 0 (v / 2)%Q q) /\
  (forall m, 0 <= j -> in_row P j m -> col_P P !!! m = 0 ->
   exists p q, stored S 0 j ((v + val_P P !!! m) / 2)%Q p /\
               stored S j 0 ((v + val_P P !!! m) / 2)%Q q).
Proof.
  apply (symmetrize_halves_every_pair three_rows 3 0 1).
  - exact three_rows_wf.
  - lia.
  - unfold in_row. simpl. lia.
Defined.

(** C1 as stated fails: the entry (0, 2) of [three_rows] has value 1/2 and
    no reciprocal; the only entry (0, 2) of the result and its only entry
    (2, 0) have value 1/4, not 1/2. *)
Lemma one_directional_value_is_halved :
  let S := symmetrizeMatrix three_rows 3 in
  (forall m, in_row three_rows 2 m -> col_P three_rows !!! m <> 0) /\
  stored three_rows 0 2 0.5%Q 1 /\
  (forall p, in_row S 0 p -> col_P S !!! p = 2 ->
     (val_P S !!! p == 1 # 4)%Q /\ ~ (val_P S !!! p == 0.5)%Q) /\
  (forall p, in_row S 2 p -> col_P S !!! p = 0 ->
     (val_P S !!! p == 1 # 4)%Q /\ ~ (val_P S !!! p == 0.5)%Q).
Proof.
  cbv zeta. split; [|split; [|split]].
  - unfold in_row. simpl. intros m Hm. lia.
  - unfold stored, in_row. simpl. repeat split; lia.
  - intros p [H1 H2]. vm_compute in H1, H2.
    assert (p = 0 \/ p = 1) as [->| ->] by lia; vm_compute; intros Hc;
      [discriminate|split; [reflexivity|discriminate]].
  - intros p [H1 H2]. vm_compute in H1, H2.
    assert (p = 3) as -> by lia. vm_compute. intros _.
    split; [reflexivity|discriminate].
Qed.

Import Tsne SymSpec Examples.

(** *** The caller's normalization *)

Lemma symmetrize_lengths P N :
  csr_wf P N ->
  row_P (symmetrizeMatrix P N) !!! N = no_elem P N /\
  length (val_P (symmetrizeMatrix P N)) = no_elem P N.
Proof.
  intros wf. unfold symmetrizeMatrix. cbv zeta. cbn [row_P val_P]. split.
  - symmetry. apply no_elem_spec.
  - rewrite (for_loop_insert_length (no_elem P N) (fun i sv => (sv !!! i / 2)%Q)).
    apply (fill_spec P N wf).
Qed.




(** ** Centring the data *)

Import Tsne DataSpec.

(** A loop that rewrites the [D] entries of row [n] of a matrix. *)
Lemma for_loop_row_lookup {A} `{!Inhabited A} (base D : nat) (F : nat -> A -> A)
  (l : list A) i :
  base + D <= length l ->
  for_loop 0 D (fun d l => <[base + d := F d (l !!! (base + d))]> l) l !!! i
  = if (base <=? i) && (i <? base + D) then F (i - base) (l !!! i) else l !!! i.
Proof.
  intros Hn.
  enough (H : length (for_loop 0 D (fun d l => <[base + d := F d (l !!! (base + d))]> l) l)
              = length l /\
              forall i, for_loop 0 D (fun d l => <[base + d := F d (l !!! (base + d))]> l) l !!! i
                        = if (base <=? i) && (i <? base + D)
                          then F (i - base) (l !!! i) else l !!! i)
    by apply H.
  clear i. induction D as [|D IH].
  - rewrite for_loop_ge by lia. split; [reflexivity|]. intros i.
    destruct (Nat.leb_spec base i), (Nat.ltb_spec i (base + 0)); simpl; try reflexivity; lia.
  - rewrite for_loop_S by lia. destruct IH as [IHlen IH]; [lia|].
    split; [rewrite length_insert; exact IHlen|]. intros i.
    destruct (decide (i = base + D)) as [->|Hne].
    + rewrite list_lookup_total_insert_eq by lia. rewrite IH.
      destruct (Nat.leb_spec base (base + D)), (Nat.ltb_spec (base + D) (base + D)),
        (Nat.ltb_spec (base + D) (base + S D)); simpl; try lia.
      replace (base + D - base) with D by lia. reflexivity.
    + rewrite list_lookup_total_insert_ne by congruence. rewrite IH.
      destruct (Nat.leb_spec base i), (Nat.ltb_spec i (base + D)),
        (Nat.ltb_spec i (base + S D)); simpl; try reflexivity; lia.
Qed.

Lemma for_loop_row_length {A} (base D : nat) (f : nat -> list A -> A) (l : list A) :
  length (for_loop 0 D (fun d l => <[base + d := f d l]> l) l) = length l.
Proof.
  apply (for_loop_inv (fun _ l' => length l' = length l)); [lia|reflexivity|].
  intros i l' _ H. rewrite length_insert. exact H.
Qed.

Section ZeroMean.
Variable X : list Q.
Variable N D : nat.

(** The three loops of [zeroMean]. *)
Local Abbreviation sums k :=
  (for_loop 0 k
     (fun n mean =>
        for_loop 0 D
          (fun d mean => <[d := (mean !!! d + X !!! (n * D + d)%nat)%Q]> mean) mean)
     (replicate D 0%Q)).
Local Abbreviation means :=
  (for_loop 0 D (fun d mean => <[d := (mean !!! d / inject_Z (Z.of_nat N))%Q]> mean)
     (sums N)).
Local Abbreviation centred k :=
  (for_loop 0 k
     (fun n X' =>
        for_loop 0 D
          (fun d X' => <[n * D + d := (X' !!! (n * D + d)%nat - means !!! d)%Q]> X') X')
     X).

Lemma zeroMean_unfold : zeroMean X N D = centred N.
Proof. reflexivity. Qed.

Lemma sums_spec n :
  length (sums n) = D /\ forall d, d < D -> sums n !!! d = column_sum X n D d.
Proof.
  induction n as [|n [IHlen IH]].
  - rewrite for_loop_ge by lia. split; [apply length_replicate|].
    intros d Hd. unfold column_sum. rewrite for_loop_ge by lia.
    apply lookup_total_replicate_2, Hd.
  - rewrite for_loop_S by lia. split.
    + rewrite (for_loop_insert_length D
                 (fun d mean => (mean !!! d + X !!! (n * D + d)%nat)%Q)). exact IHlen.
    + intros d Hd.
      rewrite (for_loop_insert_lookup D (fun d a => (a + X !!! (n * D + d)%nat)%Q)) by lia.
      rewrite (proj2 (Nat.ltb_lt d D)) by exact Hd.
      unfold column_sum. rewrite for_loop_S by lia. f_equal. apply IH, Hd.
Qed.

Lemma means_spec d :
  d < D -> means !!! d = (column_sum X N D d / inject_Z (Z.of_nat N))%Q.
Proof.
  intros Hd. destruct (sums_spec N) as [Hlen Hs].
  rewrite (for_loop_insert_lookup D (fun d a => (a / inject_Z (Z.of_nat N))%Q)) by lia.
  rewrite (proj2 (Nat.ltb_lt d D)) by exact Hd. rewrite Hs by exact Hd. reflexivity.
Qed.

Lemma centred_spec n :
  n * D <= length X ->
  length (centred n) = length X /\
  forall i, centred n !!! i
            = if i <? n * D then (X !!! i - means !!! (i mod D))%Q else X !!! i.
Proof.
  induction n as [|n IH]; intros Hn.
  - rewrite for_loop_ge by lia. split; [reflexivity|]. intros i. reflexivity.
  - destruct IH as [IHlen IH]; [lia|]. rewrite for_loop_S by lia. split.
    + rewrite (for_loop_row_length (n * D) D
                 (fun d X' => (X' !!! (n * D + d)%nat - means !!! d)%Q)). exact IHlen.
    + intros i.
      rewrite (for_loop_row_lookup (n * D) D (fun d a => (a - means !!! d)%Q)) by lia.
      rewrite IH.
      destruct (Nat.leb_spec (n * D) i), (Nat.ltb_spec i (n * D + D)),
        (Nat.ltb_spec i (n * D)), (Nat.ltb_spec i (S n * D)); simpl; try reflexivity; try lia.
      f_equal. f_equal.
      replace i with ((i - n * D) + n * D) at 2 by lia.
      rewrite Nat.Div0.mod_add. symmetry. apply Nat.mod_small. lia.
Qed.

Lemma zeroMean_lookup n d :
  N * D <= length X -> n < N -> d < D ->
  zeroMean X N D !!! (n * D + d)
  = (X !!! (n * D + d)%nat - column_sum X N D d / inject_Z (Z.of_nat N))%Q.
Proof.
  intros Hlen Hn Hd. rewrite zeroMean_unfold.
  rewrite (proj2 (centred_spec N Hlen)).
  assert (Hlt : n * D + d < N * D) by nia.
  rewrite (proj2 (Nat.ltb_lt _ _)) by exact Hlt.
  replace ((n * D + d) mod D) with d.
  - rewrite means_spec by exact Hd. reflexivity.
  - rewrite Nat.add_comm, Nat.Div0.mod_add. symmetry. apply Nat.mod_small, Hd.
Qed.

Lemma zeroMean_length : N * D <= length X -> length (zeroMean X N D) = length X.
Proof. intros Hlen. rewrite zeroMean_unfold. apply (centred_spec N Hlen). Qed.

Lemma zeroMean_rest i :
  N * D <= length X -> N * D <= i -> zeroMean X N D !!! i = X !!! i.
Proof.
  intros Hlen Hi. rewrite zeroMean_unfold, (proj2 (centred_spec N Hlen)).
  rewrite (proj2 (Nat.ltb_ge _ _)) by exact Hi. reflexivity.
Qed.

End ZeroMean.

(** A column sum after a constant is taken from every entry of the column. *)
Lemma column_sum_shift (X X' : list Q) (N D d : nat) (c : Q) n :
  (forall r, r < n -> X' !!! (r * D + d) = (X !!! (r * D + d)%nat - c)%Q) ->
  (column_sum X' n D d == column_sum X n D d - inject_Z (Z.of_nat n) * c)%Q.
Proof.
  intros H. induction n as [|n IH].
  - unfold column_sum. rewrite !for_loop_ge by lia.
    change (inject_Z (Z.of_nat 0)) with 0%Q. lra.
  - unfold column_sum in *. rewrite !for_loop_S by lia.
    rewrite IH by (intros r Hr; apply H; lia). rewrite H by lia.
    rewrite Nat2Z.inj_succ. unfold Z.succ. rewrite inject_Z_plus.
    change (inject_Z 1) with 1%Q. lra.
Qed.

Lemma zeroMean_column_sum (X : list Q) (N D d : nat) :
  0 < N -> N * D <= length X -> d < D ->
  (column_sum (zeroMean X N D) N D d == 0)%Q.
Proof.
  intros HN Hlen Hd.
  rewrite (column_sum_shift X (zeroMean X N D) N D d
             (column_sum X N D d / inject_Z (Z.of_nat N))%Q N).
  - assert (Hnz : ~ (inject_Z (Z.of_nat N) == 0)%Q).
    { change 0%Q with (inject_Z 0). rewrite inject_Z_injective. lia. }
    field. exact Hnz.
  - intros r Hr. apply zeroMean_lookup; assumption.
Qed.

(** ** The training loop, iteration by iteration *)

Import Tsne OptimSpec DataSpec RunSpec.

Section TrainingFacts.
Variable flog : Q -> Q.
Variable SplitTree : Type.
Variable new_SplitTree : list Q -> nat -> nat -> SplitTree.
Variable computeNonEdgeForces :
  SplitTree -> nat -> Q -> list Q -> nat -> Q -> list Q * Q.
Variable sign : Q -> Q.
Variable randn : nat -> Q.

Local Abbreviation gradient := (computeGradient flog SplitTree new_SplitTree computeNonEdgeForces).
Local Abbreviation step := (iteration flog SplitTree new_SplitTree computeNonEdgeForces sign).
Local Abbreviation loop :=
  (training_loop flog SplitTree new_SplitTree computeNonEdgeForces sign randn).

(** The fields an iteration leaves, from the state [u] after its loop over
    the coordinates, which starts with the new gradient [dC]. *)
Lemma iteration_fields row col N no_dims theta eta max_iter sl ms e v it s :
  exists dC,
    let u := for_loop 0 (N * no_dims) (update_body sign eta)
               (mkRun (Y s) dC (uY s) (gains s) (val s) (momentum s) (log s)) in
    let s' := step row col N no_dims theta eta max_iter sl ms e v it s in
    Y s' = zeroMean (Y u) N no_dims /\ uY s' = uY u /\ gains s' = gains u /\
    momentum s' = (if (Z.of_nat it =? ms)%Z then final_momentum else momentum u) /\
    log s' = (if need_eval_error v max_iter it
              then log u ++ [if it =? 0 then msg_iteration_first else msg_iteration]
              else log u).
Proof.
  unfold iteration.
  destruct (gradient _ _ _ _ _ _ _) as [err dC]. exists dC. cbv zeta.
  set (u := for_loop 0 (N * no_dims) (update_body sign eta) _). clearbody u.
  destruct (Z.of_nat it =? sl)%Z, (Z.of_nat it =? ms)%Z, (need_eval_error v max_iter it);
    simpl; repeat split.
Qed.

Lemma update_loop_scalars eta n s :
  momentum (for_loop 0 n (update_body sign eta) s) = momentum s /\
  log (for_loop 0 n (update_body sign eta) s) = log s.
Proof.
  apply (for_loop_inv (fun _ s' => momentum s' = momentum s /\ log s' = log s));
    [lia|split; reflexivity|].
  intros i s' _ H. exact H.
Qed.

Lemma iteration_sized row col N no_dims theta eta max_iter sl ms e v it s :
  sized N no_dims s ->
  sized N no_dims (step row col N no_dims theta eta max_iter sl ms e v it s).
Proof.
  intros (HY & HU & HG).
  destruct (iteration_fields row col N no_dims theta eta max_iter sl ms e v it s)
    as (dC & EY & EU & EG & _).
  destruct (update_loop_spec sign eta (N * no_dims)
              (mkRun (Y s) dC (uY s) (gains s) (val s) (momentum s) (log s)) HY HU HG)
    as (_ & (LY & LU & LG) & _).
  cbv zeta in LY, LU, LG. simpl in LY, LU, LG.
  unfold sized. rewrite EY, EU, EG, LU, LG.
  rewrite zeroMean_length by (rewrite LY; exact HY). rewrite LY.
  repeat split; assumption.
Qed.

Lemma initial_Y_length Y0 N no_dims init_from_Y :
  length (initial_Y randn Y0 N no_dims init_from_Y) = length Y0.
Proof.
  unfold initial_Y. destruct init_from_Y; [reflexivity|].
  apply (for_loop_insert_length (N * no_dims) (fun i _ => randn i)).
Qed.

Lemma start_state_sized P N no_dims Y0 init_from_Y e log0 :
  N * no_dims <= length Y0 ->
  sized N no_dims (start_state randn P N no_dims Y0 init_from_Y e log0).
Proof.
  intros H. unfold sized, start_state. simpl.
  rewrite initial_Y_length, !length_replicate. lia.
Qed.

Lemma training_loop_sized P N no_dims Y0 theta max_iter n_iter init_from_Y verbose e eta log0 t :
  N * no_dims <= length Y0 ->
  sized N no_dims
    (loop P N no_dims Y0 theta max_iter n_iter init_from_Y verbose e eta log0 t).
Proof.
  intros H. unfold training_loop. cbv zeta.
  apply (for_loop_inv (fun _ s => sized N no_dims s)); [lia| |].
  - apply start_state_sized, H.
  - intros i s _ Hs. apply iteration_sized, Hs.
Qed.

Lemma new_gain_bound g dy u : (0.05 < g)%Q -> (0.05 < new_gain sign g dy u)%Q.
Proof.
  intros H. unfold new_gain. destruct (negb _); lra.
Qed.

Lemma iteration_gains row col N no_dims theta eta max_iter sl ms e v it s :
  sized N no_dims s ->
  (forall i, i < N * no_dims -> (0.05 < gains s !!! i)%Q) ->
  forall i, i < N * no_dims ->
    (0.05 < gains (step row col N no_dims theta eta max_iter sl ms e v it s) !!! i)%Q.
Proof.
  intros (HY & HU & HG) Hb i Hi.
  destruct (iteration_fields row col N no_dims theta eta max_iter sl ms e v it s)
    as (dC & _ & _ & EG & _).
  destruct (update_loop_spec sign eta (N * no_dims)
              (mkRun (Y s) dC (uY s) (gains s) (val s) (momentum s) (log s)) HY HU HG)
    as (_ & _ & Hl).
  cbv zeta in Hl. destruct (Hl i) as (G & _). simpl in G.
  rewrite EG, G. rewrite (proj2 (Nat.ltb_lt _ _)) by exact Hi.
  apply new_gain_bound, Hb, Hi.
Qed.

Lemma training_loop_gains P N no_dims Y0 theta max_iter n_iter init_from_Y verbose e eta log0 t i :
  N * no_dims <= length Y0 -> i < N * no_dims ->
  (0.05 < gains (loop P N no_dims Y0 theta max_iter n_iter init_from_Y verbose e eta log0 t)
          !!! i)%Q.
Proof.
  intros H Hi. unfold training_loop. cbv zeta.
  enough (Hinv : sized N no_dims
            (for_loop 0 t
               (step (row_P P) (col_P P) N no_dims theta eta max_iter
                     (stop_lying n_iter init_from_Y) n_iter e verbose)
               (start_state randn P N no_dims Y0 init_from_Y e log0)) /\
          forall i, i < N * no_dims ->
            (0.05 < gains (for_loop 0 t
               (step (row_P P) (col_P P) N no_dims theta eta max_iter
                     (stop_lying n_iter init_from_Y) n_iter e verbose)
               (start_state randn P N no_dims Y0 init_from_Y e log0)) !!! i)%Q)
    by (apply Hinv, Hi).
  apply (for_loop_inv (fun _ s => sized N no_dims s /\
           forall i, i < N * no_dims -> (0.05 < gains s !!! i)%Q)); [lia| |].
  - split; [apply start_state_sized, H|]. intros j Hj. simpl.
    rewrite lookup_total_replicate_2 by exact Hj. reflexivity.
  - intros j s _ [Hs Hb]. split; [apply iteration_sized, Hs|].
    apply iteration_gains; assumption.
Qed.

Lemma training_loop_momentum P N no_dims Y0 theta max_iter n_iter init_from_Y verbose e eta log0 t :
  momentum (loop P N no_dims Y0 theta max_iter n_iter init_from_Y verbose e eta log0 t)
  = if (0 <=? n_iter)%Z && (n_iter <? Z.of_nat t)%Z then final_momentum else 0.5%Q.
Proof.
  unfold training_loop. cbv zeta. induction t as [|t IH].
  - rewrite for_loop_ge by lia. simpl.
    destruct (Z.leb_spec 0 n_iter), (Z.ltb_spec n_iter (Z.of_nat 0)); simpl;
      try reflexivity; lia.
  - rewrite for_loop_S by lia.
    match goal with |- momentum (step ?row ?col _ _ _ _ _ ?sl _ _ _ _ ?s) = _ =>
      destruct (iteration_fields row col N no_dims theta eta max_iter sl n_iter e verbose t s)
        as (dC & _ & _ & _ & EM & _) end.
    rewrite EM. rewrite (proj1 (update_loop_scalars _ _ _)). simpl momentum at 1.
    rewrite IH.
    destruct (Z.eqb_spec (Z.of_nat t) n_iter), (Z.leb_spec 0 n_iter),
      (Z.ltb_spec n_iter (Z.of_nat t)), (Z.ltb_spec n_iter (Z.of_nat (S t)));
      simpl; try reflexivity; lia.
Qed.

Lemma training_loop_centred P N no_dims Y0 theta max_iter n_iter init_from_Y verbose e eta log0 t d :
  N * no_dims <= length Y0 -> 0 < N -> d < no_dims ->
  (column_sum (Y (loop P N no_dims Y0 theta max_iter n_iter init_from_Y verbose e eta log0 (S t)))
              N no_dims d == 0)%Q.
Proof.
  intros H HN Hd.
  pose proof (training_loop_sized P N no_dims Y0 theta max_iter n_iter init_from_Y
                verbose e eta log0 t H) as (HY & HU & HG).
  unfold training_loop in *. cbv zeta in *. rewrite for_loop_S by lia.
  set (s := for_loop 0 t _ _) in *. clearbody s.
  match goal with |- context [step ?row ?col _ _ _ _ _ ?sl ?ms _ _ _ s] =>
    destruct (iteration_fields row col N no_dims theta eta max_iter sl ms e verbose t s)
      as (dC & EY & _);
    destruct (update_loop_spec sign eta (N * no_dims)
                (mkRun (Y s) dC (uY s) (gains s) (val s) (momentum s) (log s)) HY HU HG)
      as (_ & (LY & _) & _) end.
  cbv zeta in LY. simpl in LY.
  rewrite EY. apply zeroMean_column_sum; [exact HN| |exact Hd].
  rewrite LY. exact HY.
Qed.

End TrainingFacts.

(** ** The gradient and the messages *)

Import VpTree Tsne OptimSpec DataSpec RunSpec.

Section GradientFacts.
Variable flog : Q -> Q.
Variable SplitTree : Type.
Variable new_SplitTree : list Q -> nat -> nat -> SplitTree.
Variable computeNonEdgeForces :
  SplitTree -> nat -> Q -> list Q -> nat -> Q -> list Q * Q.

Local Abbreviation gradient := (computeGradient flog SplitTree new_SplitTree computeNonEdgeForces).

(** Without [eval_error] the two accumulators of the error stay 0. *)
Lemma edge_body_no_error P Y0 no_dims n i st :
  P_i_sum st = 0%Q /\ C st = 0%Q ->
  P_i_sum (edge_body flog P Y0 no_dims false n i st) = 0%Q /\
  C (edge_body flog P Y0 no_dims false n i st) = 0%Q.
Proof. intros H. exact H. Qed.

Lemma gradient_body_no_error P Y0 no_dims theta tree n st :
  P_i_sum st = 0%Q /\ C st = 0%Q ->
  P_i_sum (gradient_body flog SplitTree computeNonEdgeForces P Y0 no_dims theta false tree n st)
  = 0%Q /\
  C (gradient_body flog SplitTree computeNonEdgeForces P Y0 no_dims theta false tree n st)
  = 0%Q.
Proof.
  intros H. unfold gradient_body.
  assert (Hl : P_i_sum (for_loop (row_P P !!! n) (row_P P !!! (n + 1))
                          (edge_body flog P Y0 no_dims false n) st) = 0%Q /\
               C (for_loop (row_P P !!! n) (row_P P !!! (n + 1))
                    (edge_body flog P Y0 no_dims false n) st) = 0%Q).
  { destruct (decide (row_P P !!! n <= row_P P !!! (n + 1))) as [Hle|Hgt].
    - apply (for_loop_inv (fun _ s => P_i_sum s = 0%Q /\ C s = 0%Q)); [exact Hle|exact H|].
      intros i s _ Hs. apply edge_body_no_error, Hs.
    - rewrite for_loop_ge by lia. exact H. }
  destruct (computeNonEdgeForces _ _ _ _ _ _) as [nf this_Q]. exact Hl.
Qed.

Lemma computeGradient_no_error P Y0 N no_dims dC theta :
  (fst (gradient P Y0 N no_dims dC theta false) == 0)%Q.
Proof.
  unfold computeGradient. cbv zeta. simpl fst.
  set (init := mkGrad _ _ _ _ _).
  assert (Hl : P_i_sum (for_loop 0 N
                 (gradient_body flog SplitTree computeNonEdgeForces P Y0 no_dims theta false
                    (new_SplitTree Y0 N no_dims)) init) = 0%Q /\
               C (for_loop 0 N
                 (gradient_body flog SplitTree computeNonEdgeForces P Y0 no_dims theta false
                    (new_SplitTree Y0 N no_dims)) init) = 0%Q).
  { apply (for_loop_inv (fun _ s => P_i_sum s = 0%Q /\ C s = 0%Q)); [lia|split; reflexivity|].
    intros i s _ Hs. apply gradient_body_no_error, Hs. }
  destruct Hl as [-> ->]. lra.
Qed.

(** [dC] is written in full: what it held before does not matter. *)
Lemma computeGradient_overwrites P Y0 N no_dims dC dC' theta eval_error :
  length dC = N * no_dims -> length dC' = N * no_dims ->
  snd (gradient P Y0 N no_dims dC theta eval_error)
  = snd (gradient P Y0 N no_dims dC' theta eval_error).
Proof.
  intros H H'. unfold computeGradient. cbv zeta. simpl snd.
  set (st := for_loop 0 N _ _). clearbody st.
  set (sum_Q := for_loop 0 N _ 0%Q). clearbody sum_Q.
  apply list_eq_same_length with (N * no_dims).
  - rewrite (for_loop_insert_length (N * no_dims)
               (fun i _ => (pos_f st !!! i - neg_f st !!! i / sum_Q)%Q)). exact H'.
  - rewrite (for_loop_insert_length (N * no_dims)
               (fun i _ => (pos_f st !!! i - neg_f st !!! i / sum_Q)%Q)). exact H.
  - intros i x y Hi Hx Hy.
    apply list_lookup_total_correct in Hx, Hy. subst x y.
    rewrite !(for_loop_set_lookup (N * no_dims)
                (fun i => (pos_f st !!! i - neg_f st !!! i / sum_Q)%Q)) by lia.
    rewrite (proj2 (Nat.ltb_lt _ _)) by exact Hi. reflexivity.
Qed.

End GradientFacts.

(** ** The messages of a run *)

Import VpTree Tsne OptimSpec DataSpec RunSpec.

Section MessageFacts.
Variable fexp : Q -> Q.
Variable flog : Q -> Q.
Variable rand : nat -> Z.
Variable RAND_MAX : Z.
Variable nth_element :
  nat -> nat -> nat -> (DataPoint -> DataPoint -> bool) ->
  list DataPoint -> list DataPoint.
Variable read_steps : nat -> nat.
Variable SplitTree : Type.
Variable new_SplitTree : list Q -> nat -> nat -> SplitTree.
Variable computeNonEdgeForces :
  SplitTree -> nat -> Q -> list Q -> nat -> Q -> list Q * Q.
Variable sign : Q -> Q.
Variable randn : nat -> Q.

Local Abbreviation similarities := (computeGaussianPerplexity fexp flog rand RAND_MAX nth_element read_steps).
Local Abbreviation step := (iteration flog SplitTree new_SplitTree computeNonEdgeForces sign).
Local Abbreviation loop :=
  (training_loop flog SplitTree new_SplitTree computeNonEdgeForces sign randn).

(** [verbose] reaches the messages of a point, not its row. *)
Lemma point_body_verbose tree objs N K perplexity v1 v2 n st1 st2 :
  fst st1 = fst st2 ->
  fst (point_body fexp flog read_steps tree objs N K perplexity v1 n st1)
  = fst (point_body fexp flog read_steps tree objs N K perplexity v2 n st2).
Proof.
  destruct st1 as [P1 log1], st2 as [P2 log2]. simpl. intros ->.
  unfold point_body. destruct (search _ _ _ _ _) as [indices distances].
  destruct (for_loop 0 K _ _) as [col val]. reflexivity.
Qed.

Lemma point_body_quiet tree objs N K perplexity n st :
  snd (point_body fexp flog read_steps tree objs N K perplexity false n st) = snd st.
Proof.
  destruct st as [P log]. unfold point_body.
  destruct (search _ _ _ _ _) as [indices distances].
  destruct (for_loop 0 K _ _) as [col val]. reflexivity.
Qed.

Lemma similarities_verbose X N D perplexity K :
  fst (similarities X N D perplexity K true) = fst (similarities X N D perplexity K false).
Proof.
  unfold computeGaussianPerplexity. cbv zeta.
  apply (for_loop_rel (fun a b => fst a = fst b)); [reflexivity|].
  intros n a b _ Hab. apply point_body_verbose, Hab.
Qed.

Lemma similarities_quiet X N D perplexity K :
  snd (similarities X N D perplexity K false)
  = if Qlt_bool (inject_Z (Z.of_nat K)) perplexity then [msg_perplexity_K] else [].
Proof.
  unfold computeGaussianPerplexity. cbv zeta.
  match goal with |- snd (for_loop 0 N ?body (?P, ?l)) = _ =>
    apply (for_loop_inv (fun _ s => snd s = l) 0 N body (P, l)) end; [lia|reflexivity|].
  intros n s _ Hs. rewrite point_body_quiet. exact Hs.
Qed.

Lemma input_similarities_unfold X N D perplexity verbose :
  input_similarities fexp flog rand RAND_MAX nth_element read_steps X N D perplexity verbose
  = let '(P, log') :=
      similarities (scaled (zeroMean X N D) (N * D)) N D
                   (clamped_perplexity N perplexity) (neighbours N perplexity) verbose in
    (normalize_P (symmetrizeMatrix P N) N,
     (if Qlt_bool (inject_Z (Z.of_nat N - 1)) (3 * perplexity)%Q && verbose
      then [msg_perplexity_large] else []) ++ log').
Proof. reflexivity. Qed.

Lemma iteration_quiet row col N no_dims theta eta max_iter sl ms e it s :
  log (step row col N no_dims theta eta max_iter sl ms e false it s) = log s.
Proof.
  destruct (iteration_fields flog SplitTree new_SplitTree computeNonEdgeForces sign
              row col N no_dims theta eta max_iter sl ms e false it s)
    as (dC & _ & _ & _ & _ & EL).
  cbv zeta in EL. rewrite EL. unfold need_eval_error. simpl.
  rewrite (proj2 (update_loop_scalars sign eta _ _)). reflexivity.
Qed.

Lemma training_loop_quiet P N no_dims Y0 theta max_iter n_iter init_from_Y e eta log0 t :
  log (loop P N no_dims Y0 theta max_iter n_iter init_from_Y false e eta log0 t) = log0.
Proof.
  unfold training_loop. cbv zeta.
  apply (for_loop_inv (fun _ s => log s = log0)); [lia|reflexivity|].
  intros i s _ Hs. rewrite iteration_quiet. exact Hs.
Qed.

(** The perplexity after the first test of [run], and the neighbours asked
    for. *)
Lemma clamped_perplexity_nonneg N perplexity :
  (0 <= perplexity)%Q -> (0 <= clamped_perplexity N perplexity)%Q.
Proof.
  intros H. unfold clamped_perplexity. destruct (Qlt_bool _ _) eqn:E; [|exact H].
  apply Qlt_bool_iff in E.
  change 0%Q with (inject_Z 0). rewrite <- Zle_Qle.
  destruct N as [|N].
  - reflexivity.
  - apply Z.quot_pos; lia.
Qed.

Lemma to_int_nonneg q : (0 <= q)%Q -> to_int q = Qfloor q.
Proof.
  intros H. unfold to_int. destruct (Qlt_bool q 0) eqn:E; [|reflexivity].
  apply Qlt_bool_iff in E. lra.
Qed.

Lemma neighbours_floor N perplexity :
  (0 <= perplexity)%Q ->
  Z.of_nat (neighbours N perplexity) = Qfloor (3 * clamped_perplexity N perplexity).
Proof.
  intros H. pose proof (clamped_perplexity_nonneg N perplexity H) as Hc.
  unfold neighbours. rewrite to_int_nonneg by lra.
  apply Z2Nat.id. change 0%Z with (Qfloor 0). apply Qfloor_resp_le. lra.
Qed.

Lemma neighbours_bound N perplexity :
  0 < N -> (0 <= perplexity)%Q -> neighbours N perplexity + 1 <= N.
Proof.
  intros HN H. pose proof (neighbours_floor N perplexity H) as HK.
  enough (Qfloor (3 * clamped_perplexity N perplexity) <= Z.of_nat N - 1)%Z by lia.
  unfold clamped_perplexity. destruct (Qlt_bool _ _) eqn:E.
  - rewrite <- (inject_Z_mult 3), Qfloor_Z.
    pose proof (Z.quot_rem' (Z.of_nat N - 1) 3) as Hq.
    pose proof (Z.rem_nonneg (Z.of_nat N - 1) 3) as Hr. lia.
  - apply Qlt_bool_false in E.
    rewrite <- (Qfloor_Z (Z.of_nat N - 1)). apply Qfloor_resp_le, E.
Qed.

(** The test [perplexity > K] of [computeGaussianPerplexity], for the
    arguments [run] passes. *)
Lemma warning_test N perplexity :
  (0 <= perplexity)%Q ->
  Qlt_bool (inject_Z (Z.of_nat (neighbours N perplexity))) (clamped_perplexity N perplexity)
  = Qlt_bool 0 (clamped_perplexity N perplexity)
    && Qlt_bool (clamped_perplexity N perplexity) (1 # 3).
Proof.
  intros H. rewrite (neighbours_floor N perplexity H).
  pose proof (clamped_perplexity_nonneg N perplexity H) as Hc.
  set (p := clamped_perplexity N perplexity) in *. clearbody p.
  pose proof (Qfloor_le (3 * p)) as Hlo. pose proof (Qlt_floor (3 * p)) as Hhi.
  rewrite inject_Z_plus in Hhi. change (inject_Z 1) with 1%Q in Hhi.
  destruct (Qlt_bool 0 p) eqn:E0; cbn [andb].
  - apply Qlt_bool_iff in E0. destruct (Qlt_bool p (1 # 3)) eqn:E1.
    + apply Qlt_bool_iff in E1. apply Qlt_bool_iff.
      assert (Hz : (Qfloor (3 * p) <= 0)%Z).
      { apply Z.lt_succ_r. rewrite Zlt_Qlt. change (inject_Z (Z.succ 0)) with 1%Q. lra. }
      rewrite Zle_Qle in Hz. change (inject_Z 0) with 0%Q in Hz. lra.
    + apply Qlt_bool_false in E1. apply Qlt_bool_false.
      assert (Hz : (1 <= Qfloor (3 * p))%Z).
      { change 1%Z with (Qfloor 1). apply Qfloor_resp_le. lra. }
      destruct (Qlt_le_dec p (1 # 2)) as [Hs|Hl].
      * rewrite Zle_Qle in Hz. change (inject_Z 1) with 1%Q in Hz. lra.
      * lra.
  - apply Qlt_bool_false in E0. apply Qlt_bool_false.
    assert (Hz : (0 <= Qfloor (3 * p))%Z).
    { change 0%Z with (Qfloor 0). apply Qfloor_resp_le. lra. }
    rewrite Zle_Qle in Hz. change (inject_Z 0) with 0%Q in Hz. lra.
Qed.

Lemma run_quiet_log X N D Y0 no_dims perplexity theta max_iter n_iter init_from_Y e eta fe :
  snd (run fexp flog rand RAND_MAX nth_element read_steps SplitTree new_SplitTree
         computeNonEdgeForces sign randn X N D Y0 no_dims perplexity theta max_iter
         n_iter init_from_Y false e eta fe)
  = if Qlt_bool (inject_Z (Z.of_nat (neighbours N perplexity)))
                (clamped_perplexity N perplexity)
    then [msg_perplexity_K] else [].
Proof.
  unfold run. rewrite input_similarities_unfold.
  pose proof (similarities_quiet (scaled (zeroMean X N D) (N * D)) N D
                (clamped_perplexity N perplexity) (neighbours N perplexity)) as Hq.
  destruct (similarities _ _ _ _ _ _) as [P log']. simpl in Hq. subst log'.
  rewrite andb_false_r. simpl app. unfold train. simpl snd.
  apply training_loop_quiet.
Qed.

End MessageFacts.

(** ** The search: how many results, and which *)

Import VpTree VpSpec KnnSpec.

Section KnnFacts.
Variable distance : DataPoint -> DataPoint -> Q.
Variable items : list DataPoint.
Variable target : DataPoint.
Variable k : nat.
Hypothesis k_pos : 0 < k.
Hypothesis distance_nonneg : forall a, (0 <= distance a target)%Q.

Local Abbreviation search_inv := (search_inv distance items target k).
Local Abbreviation visit := (visit distance items target k).
Local Abbreviation covered := (covered distance items target).
Local Abbreviation go := (fun t st => search_node distance items t target k st).

Lemma inv_length root st : search_inv root st -> length (fst st) <= k.
Proof. destruct st as [heap tau]. intros (_ & _ & H & _). exact H. Qed.

Lemma inv_not_full root st :
  search_inv root st -> length (fst st) < k -> snd st = DBL_MAX.
Proof. destruct st as [heap tau]. intros (_ & _ & _ & H & _). exact H. Qed.

Lemma inv_full root st :
  search_inv root st -> length (fst st) = k -> snd st = top_dist (fst st).
Proof. destruct st as [heap tau]. intros (_ & _ & _ & _ & H). exact H. Qed.

Lemma inv_descending root st : search_inv root st -> descending (fst st).
Proof. destruct st as [heap tau]. intros (H & _). exact H. Qed.

Lemma inv_dist root st h :
  search_inv root st -> h ∈ fst st ->
  hindex h ∈ nodes root /\ dist h = distance (items !!! hindex h) target.
Proof. destruct st as [heap tau]. intros (_ & H & _). apply H. Qed.

(** The two ways a visit ends: the queue is kept, or the point is pushed,
    after the farthest item is dropped from a full queue. *)
Lemma visit_cases root idx st :
  search_inv root st ->
  let d := distance (items !!! idx) target in
  ((snd st <= d)%Q /\ visit idx st = st) \/
  ((d < snd st)%Q /\
   exists heap',
     visit idx st
     = (push (mkHeapItem idx d) heap',
        if S (length heap') =? k then top_dist (push (mkHeapItem idx d) heap') else snd st) /\
     ((length (fst st) < k /\ heap' = fst st) \/
      (length (fst st) = k /\ exists h0, fst st = h0 :: heap' /\ dist h0 = snd st))).
Proof.
  intros Hinv. cbv zeta.
  pose proof (inv_length _ _ Hinv) as Hle.
  pose proof (inv_full _ _ Hinv) as Hfull.
  destruct st as [heap tau]. cbn [fst snd] in *. unfold VpSpec.visit.
  destruct (Qlt_bool _ tau) eqn:E.
  - right. apply Qlt_bool_iff in E. split; [exact E|]. unfold size.
    destruct (length heap =? k) eqn:Ek.
    + apply Nat.eqb_eq in Ek. destruct heap as [|h0 rest]; [simpl in Ek; lia|].
      exists rest. cbv zeta. rewrite length_push. split; [reflexivity|].
      right. split; [exact Ek|]. exists h0. split; [reflexivity|].
      rewrite (Hfull Ek). reflexivity.
    + apply Nat.eqb_neq in Ek. exists heap. cbv zeta. rewrite length_push.
      split; [reflexivity|]. left. split; [lia|reflexivity].
  - left. apply Qlt_bool_false in E. split; [exact E|reflexivity].
Qed.

Lemma visit_length root idx st :
  search_inv root st -> (distance (items !!! idx) target < DBL_MAX)%Q ->
  length (fst (visit idx st)) = Nat.min k (S (length (fst st))).
Proof.
  intros Hinv Hb. pose proof (inv_length _ _ Hinv) as Hle.
  pose proof (inv_not_full _ _ Hinv) as Hnf.
  destruct (visit_cases root idx st Hinv) as [[Hge E]|[Hlt (heap' & E & Hc)]].
  - rewrite E. destruct (decide (length (fst st) < k)) as [Hl|Hl]; [|lia].
    rewrite (Hnf Hl) in Hge. lra.
  - rewrite E. cbn [fst]. rewrite length_push.
    destruct Hc as [[Hl ->]|[Hl (h0 & E0 & _)]]; [lia|].
    rewrite E0 in Hl |- *. simpl in *. lia.
Qed.

Lemma count_step root (c : bool) t' s :
  (forall s, search_inv root s ->
     length (fst (go t' s)) = Nat.min k (length (fst s) + length (nodes t'))) ->
  search_inv root s ->
  (length (fst s) < k -> c = true) ->
  length (fst (if c then go t' s else s))
  = Nat.min k (length (fst s) + length (nodes t')).
Proof.
  intros IH Hs Hc. destruct c; [apply IH, Hs|].
  pose proof (inv_length _ _ Hs) as Hle.
  destruct (decide (length (fst s) < k)) as [Hl|Hl]; [specialize (Hc Hl); discriminate|lia].
Qed.

Lemma keeps_step root (c : bool) t' s :
  (forall i, i ∈ nodes t' -> i ∈ nodes root) ->
  search_inv root s -> search_inv root (if c then go t' s else s).
Proof.
  intros Hsub Hs. destruct c; [|exact Hs].
  apply (search_node_keeps distance items target k k_pos distance_nonneg root t' s Hsub Hs).
Qed.

(** As long as the queue is not full nothing is pruned: a search of a tree
    whose distances stay below [DBL_MAX] fills the queue up to [k]. *)
Lemma search_node_count root t :
  forall st, (forall i, i ∈ nodes t -> i ∈ nodes root) -> search_inv root st ->
    (forall i, i ∈ nodes t -> (distance (items !!! i) target < DBL_MAX)%Q) ->
    (forall th, th ∈ thresholds t -> (0 <= th <= DBL_MAX)%Q) ->
    length (fst (go t st)) = Nat.min k (length (fst st) + length (nodes t)).
Proof.
  induction t as [|idx th l IHl r IHr]; intros st Hsub Hinv Hdist Hth.
  - pose proof (inv_length _ _ Hinv). simpl. lia.
  - rewrite search_node_unfold. cbv zeta.
    assert (Hidx : idx ∈ nodes root) by (apply Hsub; left).
    assert (Hl : forall i, i ∈ nodes l -> i ∈ nodes root).
    { intros i Hi. apply Hsub. simpl. right. apply elem_of_app. left. exact Hi. }
    assert (Hr : forall i, i ∈ nodes r -> i ∈ nodes root).
    { intros i Hi. apply Hsub. simpl. right. apply elem_of_app. right. exact Hi. }
    assert (Hd : (distance (items !!! idx) target < DBL_MAX)%Q) by (apply Hdist; left).
    assert (Hth0 : (0 <= th <= DBL_MAX)%Q) by (apply Hth; left).
    pose proof (distance_nonneg (items !!! idx)) as Hd0.
    pose proof (visit_inv distance items target k k_pos distance_nonneg root idx st Hidx Hinv)
      as Hv.
    pose proof (visit_length root idx st Hinv Hd) as Hlen1.
    set (st1 := visit idx st) in *. clearbody st1.
    set (d := distance (items !!! idx) target) in *. clearbody d.
    assert (IHl' : forall s, search_inv root s ->
              length (fst (go l s)) = Nat.min k (length (fst s) + length (nodes l))).
    { intros s Hs. apply IHl; [exact Hl|exact Hs| |].
      - intros i Hi. apply Hdist. simpl. right. apply elem_of_app. left. exact Hi.
      - intros t' Ht'. apply Hth. simpl. right. apply elem_of_app. left. exact Ht'. }
    assert (IHr' : forall s, search_inv root s ->
              length (fst (go r s)) = Nat.min k (length (fst s) + length (nodes r))).
    { intros s Hs. apply IHr; [exact Hr|exact Hs| |].
      - intros i Hi. apply Hdist. simpl. right. apply elem_of_app. right. exact Hi.
      - intros t' Ht'. apply Hth. simpl. right. apply elem_of_app. right. exact Ht'. }
    assert (Hleft : forall s, search_inv root s -> length (fst s) < k ->
              Qle_bool (d - snd s) th = true).
    { intros s Hs Hlt. rewrite (inv_not_full _ _ Hs Hlt). apply Qle_bool_iff. lra. }
    assert (Hright : forall s, search_inv root s -> length (fst s) < k ->
              Qle_bool th (d + snd s) = true).
    { intros s Hs Hlt. rewrite (inv_not_full _ _ Hs Hlt). apply Qle_bool_iff. lra. }
    simpl nodes. rewrite length_cons, length_app.
    destruct (is_null l && is_null r) eqn:En.
    { apply andb_true_iff in En as [El Er].
      destruct l, r; try discriminate. simpl. lia. }
    destruct (Qlt_bool d th).
    + pose proof (count_step root _ l st1 IHl' Hv (Hleft st1 Hv)) as H1.
      pose proof (keeps_step root (Qle_bool (d - snd st1) th) l st1 Hl Hv) as Hv2.
      set (st2 := if Qle_bool (d - snd st1) th then go l st1 else st1) in *. clearbody st2.
      rewrite (count_step root _ r st2 IHr' Hv2 (Hright st2 Hv2)). lia.
    + pose proof (count_step root _ r st1 IHr' Hv (Hright st1 Hv)) as H1.
      pose proof (keeps_step root (Qle_bool th (d + snd st1)) r st1 Hr Hv) as Hv2.
      set (st2 := if Qle_bool th (d + snd st1) then go r st1 else st1) in *. clearbody st2.
      rewrite (count_step root _ l st2 IHl' Hv2 (Hleft st2 Hv2)). lia.
Qed.

(** *** The nearest points, for a distance with the triangle inequality *)

Lemma top_dist_in (q : pqueue) : q <> [] -> exists y, y ∈ q /\ top_dist q = dist y.
Proof.
  destruct q as [|y q]; [congruence|]. intros _. exists y. split; [left|reflexivity].
Qed.

Lemma push_nonempty h q : push h q <> [].
Proof.
  intros E. pose proof (length_push h q) as H. rewrite E in H. simpl in H. lia.
Qed.

Local Abbreviation step_ok := (step_ok distance items target k).

Lemma step_ok_refl root st : search_inv root st -> below st -> step_ok root st st.
Proof. intros H1 H2. split; [exact H1|]. split; [exact H2|]. split; [lra|tauto]. Qed.

Lemma step_ok_trans root st1 st2 st3 :
  step_ok root st1 st2 -> step_ok root st2 st3 -> step_ok root st1 st3.
Proof.
  intros (_ & _ & T1 & C1) (I2 & B2 & T2 & C2).
  split; [exact I2|]. split; [exact B2|]. split; [lra|]. intros q Hq. apply C2, C1, Hq.
Qed.

Lemma visit_step root idx st :
  idx ∈ nodes root -> search_inv root st -> below st ->
  step_ok root st (visit idx st) /\ covered idx (visit idx st).
Proof.
  intros Hidx Hinv Hbel.
  pose proof (visit_inv distance items target k k_pos distance_nonneg root idx st Hidx Hinv)
    as Hv.
  pose proof (inv_descending _ _ Hv) as Hdesc.
  destruct (visit_cases root idx st Hinv) as [[Hge E]|[Hlt (heap' & E & Hc)]].
  - rewrite E. split; [apply step_ok_refl; assumption|]. right. exact Hge.
  - rewrite E in *. cbn [fst snd] in *.
    set (h := mkHeapItem idx (distance (items !!! idx) target)) in *.
    assert (Hsub : forall y, y ∈ heap' -> y ∈ fst st).
    { destruct Hc as [[_ ->]|[_ (h0 & -> & _)]]; [tauto|]. intros y Hy. right. exact Hy. }
    assert (Htop : (top_dist (push h heap') <= snd st)%Q).
    { destruct (top_dist_in (push h heap') (push_nonempty h heap')) as (y & Hy & ->).
      apply elem_of_push in Hy as [->|Hy]; [apply Qlt_le_weak, Hlt|].
      apply Hbel, Hsub, Hy. }
    assert (Htau : ((if S (length heap') =? k then top_dist (push h heap') else snd st)
                    <= snd st)%Q).
    { destruct (S (length heap') =? k); [exact Htop|lra]. }
    split; [split; [exact Hv|split; [|split; [exact Htau|]]]|].
    + intros y Hy. cbn [fst snd] in *. destruct (S (length heap') =? k).
      * apply descending_top_max; assumption.
      * apply elem_of_push in Hy as [->|Hy]; [apply Qlt_le_weak, Hlt|].
        apply Hbel, Hsub, Hy.
    + intros q [(y & Hy & Hq)|Hq].
      * destruct Hc as [[_ ->]|[_ (h0 & E0 & Eh0)]].
        -- left. exists y. split; [apply elem_of_push; right; exact Hy|exact Hq].
        -- rewrite E0 in Hy. apply elem_of_cons in Hy as [->|Hy].
           ++ right. cbn [snd].
              destruct (inv_dist root st h0 Hinv) as [_ Ed]; [rewrite E0; left|].
              rewrite <- Hq, <- Ed, Eh0. exact Htau.
           ++ left. exists y. split; [apply elem_of_push; right; exact Hy|exact Hq].
      * right. cbn [snd]. lra.
    + left. exists h. split; [apply elem_of_push; left; reflexivity|reflexivity].
Qed.

Hypothesis distance_sym : forall a b, (distance a b == distance b a)%Q.
Hypothesis distance_triangle :
  forall a b c, (distance a c <= distance a b + distance b c)%Q.

Lemma exact_step root (c : bool) t' s :
  (forall s, search_inv root s -> below s ->
     step_ok root s (go t' s) /\ forall q, q ∈ nodes t' -> covered q (go t' s)) ->
  search_inv root s -> below s ->
  (c = false -> forall q, q ∈ nodes t' -> (snd s <= distance (items !!! q) target)%Q) ->
  step_ok root s (if c then go t' s else s) /\
  forall q, q ∈ nodes t' -> covered q (if c then go t' s else s).
Proof.
  intros IH Hs Hb Hc. destruct c; [apply IH; assumption|].
  split; [apply step_ok_refl; assumption|]. intros q Hq. right. apply Hc; [reflexivity|exact Hq].
Qed.

Lemma search_node_exact root t :
  forall st, (forall i, i ∈ nodes t -> i ∈ nodes root) ->
    search_inv root st -> below st -> vp_ok distance items t ->
    step_ok root st (go t st) /\ forall q, q ∈ nodes t -> covered q (go t st).
Proof.
  induction t as [|idx th l IHl r IHr]; intros st Hsub Hinv Hbel Hok.
  - split; [apply step_ok_refl; assumption|]. intros q Hq. inversion Hq.
  - rewrite search_node_unfold. cbv zeta.
    assert (Hidx : idx ∈ nodes root) by (apply Hsub; left).
    assert (Hl : forall i, i ∈ nodes l -> i ∈ nodes root).
    { intros i Hi. apply Hsub. simpl. right. apply elem_of_app. left. exact Hi. }
    assert (Hr : forall i, i ∈ nodes r -> i ∈ nodes root).
    { intros i Hi. apply Hsub. simpl. right. apply elem_of_app. right. exact Hi. }
    destruct Hok as (Hleft & Hright & Hokl & Hokr).
    destruct (visit_step root idx st Hidx Hinv Hbel) as [S1 C1].
    set (st1 := visit idx st) in *. clearbody st1.
    set (d := distance (items !!! idx) target) in *.
    assert (IHl' : forall s, search_inv root s -> below s ->
              step_ok root s (go l s) /\ forall q, q ∈ nodes l -> covered q (go l s)).
    { intros s Hs Hb. apply IHl; assumption. }
    assert (IHr' : forall s, search_inv root s -> below s ->
              step_ok root s (go r s) /\ forall q, q ∈ nodes r -> covered q (go r s)).
    { intros s Hs Hb. apply IHr; assumption. }
    assert (Pl : forall s : pqueue * Q, Qle_bool (d - snd s) th = false ->
              forall q, q ∈ nodes l -> (snd s <= distance (items !!! q) target)%Q).
    { intros s E q Hq. apply Qle_bool_false in E.
      pose proof (Hleft q Hq) as H1.
      pose proof (distance_triangle (items !!! idx) (items !!! q) target) as H2.
      fold d in H2. lra. }
    assert (Pr : forall s : pqueue * Q, Qle_bool th (d + snd s) = false ->
              forall q, q ∈ nodes r -> (snd s <= distance (items !!! q) target)%Q).
    { intros s E q Hq. apply Qle_bool_false in E.
      pose proof (Hright q Hq) as H1.
      pose proof (distance_triangle (items !!! idx) target (items !!! q)) as H2.
      pose proof (distance_sym target (items !!! q)) as H3.
      fold d in H2. lra. }
    assert (Hfin : forall st3, step_ok root st1 st3 ->
              (forall q, q ∈ nodes l -> covered q st3) ->
              (forall q, q ∈ nodes r -> covered q st3) ->
              step_ok root st st3 /\
              forall q, q ∈ nodes (MkNode idx th l r) -> covered q st3).
    { intros st3 S3 Cl Cr. split; [eapply step_ok_trans; eassumption|].
      intros q Hq. simpl in Hq. apply elem_of_cons in Hq as [->|Hq].
      - destruct S3 as (_ & _ & _ & K). apply K, C1.
      - apply elem_of_app in Hq as [Hq|Hq]; [apply Cl|apply Cr]; exact Hq. }
    destruct S1 as (I1 & B1 & T1 & K1).
    destruct (is_null l && is_null r) eqn:En.
    { apply andb_true_iff in En as [El Er]. destruct l, r; try discriminate.
      apply Hfin; [apply step_ok_refl; assumption| |]; intros q Hq; inversion Hq. }
    destruct (Qlt_bool d th).
    + destruct (exact_step root (Qle_bool (d - snd st1) th) l st1 IHl' I1 B1 (Pl st1))
        as [S2 C2].
      set (st2 := if Qle_bool (d - snd st1) th then go l st1 else st1) in *. clearbody st2.
      destruct S2 as (I2 & B2 & T2 & K2).
      destruct (exact_step root (Qle_bool th (d + snd st2)) r st2 IHr' I2 B2 (Pr st2))
        as [S3 C3].
      apply Hfin.
      * eapply step_ok_trans; [|exact S3]. split; [exact I2|]. split; [exact B2|].
        split; [exact T2|exact K2].
      * intros q Hq. destruct S3 as (_ & _ & _ & K3). apply K3, C2, Hq.
      * exact C3.
    + destruct (exact_step root (Qle_bool th (d + snd st1)) r st1 IHr' I1 B1 (Pr st1))
        as [S2 C2].
      set (st2 := if Qle_bool th (d + snd st1) then go r st1 else st1) in *. clearbody st2.
      destruct S2 as (I2 & B2 & T2 & K2).
      destruct (exact_step root (Qle_bool (d - snd st2) th) l st2 IHl' I2 B2 (Pl st2))
        as [S3 C3].
      apply Hfin.
      * eapply step_ok_trans; [|exact S3]. split; [exact I2|]. split; [exact B2|].
        split; [exact T2|exact K2].
      * exact C3.
      * intros q Hq. destruct S3 as (_ & _ & _ & K3). apply K3, C2, Hq.
Qed.

End KnnFacts.

(** ** Building the tree *)

Import VpTree VpBuild VpSpec KnnSpec BuildSpec.

Lemma lookup_of_total {A} `{!Inhabited A} (l1 l2 : list A) i :
  length l1 = length l2 -> l1 !!! i = l2 !!! i -> l1 !! i = l2 !! i.
Proof.
  intros Hlen H. destruct (decide (i < length l1)) as [Hi|Hi].
  - rewrite !list_lookup_lookup_total_lt by lia. rewrite H. reflexivity.
  - rewrite !lookup_ge_None_2 by lia. reflexivity.
Qed.

Lemma seg_perm_length a b v v' : seg_perm a b v v' -> length v' = length v.
Proof. intros [H _]. apply Permutation_length, H. Qed.

Lemma seg_perm_refl a b v : seg_perm a b v v.
Proof. split; [reflexivity|]. intros j _. reflexivity. Qed.

Lemma seg_perm_sym a b v v' : seg_perm a b v v' -> seg_perm a b v' v.
Proof. intros [H1 H2]. split; [symmetry; exact H1|]. intros j Hj. symmetry. apply H2, Hj. Qed.

Lemma seg_perm_trans a b v1 v2 v3 :
  seg_perm a b v1 v2 -> seg_perm a b v2 v3 -> seg_perm a b v1 v3.
Proof.
  intros [P1 O1] [P2 O2]. split; [etransitivity; eassumption|].
  intros j Hj. rewrite O2, O1 by exact Hj. reflexivity.
Qed.

Lemma seg_perm_widen a b a' b' v v' :
  a' <= a -> b <= b' -> seg_perm a b v v' -> seg_perm a' b' v v'.
Proof. intros Ha Hb [P1 O1]. split; [exact P1|]. intros j Hj. apply O1. lia. Qed.

(** The entries of the range come from the range. *)
Lemma seg_perm_elem a b v v' j :
  seg_perm a b v v' -> a <= j < b -> b <= length v ->
  exists j', a <= j' < b /\ v' !!! j = v !!! j'.
Proof.
  intros Hs Hj Hb. pose proof (seg_perm_length _ _ _ _ Hs) as Hlen.
  destruct Hs as [Hp Ho].
  assert (Hpre : take a v' = take a v).
  { apply list_eq. intros i. destruct (decide (i < a)) as [Hi|Hi].
    - rewrite !lookup_take_lt by exact Hi. apply lookup_of_total; [exact Hlen|].
      apply Ho. left. exact Hi.
    - rewrite !lookup_take_ge by lia. reflexivity. }
  assert (Hpost : drop b v' = drop b v).
  { apply list_eq. intros i. rewrite !lookup_drop. apply lookup_of_total; [exact Hlen|].
    apply Ho. right. lia. }
  assert (Hsplit : forall w : list DataPoint,
            w = take a w ++ take (b - a) (drop a w) ++ drop b w).
  { intros w. rewrite <- (take_drop a w) at 1. f_equal.
    rewrite <- (take_drop (b - a) (drop a w)) at 1. f_equal.
    rewrite drop_drop. f_equal. lia. }
  rewrite (Hsplit v), (Hsplit v'), Hpre, Hpost in Hp.
  apply Permutation_app_inv_l, Permutation_app_inv_r in Hp.
  assert (Hin : v' !!! j ∈ take (b - a) (drop a v')).
  { replace (v' !!! j) with (take (b - a) (drop a v') !!! (j - a)).
    - apply list_elem_of_lookup_total_2. rewrite length_take, length_drop. lia.
    - rewrite lookup_total_take_lt by lia. rewrite lookup_total_drop. f_equal. lia. }
  rewrite Hp in Hin. apply list_elem_of_lookup_total_1 in Hin as (i & Hi & E).
  rewrite length_take, length_drop in Hi.
  exists (a + i). split; [lia|]. rewrite <- E.
  rewrite lookup_total_take_lt by lia. rewrite lookup_total_drop. reflexivity.
Qed.

Lemma swap_seg_perm a b (v : list DataPoint) i j :
  a <= i < b -> a <= j < b -> b <= length v -> seg_perm a b v (swap v i j).
Proof.
  intros Hi Hj Hb. unfold swap. split.
  - apply Permutation_inj. split; [rewrite !length_insert; reflexivity|].
    exists (fun n => if decide (n = i) then j else if decide (n = j) then i else n). split.
    + intros x y. repeat case_decide; lia.
    + intros n. destruct (decide (n = j)) as [->|Hnj].
      * rewrite list_lookup_insert_eq by (rewrite length_insert; lia).
        destruct (decide (j = i)) as [->|_];
          symmetry; apply list_lookup_lookup_total_lt; lia.
      * rewrite list_lookup_insert_ne by congruence.
        destruct (decide (n = i)) as [->|Hni].
        -- rewrite list_lookup_insert_eq by lia.
           symmetry; apply list_lookup_lookup_total_lt; lia.
        -- rewrite list_lookup_insert_ne by congruence. reflexivity.
  - intros n Hn. rewrite !list_lookup_total_insert_ne by lia. reflexivity.
Qed.

Lemma vp_ok_ext distance (v v' : list DataPoint) t :
  (forall i, i ∈ nodes t -> v' !!! i = v !!! i) ->
  vp_ok distance v t -> vp_ok distance v' t.
Proof.
  induction t as [|idx th l IHl r IHr]; intros He Hok; [exact I|].
  destruct Hok as (Hl & Hr & Hokl & Hokr). simpl.
  assert (El : forall i, i ∈ nodes l -> v' !!! i = v !!! i).
  { intros i Hi. apply He. simpl. right. apply elem_of_app. left. exact Hi. }
  assert (Er : forall i, i ∈ nodes r -> v' !!! i = v !!! i).
  { intros i Hi. apply He. simpl. right. apply elem_of_app. right. exact Hi. }
  assert (E0 : v' !!! idx = v !!! idx) by (apply He; left).
  split; [|split; [|split; [apply IHl|apply IHr]; assumption]].
  - intros q Hq. rewrite E0, (El q Hq). apply Hl, Hq.
  - intros q Hq. rewrite E0, (Er q Hq). apply Hr, Hq.
Qed.

Section BuildFacts.
Variable distance : DataPoint -> DataPoint -> Q.
Variable rand : nat -> Z.
Variable RAND_MAX : Z.
Variable nth_element :
  nat -> nat -> nat -> (DataPoint -> DataPoint -> bool) ->
  list DataPoint -> list DataPoint.
Hypothesis rand_ok : rand_post rand RAND_MAX.
Hypothesis nth_element_ok : nth_element_post distance nth_element.

Local Abbreviation build := (buildFromPoints distance rand RAND_MAX nth_element).
Local Abbreviation built := (built distance).

(** The index [rand()] chooses lies in the range. *)
Lemma rand_index calls n :
  Z.to_nat (Qfloor (inject_Z (rand calls) / inject_Z RAND_MAX * inject_Z (Z.of_nat n))) <= n.
Proof.
  destruct rand_ok as [Hmax Hr]. specialize (Hr calls).
  enough (Qfloor (inject_Z (rand calls) / inject_Z RAND_MAX * inject_Z (Z.of_nat n))
          <= Z.of_nat n)%Z by lia.
  rewrite <- (Qfloor_Z (Z.of_nat n)) at 2. apply Qfloor_resp_le.
  assert (H1 : (0 < inject_Z RAND_MAX)%Q).
  { change 0%Q with (inject_Z 0). rewrite <- Zlt_Qlt. exact Hmax. }
  assert (H2 : (inject_Z (rand calls) <= inject_Z RAND_MAX)%Q).
  { rewrite <- Zle_Qle. lia. }
  assert (H3 : (0 <= inject_Z (Z.of_nat n))%Q).
  { change 0%Q with (inject_Z 0). rewrite <- Zle_Qle. lia. }
  assert (H4 : (inject_Z (rand calls) / inject_Z RAND_MAX <= 1)%Q).
  { apply Qle_shift_div_r; [exact H1|]. lra. }
  nra.
Qed.

Lemma build_spec fuel :
  forall lower upper items calls,
    lower <= upper -> upper <= length items -> upper - lower <= fuel ->
    built lower upper items
          (fst (build fuel lower upper (items, calls)))
          (fst (snd (build fuel lower upper (items, calls)))).
Proof.
  induction fuel as [|fuel IH]; intros lower upper items calls Hlu Hup Hfuel.
  - assert (upper = lower) by lia. subst upper. simpl.
    split; [apply seg_perm_refl|]. rewrite Nat.sub_diag.
    split; [reflexivity|]. split; [exact I|]. intros th Hth. inversion Hth.
  - cbn [buildFromPoints]. destruct (Nat.eqb_spec upper lower) as [->|Hne].
    { simpl. split; [apply seg_perm_refl|]. rewrite Nat.sub_diag.
      split; [reflexivity|]. split; [exact I|]. intros th Hth. inversion Hth. }
    destruct (Nat.ltb_spec 1 (upper - lower)) as [Hbig|Hsmall].
    2:{ assert (upper = S lower) by lia. subst upper. simpl.
        split; [apply seg_perm_refl|].
        split; [replace (S lower - lower) with 1 by lia; reflexivity|].
        split; [repeat split; intros q Hq; inversion Hq|].
        intros th Hth. apply list_elem_of_singleton in Hth. left. exact Hth. }
    pose proof (rand_index calls (upper - lower - 1)) as Hi.
    set (i := Z.to_nat _ + lower) in *.
    set (median := (upper + lower) / 2).
    assert (Hmed : lower + 1 <= median < upper).
    { subst median. split.
      - apply Nat.div_le_lower_bound; lia.
      - apply Nat.Div0.div_lt_upper_bound; lia. }
    pose proof (swap_seg_perm lower upper items lower i
                  ltac:(lia) ltac:(subst i; lia) Hup) as Hswap.
    set (items1 := swap items lower i) in *. clearbody items1.
    pose proof (seg_perm_length _ _ _ _ Hswap) as L1.
    destruct (nth_element_ok (lower + 1) median upper (items1 !!! lower) items1
                ltac:(lia) ltac:(lia) ltac:(lia)) as (Hnth & Hlow & Hhigh).
    cbv zeta in Hnth, Hlow, Hhigh.
    set (items2 := nth_element (lower + 1) median upper
                     (DistanceComparator distance (items1 !!! lower)) items1) in *.
    clearbody items2.
    pose proof (seg_perm_length _ _ _ _ Hnth) as L2.
    assert (E2 : items2 !!! lower = items1 !!! lower).
    { apply (proj2 Hnth). lia. }
    rewrite <- E2 in Hlow, Hhigh.
    pose proof (IH (lower + 1) median items2 (S calls)
                  ltac:(lia) ltac:(lia) ltac:(lia)) as Hl.
    destruct (build fuel (lower + 1) median (items2, S calls)) as [l [items3 calls3]].
    cbn [fst snd] in Hl. destruct Hl as (Sl & Nl & Okl & Tl).
    pose proof (seg_perm_length _ _ _ _ Sl) as L3.
    pose proof (IH median upper items3 calls3 ltac:(lia) ltac:(lia) ltac:(lia)) as Hr.
    destruct (build fuel median upper (items3, calls3)) as [r [items4 calls4]].
    cbn [fst snd] in Hr |- *. destruct Hr as (Sr & Nr & Okr & Tr).
    pose proof (seg_perm_length _ _ _ _ Sr) as L4.
    assert (E4 : forall j, j < median -> items4 !!! j = items3 !!! j).
    { intros j Hj. apply (proj2 Sr). left. exact Hj. }
    assert (E3 : forall j, j < lower + 1 \/ median <= j -> items3 !!! j = items2 !!! j).
    { intros j Hj. apply (proj2 Sl). exact Hj. }
    assert (E0 : items4 !!! lower = items2 !!! lower).
    { rewrite E4 by lia. apply E3. lia. }
    assert (Hin_l : forall q, q ∈ nodes l <-> lower + 1 <= q < median).
    { intros q. rewrite Nl, elem_of_seq. lia. }
    assert (Hin_r : forall q, q ∈ nodes r <-> median <= q < upper).
    { intros q. rewrite Nr, elem_of_seq. lia. }
    split; [|split; [|split]].
    + apply seg_perm_trans with items1; [exact Hswap|].
      apply seg_perm_trans with items2; [apply (seg_perm_widen (lower + 1) upper); [lia..|exact Hnth]|].
      apply seg_perm_trans with items3; [apply (seg_perm_widen (lower + 1) median); [lia..|exact Sl]|].
      apply (seg_perm_widen median upper); [lia..|exact Sr].
    + simpl. rewrite Nl, Nr.
      replace (upper - lower) with (S ((median - (lower + 1)) + (upper - median))) by lia.
      simpl. f_equal. rewrite seq_app. f_equal; [f_equal; lia|f_equal; lia].
    + simpl. split; [|split; [|split]].
      * intros q Hq. apply Hin_l in Hq. rewrite E0, (E4 q) by lia.
        destruct (seg_perm_elem (lower + 1) median items2 items3 q Sl Hq ltac:(lia))
          as (q' & Hq' & ->).
        specialize (Hlow q' Hq'). unfold DistanceComparator in Hlow.
        apply Qlt_bool_false in Hlow. exact Hlow.
      * intros q Hq. apply Hin_r in Hq.
        destruct (seg_perm_elem median upper items3 items4 q Sr Hq ltac:(lia))
          as (q' & Hq' & ->).
        rewrite E0, (E3 q') by lia.
        specialize (Hhigh q' Hq'). unfold DistanceComparator in Hhigh.
        apply Qlt_bool_false in Hhigh. exact Hhigh.
      * apply (vp_ok_ext distance items3); [|exact Okl].
        intros q Hq. apply Hin_l in Hq. apply E4. lia.
      * exact Okr.
    + intros th Hth. simpl in Hth. apply elem_of_cons in Hth as [->|Hth].
      * right.
        destruct (seg_perm_elem median upper items4 items3 median
                    (seg_perm_sym _ _ _ _ Sr) ltac:(lia) ltac:(lia)) as (j & Hj & Ej).
        exists lower, j. split; [lia|]. split; [lia|].
        rewrite E0, <- Ej, E3 by lia. reflexivity.
      * apply elem_of_app in Hth as [Hth|Hth].
        -- destruct (Tl th Hth) as [->|(a & b & Ha & Hb & ->)]; [left; reflexivity|].
           right. exists a, b. split; [lia|]. split; [lia|].
           rewrite !E4 by lia. reflexivity.
        -- destruct (Tr th Hth) as [->|(a & b & Ha & Hb & ->)]; [left; reflexivity|].
           right. exists a, b. split; [lia|]. split; [lia|]. reflexivity.
Qed.

Lemma create_spec items :
  built 0 (length items) items
        (snd (create distance rand RAND_MAX nth_element items))
        (fst (create distance rand RAND_MAX nth_element items)).
Proof.
  unfold create.
  pose proof (build_spec (length items) 0 (length items) items 0
                ltac:(lia) ltac:(lia) ltac:(lia)) as H.
  destruct (build (length items) 0 (length items) (items, 0)) as [root [items' calls]].
  exact H.
Qed.

End BuildFacts.

(** ** A sorting [nth_element] keeps the promise of [std::nth_element] *)

Import VpTree VpBuild VpSpec KnnSpec BuildSpec.

Lemma StronglySorted_lookup_total {A} `{!Inhabited A} (R : relation A) (l : list A) i j :
  StronglySorted R l -> i < j < length l -> R (l !!! i) (l !!! j).
Proof.
  intros Hs. revert i j. induction Hs as [|x l Hs IH Hall]; intros i j Hij.
  - simpl in Hij. lia.
  - destruct j as [|j]; [lia|]. destruct i as [|i].
    + simpl. rewrite Forall_forall in Hall. apply Hall.
      apply list_elem_of_lookup_total_2. simpl in Hij. lia.
    + simpl. apply IH. simpl in Hij. lia.
Qed.

Section SortFacts.
Variable distance : DataPoint -> DataPoint -> Q.
Variable item : DataPoint.

Local Abbreviation comp := (DistanceComparator distance item).

#[local] Instance not_below_total : Total (not_below comp).
Proof.
  intros a b. unfold not_below, DistanceComparator.
  destruct (Qlt_le_dec (distance item b) (distance item a)) as [H|H].
  - right. apply Qlt_bool_false. apply Qlt_le_weak, H.
  - left. apply Qlt_bool_false. exact H.
Qed.

#[local] Instance not_below_trans : Transitive (not_below comp).
Proof.
  intros a b c. unfold not_below, DistanceComparator.
  rewrite !Qlt_bool_false. intros H1 H2. eapply Qle_trans; eassumption.
Qed.

Lemma not_below_refl a : not_below comp a a.
Proof. unfold not_below, DistanceComparator. apply Qlt_bool_false, Qle_refl. Qed.

Lemma nth_element_sort_spec first nth last (v : list DataPoint) :
  first <= nth -> nth < last -> last <= length v ->
  let v' := nth_element_sort first nth last comp v in
  seg_perm first last v v' /\
  (forall j, first <= j < nth -> comp (v' !!! nth) (v' !!! j) = false) /\
  (forall j, nth <= j < last -> comp (v' !!! j) (v' !!! nth) = false).
Proof.
  intros H1 H2 H3. cbv zeta. unfold nth_element_sort.
  set (mid := take (last - first) (drop first v)).
  pose proof (StronglySorted_merge_sort (not_below comp) mid) as Hs.
  pose proof (merge_sort_Permutation (not_below comp) mid) as Hp.
  set (sorted := merge_sort (not_below comp) mid) in *. clearbody sorted.
  assert (Lmid : length mid = last - first).
  { subst mid. rewrite length_take, length_drop. lia. }
  assert (Ls : length sorted = last - first).
  { rewrite (Permutation_length Hp). exact Lmid. }
  assert (Lt : length (take first v) = first) by (rewrite length_take; lia).
  assert (Hin : forall j, first <= j < last ->
            (take first v ++ sorted ++ drop last v) !!! j = sorted !!! (j - first)).
  { intros j Hj. rewrite lookup_total_app_r by lia. rewrite Lt.
    rewrite lookup_total_app_l by lia. reflexivity. }
  split; [split|split].
  - rewrite Hp. subst mid.
    rewrite <- (take_drop first v) at 4. f_equal.
    rewrite <- (take_drop (last - first) (drop first v)) at 2.
    rewrite drop_drop. replace (first + (last - first)) with last by lia. reflexivity.
  - intros j [Hj|Hj].
    + rewrite lookup_total_app_l by lia. apply lookup_total_take_lt, Hj.
    + rewrite lookup_total_app_r by lia. rewrite Lt.
      rewrite lookup_total_app_r by lia. rewrite Ls, lookup_total_drop.
      f_equal. lia.
  - intros j Hj. rewrite !Hin by lia.
    apply (StronglySorted_lookup_total (not_below comp) sorted (j - first) (nth - first) Hs).
    lia.
  - intros j Hj. rewrite !Hin by lia.
    destruct (decide (j = nth)) as [->|Hne]; [apply not_below_refl|].
    apply (StronglySorted_lookup_total (not_below comp) sorted (nth - first) (j - first) Hs).
    lia.
Qed.

End SortFacts.

Lemma nth_element_sort_post distance : nth_element_post distance nth_element_sort.
Proof.
  intros first nth last item v H1 H2 H3.
  apply (nth_element_sort_spec distance item first nth last v H1 H2 H3).
Qed.

Lemma rand_zero_post : rand_post Examples.rand_zero Examples.RAND_MAX.
Proof. split; [reflexivity|]. intros n. unfold Examples.rand_zero, Examples.RAND_MAX. lia. Qed.

(** ** The matrix of [computeGaussianPerplexity] *)

Import VpTree VpBuild VpSpec KnnSpec BuildSpec Tsne SymSpec RunSpec.



Section MatrixFacts.
Variable fexp : Q -> Q.
Variable flog : Q -> Q.
Variable read_steps : nat -> nat.



End MatrixFacts.

(** ** The neighbours of a point are distinct points *)

Import VpTree VpBuild VpSpec KnnSpec BuildSpec Tsne SymSpec RunSpec.





Lemma push_Permutation h q : push h q ≡ₚ h :: q.
Proof.
  induction q as [|y q IH]; simpl; [reflexivity|].
  destruct (Qle_bool (dist y) (dist h)); [reflexivity|].
  rewrite IH. apply Permutation_swap.
Qed.

(** The queue never holds a point twice. *)
Lemma visit_nodup distance items target k idx st :
  NoDup (hindex <$> fst st) -> (forall h, h ∈ fst st -> hindex h <> idx) ->
  NoDup (hindex <$> fst (visit distance items target k idx st)) /\
  forall h, h ∈ fst (visit distance items target k idx st) -> h ∈ fst st \/ hindex h = idx.
Proof.
  destruct st as [heap tau]. cbn [fst]. intros Hnd Hfresh. unfold visit.
  destruct (Qlt_bool _ tau); [|split; [exact Hnd|tauto]]. cbv zeta. cbn [fst].
  set (heap' := if size heap =? k then pop heap else heap).
  assert (Hsub : forall y, y ∈ heap' -> y ∈ heap).
  { subst heap'. destruct (size heap =? k); [|tauto].
    destruct heap; simpl; [tauto|]. intros y Hy. right. exact Hy. }
  assert (Hnd' : NoDup (hindex <$> heap')).
  { subst heap'. destruct (size heap =? k); [|exact Hnd].
    destruct heap; simpl in *; [exact Hnd|]. apply NoDup_cons in Hnd. tauto. }
  clearbody heap'. split.
  - rewrite push_Permutation. simpl. apply NoDup_cons. split; [|exact Hnd'].
    intros Hin. apply list_elem_of_fmap in Hin as (y & Ey & Hy).
    apply (Hfresh y (Hsub y Hy)). symmetry. exact Ey.
  - intros y Hy. rewrite push_Permutation in Hy.
    apply elem_of_cons in Hy as [->|Hy]; [right; reflexivity|left; apply Hsub, Hy].
Qed.

Lemma search_node_nodup distance items target k t :
  forall st, NoDup (nodes t) -> NoDup (hindex <$> fst st) ->
    (forall h, h ∈ fst st -> hindex h ∉ nodes t) ->
    NoDup (hindex <$> fst (search_node distance items t target k st)) /\
    forall h, h ∈ fst (search_node distance items t target k st) ->
              h ∈ fst st \/ hindex h ∈ nodes t.
Proof.
  induction t as [|idx th l IHl r IHr]; intros st Hnt Hnd Hfresh.
  - simpl. split; [exact Hnd|tauto].
  - rewrite search_node_unfold. cbv zeta.
    simpl in Hnt. apply NoDup_cons in Hnt as [Hidx Hnt].
    apply NoDup_app in Hnt as (Hnl & Hlr & Hnr).
    destruct (visit_nodup distance items target k idx st Hnd) as [N1 S1].
    { intros h Hh E. apply (Hfresh h Hh). rewrite E. left. }
    set (st1 := visit distance items target k idx st) in *. clearbody st1.
    assert (Hstep : forall (c : bool) t' s,
              (forall s, NoDup (hindex <$> fst s) ->
                 (forall h, h ∈ fst s -> hindex h ∉ nodes t') ->
                 NoDup (hindex <$> fst (search_node distance items t' target k s)) /\
                 forall h, h ∈ fst (search_node distance items t' target k s) ->
                           h ∈ fst s \/ hindex h ∈ nodes t') ->
              NoDup (hindex <$> fst s) ->
              (forall h, h ∈ fst s -> hindex h ∉ nodes t') ->
              NoDup (hindex <$> fst (if c then search_node distance items t' target k s else s)) /\
              forall h, h ∈ fst (if c then search_node distance items t' target k s else s) ->
                        h ∈ fst s \/ hindex h ∈ nodes t').
    { intros [] t' s IH Hs Hf; [apply IH; assumption|]. split; [exact Hs|tauto]. }
    assert (F1l : forall h, h ∈ fst st1 -> hindex h ∉ nodes l).
    { intros h Hh Hin. destruct (S1 h Hh) as [H0|H0].
      - apply (Hfresh h H0). simpl. right. apply elem_of_app. left. exact Hin.
      - apply Hidx. rewrite <- H0. apply elem_of_app. left. exact Hin. }
    assert (F1r : forall h, h ∈ fst st1 -> hindex h ∉ nodes r).
    { intros h Hh Hin. destruct (S1 h Hh) as [H0|H0].
      - apply (Hfresh h H0). simpl. right. apply elem_of_app. right. exact Hin.
      - apply Hidx. rewrite <- H0. apply elem_of_app. right. exact Hin. }
    assert (Hfin : forall st3 : pqueue * Q, NoDup (hindex <$> fst st3) ->
              (forall h, h ∈ fst st3 -> h ∈ fst st1 \/ hindex h ∈ nodes l \/ hindex h ∈ nodes r) ->
              NoDup (hindex <$> fst st3) /\
              forall h, h ∈ fst st3 -> h ∈ fst st \/ hindex h ∈ nodes (MkNode idx th l r)).
    { intros st3 N3 S3. split; [exact N3|]. intros h Hh. simpl.
      destruct (S3 h Hh) as [H0|[H0|H0]].
      - destruct (S1 h H0) as [H1|H1]; [left; exact H1|right; rewrite H1; left].
      - right. right. apply elem_of_app. left. exact H0.
      - right. right. apply elem_of_app. right. exact H0. }
    destruct (is_null l && is_null r); [apply Hfin; [exact N1|tauto]|].
    destruct (Qlt_bool _ th).
    + destruct (Hstep (Qle_bool (distance (items !!! idx) target - snd st1) th) l st1
                  (fun s => IHl s Hnl) N1 F1l) as [N2 S2].
      set (st2 := if Qle_bool (distance (items !!! idx) target - snd st1) th
                  then search_node distance items l target k st1 else st1) in *.
      clearbody st2.
      destruct (Hstep (Qle_bool th (distance (items !!! idx) target + snd st2)) r st2
                  (fun s => IHr s Hnr) N2) as [N3 S3].
      { intros h Hh Hin. destruct (S2 h Hh) as [H0|H0].
        - apply (F1r h H0 Hin).
        - apply (Hlr _ H0 Hin). }
      apply Hfin; [exact N3|]. intros h Hh.
      destruct (S3 h Hh) as [H0|H0]; [|tauto]. destruct (S2 h H0); tauto.
    + destruct (Hstep (Qle_bool th (distance (items !!! idx) target + snd st1)) r st1
                  (fun s => IHr s Hnr) N1 F1r) as [N2 S2].
      set (st2 := if Qle_bool th (distance (items !!! idx) target + snd st1)
                  then search_node distance items r target k st1 else st1) in *.
      clearbody st2.
      destruct (Hstep (Qle_bool (distance (items !!! idx) target - snd st2) th) l st2
                  (fun s => IHl s Hnl) N2) as [N3 S3].
      { intros h Hh Hin. destruct (S2 h Hh) as [H0|H0].
        - apply (F1l h H0 Hin).
        - apply (Hlr _ Hin H0). }
      apply Hfin; [exact N3|]. intros h Hh.
      destruct (S3 h Hh) as [H0|H0]; [|tauto]. destruct (S2 h H0); tauto.
Qed.

Section NeighbourFacts.
Variable rand : nat -> Z.
Variable RAND_MAX : Z.
Variable nth_element :
  nat -> nat -> nat -> (DataPoint -> DataPoint -> bool) ->
  list DataPoint -> list DataPoint.
Hypothesis rand_ok : rand_post rand RAND_MAX.
Hypothesis nth_element_ok : nth_element_post euclidean_distance_squared nth_element.
Variable X : list Q.
Variable N D K : nat.

Local Abbreviation objs := (obj_X X N D).
Local Abbreviation tree :=
  (create euclidean_distance_squared rand RAND_MAX nth_element (obj_X X N D)).
Local Abbreviation heap_of n :=
  (fst (search_node euclidean_distance_squared (fst tree) (snd tree) (objs !!! n) (K + 1)
          ([], DBL_MAX))).

Hypothesis enough : K + 1 <= N.
Hypothesis bounded :
  forall a b, a < N -> b < N ->
    (euclidean_distance_squared (objs !!! a) (objs !!! b) < DBL_MAX)%Q.












End NeighbourFacts.

(** ** The symmetrized matrix is a sparse matrix again *)

Import Tsne SymSpec.

Lemma entries_NoDup P N : NoDup (entries P N).
Proof.
  unfold entries. apply NoDup_bind.
  - intros n1 n2 e _ _ H1 H2.
    apply list_elem_of_fmap in H1 as (i1 & -> & _).
    apply list_elem_of_fmap in H2 as (i2 & E & _). congruence.
  - intros n _. apply NoDup_fmap_2; [|apply NoDup_seq].
    intros i1 i2 E. congruence.
  - apply NoDup_seq.
Qed.

Lemma NoDup_split_unique {A} (l a a' b b' : list A) x :
  NoDup l -> l = a ++ x :: b -> l = a' ++ x :: b' -> a = a'.
Proof.
  intros Hnd E E'.
  assert (Hl : length a = length a').
  { apply (NoDup_lookup l _ _ x Hnd).
    - rewrite E. apply list_lookup_middle. reflexivity.
    - rewrite E'. apply list_lookup_middle. reflexivity. }
  rewrite E in E'. apply app_inj_1 in E' as [E1 _]; assumption.
Qed.

Lemma for_loop_sum_pos n (g : nat -> Q) :
  0 < n -> (forall m, m < n -> (0 < g m)%Q) ->
  (0 < for_loop 0 n (fun m s => (s + g m)%Q) 0%Q)%Q.
Proof.
  intros Hn Hg. destruct n as [|n]; [lia|]. rewrite for_loop_S by lia.
  pose proof (for_loop_sum_ge n g 0%Q) as H. cbv beta in H.
  specialize (H (fun m Hm => Qlt_le_weak _ _ (Hg m ltac:(lia)))).
  specialize (Hg n ltac:(lia)). lra.
Qed.

Lemma sum_list_with_elem {A} (f : A -> nat) (l : list A) x :
  x ∈ l -> f x <= sum_list_with f l.
Proof.
  induction l as [|y l IH]; intros Hx; [inversion Hx|].
  simpl. apply elem_of_cons in Hx as [->|Hx]; [lia|]. specialize (IH Hx). lia.
Qed.

Section SymmetrizedMatrix.
Variable P : csr.
Variable N : nat.
Hypothesis wf : csr_wf P N.

Local Abbreviation sr := (sym_row_P P N).
Local Abbreviation rc := (row_counts P N).
Local Abbreviation O := (offsets_after P).
Local Abbreviation S := (symmetrizeMatrix P N).
Local Abbreviation col := (fun i => col_P P !!! i).

(** The entry of [P] that filled a slot of row [n] of the result. *)
Lemma row_slot n i :
  n < N -> in_row S n i ->
  exists es1 e es2,
    entries P N = es1 ++ e :: es2 /\ emitted P e = true /\ valid P N e /\
    sr !!! n + O es1 n = i /\
    ((fst e = n /\ col_P S !!! i = col (snd e)) \/
     (col (snd e) = n /\ col_P S !!! i = fst e)) /\
    val_P S !!! i = (pair_value P e / 2)%Q.
Proof.
  intros Hn [H1 H2]. unfold symmetrizeMatrix in H1, H2. cbv zeta in H1, H2.
  cbn [row_P] in H1, H2.
  destruct (sym_row_P_spec P N) as (_ & _ & Hs). rewrite (Hs n Hn) in H2.
  assert (Hk : i - sr !!! n < O (entries P N) n).
  { rewrite <- (row_counts_total P N wf n Hn). lia. }
  destruct (rank_split P _ _ _ Hk) as (es1 & e & es2 & He & Ho & Hr).
  apply offset1_emitted in Ho as [Hem Hend].
  destruct (stored_pair P N wf es1 e es2 He Hem) as [S1 S2].
  assert (Hv : valid P N e).
  { apply (entries_valid P N wf). rewrite He. apply elem_of_app. right. left. }
  assert (Ei : sr !!! n + O es1 n = i) by lia.
  exists es1, e, es2. split; [exact He|]. split; [exact Hem|]. split; [exact Hv|].
  split; [exact Ei|].
  destruct Hend as [E|E].
  - rewrite E in S1. rewrite Ei in S1. destruct S1 as (_ & C1 & V1).
    split; [left; split; [exact E|exact C1]|exact V1].
  - rewrite E in S2. rewrite Ei in S2. destruct S2 as (_ & C2 & V2).
    split; [right; split; [exact E|exact C2]|exact V2].
Qed.

Lemma same_row_same_entry n e e' :
  valid P N e -> valid P N e' -> fst e = n -> fst e' = n ->
  col (snd e) = col (snd e') -> e = e'.
Proof.
  destruct e as [r i], e' as [r' i']. cbn [fst snd].
  intros (Hr & Hi & _) (Hr' & Hi' & _) -> -> Ec. cbn [fst snd] in *.
  f_equal. eapply (wf_nodup P N wf); eassumption.
Qed.

Lemma crossing_entries n e e' :
  valid P N e -> valid P N e' -> emitted P e = true -> emitted P e' = true ->
  fst e = n -> col (snd e') = n -> col (snd e) = fst e' -> fst e' = n.
Proof.
  intros (Hr & Hi & Hc) (Hr' & Hi' & Hc') Hem Hem' E1 E2 E3.
  assert (R : reciprocal P e = true).
  { unfold reciprocal. apply present_spec. exists (snd e').
    rewrite E3. split; [exact Hi'|]. rewrite E1. exact E2. }
  assert (R' : reciprocal P e' = true).
  { unfold reciprocal. apply present_spec. exists (snd e).
    cbv beta in E2. rewrite E2, <- E1. split; [exact Hi|exact E3]. }
  unfold emitted in Hem, Hem'. rewrite R in Hem. rewrite R' in Hem'.
  simpl in Hem, Hem'. apply Nat.leb_le in Hem, Hem'. cbv beta in *. lia.
Qed.

Lemma symmetrize_wf : csr_wf S N.
Proof.
  destruct (sym_row_P_spec P N) as (Lr & H0 & Hs).
  destruct (fill_spec P N wf) as (Lc & Lv & _).
  destruct (symmetrize_lengths P N wf) as [HN Hlen].
  split.
  - exact Lr.
  - exact H0.
  - intros n Hn. unfold symmetrizeMatrix. cbv zeta. cbn [row_P].
    rewrite (Hs n Hn). lia.
  - rewrite HN. unfold symmetrizeMatrix. cbv zeta. cbn [col_P]. lia.
  - rewrite HN, Hlen. lia.
  - intros n i Hn Hi.
    destruct (row_slot n i Hn Hi) as (es1 & e & es2 & _ & _ & (Hr & _ & Hc) & _ & Hend & _).
    destruct Hend as [[_ ->]|[_ ->]]; assumption.
  - intros n i i' Hn Hi Hi' Ec.
    destruct (row_slot n i Hn Hi) as (es1 & e & es2 & He & Hem & Hv & Ei & Hend & _).
    destruct (row_slot n i' Hn Hi') as (es1' & e' & es2' & He' & Hem' & Hv' & Ei' & Hend' & _).
    assert (Ee : e = e').
    { destruct Hend as [[E1 C1]|[E1 C1]], Hend' as [[E1' C1']|[E1' C1']].
      - apply (same_row_same_entry n); try assumption. congruence.
      - assert (E3 : col (snd e) = fst e') by congruence.
        pose proof (crossing_entries n e e' Hv Hv' Hem Hem' E1 E1' E3) as E4.
        apply (same_row_same_entry n); try assumption. cbv beta in *. congruence.
      - assert (E3 : col (snd e') = fst e) by congruence.
        pose proof (crossing_entries n e' e Hv' Hv Hem' Hem E1' E1 E3) as E4.
        apply (same_row_same_entry n); try assumption. cbv beta in *. congruence.
      - apply (same_row_same_entry (fst e)); try assumption; [reflexivity|congruence|].
        cbv beta in *. congruence. }
    subst e'.
    pose proof (NoDup_split_unique _ _ _ _ _ _ (entries_NoDup P N) He He') as ->.
    lia.
Qed.

(** *** Positive values stay positive *)

Hypothesis positive : forall n i, n < N -> in_row P n i -> (0 < val_P P !!! i)%Q.

Lemma pair_value_pos e : valid P N e -> (0 < pair_value P e)%Q.
Proof.
  intros Hv. pose proof Hv as (Hn & Hi & Hc). unfold pair_value.
  pose proof (positive _ _ Hn Hi) as H1.
  destruct (reciprocal P e) eqn:R; [|exact H1].
  destruct (recip_index_spec P N wf e Hv R) as [Hin _].
  pose proof (positive _ _ Hc Hin) as H2. lra.
Qed.

Lemma symmetrize_pos n i : n < N -> in_row S n i -> (0 < val_P S !!! i)%Q.
Proof.
  intros Hn Hi.
  destruct (row_slot n i Hn Hi) as (es1 & e & es2 & _ & _ & Hv & _ & _ & ->).
  pose proof (pair_value_pos e Hv). apply Qlt_shift_div_l; [reflexivity|]. lra.
Qed.

Lemma no_elem_pos n i : n < N -> in_row P n i -> 0 < no_elem P N.
Proof.
  intros Hn Hi.
  assert (Hin : (n, i) ∈ entries P N) by (apply elem_of_entries; tauto).
  pose proof (sum_list_with_elem (count1 P n) _ _ Hin) as Hc.
  rewrite <- (proj2 (row_counts_spec P N wf n)) in Hc.
  unfold count1 in Hc. cbn [fst] in Hc. rewrite Nat.eqb_refl in Hc.
  destruct (sym_row_P_spec P N) as (_ & _ & Hs). specialize (Hs n Hn).
  pose proof (sym_row_P_mono P N (n + 1) N ltac:(lia) ltac:(lia)).
  rewrite (no_elem_spec P N). lia.
Qed.

Lemma symmetrize_sum_pos n i : n < N -> in_row P n i -> (0 < sum_P S N)%Q.
Proof.
  intros Hn Hi. pose proof (no_elem_pos n i Hn Hi) as Hne.
  destruct (symmetrize_lengths P N wf) as [HN _].
  unfold sum_P. rewrite HN.
  apply (for_loop_sum_pos (no_elem P N) (fun i => val_P S !!! i) Hne).
  intros p Hp. destruct (row_of_slot P N p Hp) as (r & Hr & Hp').
  apply (symmetrize_pos r p Hr). exact Hp'.
Qed.

End SymmetrizedMatrix.

(** ** The matrix the optimizer consumes *)

Import Tsne SymSpec RunSpec Examples Stubs.





Section Weights.
Variable P : csr.
Variable N : nat.
Hypothesis wf : csr_wf P N.
Hypothesis not_negative : forall n i, n < N -> in_row P n i -> (0 <= val_P P !!! i)%Q.

Local Abbreviation S := (symmetrizeMatrix P N).





End Weights.




(** ** The kernels: the order of the threads does not matter *)

Import PerplexitySearch KernelSpec.

Lemma for_loop_launch {S : Type} n (body : nat -> S -> S) s :
  for_loop 0 n body s = launch (seq 0 n) body s.
Proof. unfold for_loop, launch. rewrite Nat.sub_0_r. reflexivity. Qed.

(** Threads that each set their own entry, to a value that does not depend
    on the array. *)
Lemma launch_set_lookup {A} `{!Inhabited A} n (g : nat -> A) order (l : list A) :
  length (launch order (fun t l => if n <=? t then l else <[t := g t]> l) l) = length l /\
  forall i, i < length l ->
    launch order (fun t l => if n <=? t then l else <[t := g t]> l) l !!! i
    = if decide (i ∈ order /\ i < n) then g i else l !!! i.
Proof.
  revert l. induction order as [|t order IH]; intros l.
  - split; [reflexivity|]. intros i Hi. unfold launch. cbn [fold_left].
    rewrite decide_False; [reflexivity|]. intros [H _]. inversion H.
  - unfold launch in *. cbn [fold_left].
    set (l1 := if n <=? t then l else <[t := g t]> l).
    assert (L1 : length l1 = length l)
      by (subst l1; destruct (n <=? t); [reflexivity|apply length_insert]).
    destruct (IH l1) as [IHl IHv]. split; [rewrite IHl; exact L1|].
    intros i Hi. rewrite IHv by (rewrite L1; exact Hi).
    destruct (decide (i ∈ order /\ i < n)) as [[H1 H2]|Hn].
    + rewrite decide_True; [reflexivity|]. split; [right; exact H1|exact H2].
    + subst l1. destruct (Nat.leb_spec n t) as [Hle|Hlt].
      * destruct (decide (i ∈ t :: order /\ i < n)) as [[H1 H2]|_]; [|reflexivity].
        apply elem_of_cons in H1 as [->|H1]; [lia|]. exfalso. apply Hn. tauto.
      * destruct (decide (i = t)) as [->|Hne].
        -- rewrite list_lookup_total_insert_eq by exact Hi.
           rewrite decide_True; [reflexivity|]. split; [left|exact Hlt].
        -- rewrite list_lookup_total_insert_ne by congruence.
           rewrite decide_False; [reflexivity|]. intros [H1 H2].
           apply elem_of_cons in H1 as [->|H1]; [congruence|]. apply Hn. tauto.
Qed.

Lemma launch_set_order {A} `{!Inhabited A} n G (g : nat -> A) order (l : list A) :
  n <= G -> order ≡ₚ seq 0 G ->
  launch order (fun t l => if n <=? t then l else <[t := g t]> l) l
  = launch (seq 0 n) (fun t l => if n <=? t then l else <[t := g t]> l) l.
Proof.
  intros HG Hp.
  destruct (launch_set_lookup n g order l) as [L1 V1].
  destruct (launch_set_lookup n g (seq 0 n) l) as [L2 V2].
  apply list_eq_same_length with (length l); [exact L2|exact L1|].
  intros i x y Hi Hx Hy.
  apply list_lookup_total_correct in Hx, Hy. subst x y.
  rewrite V1, V2 by exact Hi.
  destruct (decide (i ∈ order /\ i < n)) as [[H1 H2]|Hn].
  - rewrite decide_True; [reflexivity|]. split; [|exact H2].
    apply elem_of_seq. lia.
  - rewrite decide_False; [reflexivity|]. intros [H1 H2]. apply Hn. split; [|exact H2].
    apply (proj2 (elem_of_Permutation_proper _ _ _ Hp)), elem_of_seq. lia.
Qed.

Lemma launch_ext {S : Type} order (f g : nat -> S -> S) s :
  (forall t s, t ∈ order -> f t s = g t s) -> launch order f s = launch order g s.
Proof.
  revert s. induction order as [|t order IH]; intros s H; [reflexivity|].
  unfold launch in *. cbn [fold_left]. rewrite (H t s) by left.
  apply IH. intros t' s' Ht'. apply H. right. exact Ht'.
Qed.

Lemma ComputePijKernel_launch fexp pij squared_dist betas num_points num_near_neighbors :
  ComputePijKernel fexp pij squared_dist betas num_points num_near_neighbors
  = launch (seq 0 (num_points * num_near_neighbors))
      (pij_thread fexp squared_dist betas num_points num_near_neighbors) pij.
Proof.
  unfold ComputePijKernel. rewrite for_loop_launch. apply launch_ext.
  intros t s Ht. apply elem_of_seq in Ht. unfold pij_thread.
  rewrite (proj2 (Nat.leb_gt _ _)) by lia. reflexivity.
Qed.

Lemma pij_thread_order fexp pij squared_dist betas num_points num_near_neighbors G order :
  num_points * num_near_neighbors <= G -> order ≡ₚ seq 0 G ->
  launch order (pij_thread fexp squared_dist betas num_points num_near_neighbors) pij
  = ComputePijKernel fexp pij squared_dist betas num_points num_near_neighbors.
Proof.
  intros HG Hp. rewrite ComputePijKernel_launch.
  apply (launch_set_order (num_points * num_near_neighbors) G
           (fun TID =>
              if (TID mod num_near_neighbors =? 0) && Qeq_bool (squared_dist !!! TID) 0
              then 0%Q
              else fexp (- betas !!! (TID / num_near_neighbors)%nat * squared_dist !!! TID)%Q)
           order pij HG Hp).
Qed.

Lemma list_eq_total {A} `{!Inhabited A} (x y : list A) :
  length x = length y -> (forall i, x !!! i = y !!! i) -> x = y.
Proof.
  intros Hlen Hv. apply list_eq_same_length with (length x);
    [symmetry; exact Hlen|reflexivity|].
  intros i u v Hi Hu Hv'. apply list_lookup_total_correct in Hu, Hv'.
  subst u v. apply Hv.
Qed.

(** *** [PerplexitySearchKernel] *)

Section SearchThreads.
Variable flog : Q -> Q.
Variable neg_entropy row_sum : list Q.
Variable perplexity_target epsilon : Q.
Variable num_points : nat.

Local Abbreviation thread :=
  (search_thread flog neg_entropy row_sum perplexity_target epsilon num_points).

(** What thread [i] leaves in entry [i], from what it finds there. *)
Local Abbreviation update i e :=
  (let '(b, lo, hi, f) := e in
   let '(is_found, (b', lo', hi')) :=
     kernel_update flog (neg_entropy !!! i) (row_sum !!! i) b lo hi
                   perplexity_target epsilon in
   (b', lo', hi', is_found)).

Lemma search_thread_spec i a :
  arrays_sized num_points a ->
  sizes (thread i a) = sizes a /\
  (forall j, j <> i -> entry (thread i a) j = entry a j) /\
  entry (thread i a) i = if num_points <=? i then entry a i else update i (entry a i).
Proof.
  intros (H1 & H2 & H3 & H4). unfold search_thread, entry, sizes.
  destruct (Nat.leb_spec num_points i) as [Hle|Hlt]; [repeat split|].
  unfold kernel_update. cbv zeta.
  destruct (Qlt_bool _ epsilon && Qlt_bool _ epsilon); [|destruct (Qlt_bool 0 _)];
    cbn [negb betas lower_bound upper_bound found];
    rewrite ?length_insert; (split; [reflexivity|]); split;
    try (intros j Hj; rewrite ?list_lookup_total_insert_ne by congruence; reflexivity);
    rewrite ?list_lookup_total_insert_eq by lia; reflexivity.
Qed.

Lemma search_thread_sized i a :
  arrays_sized num_points a -> arrays_sized num_points (thread i a).
Proof.
  intros H. destruct (search_thread_spec i a H) as [Hs _].
  unfold sizes in Hs. injection Hs as E1 E2 E3 E4.
  destruct H as (H1 & H2 & H3 & H4). unfold arrays_sized.
  rewrite E1, E2, E3, E4. tauto.
Qed.

Lemma launch_search_spec order a :
  NoDup order -> arrays_sized num_points a ->
  sizes (launch order thread a) = sizes a /\
  forall i, entry (launch order thread a) i
            = if decide (i ∈ order /\ i < num_points) then update i (entry a i)
              else entry a i.
Proof.
  revert a. induction order as [|t order IH]; intros a Hnd Ha.
  - split; [reflexivity|]. intros i. unfold launch. cbn [fold_left].
    rewrite decide_False; [reflexivity|]. intros [H _]. inversion H.
  - apply NoDup_cons in Hnd as [Ht Hnd]. unfold launch in *. cbn [fold_left].
    destruct (search_thread_spec t a Ha) as (S1 & O1 & U1).
    destruct (IH (thread t a) Hnd (search_thread_sized t a Ha)) as [S2 V2].
    split; [rewrite S2; exact S1|]. intros i. rewrite V2.
    destruct (decide (i = t)) as [->|Hne].
    + rewrite decide_False by tauto. rewrite U1.
      destruct (Nat.leb_spec num_points t) as [Hle|Hlt].
      * rewrite decide_False by lia. reflexivity.
      * rewrite decide_True; [reflexivity|]. split; [left|exact Hlt].
    + rewrite (O1 i Hne).
      destruct (decide (i ∈ order /\ i < num_points)) as [[H1 H2]|Hn].
      * rewrite decide_True; [reflexivity|]. split; [right; exact H1|exact H2].
      * rewrite decide_False; [reflexivity|]. intros [H1 H2].
        apply elem_of_cons in H1 as [->|H1]; [congruence|]. apply Hn. tauto.
Qed.

Lemma arrays_eq a b :
  sizes a = sizes b -> (forall i, entry a i = entry b i) -> a = b.
Proof.
  destruct a as [b1 l1 u1 f1], b as [b2 l2 u2 f2]. unfold sizes, entry.
  cbn [betas lower_bound upper_bound found]. intros Hs He.
  injection Hs as E1 E2 E3 E4.
  f_equal; apply list_eq_total; try assumption; intros i; specialize (He i); congruence.
Qed.

Lemma PerplexitySearchKernel_launch a :
  PerplexitySearchKernel flog a neg_entropy row_sum perplexity_target epsilon num_points
  = launch (seq 0 num_points) thread a.
Proof.
  unfold PerplexitySearchKernel. rewrite for_loop_launch. apply launch_ext.
  intros t s Ht. apply elem_of_seq in Ht. unfold search_thread.
  rewrite (proj2 (Nat.leb_gt _ _)) by lia. reflexivity.
Qed.

Lemma search_thread_order a G order :
  arrays_sized num_points a -> num_points <= G -> order ≡ₚ seq 0 G ->
  launch order thread a
  = PerplexitySearchKernel flog a neg_entropy row_sum perplexity_target epsilon num_points.
Proof.
  intros Ha HG Hp. rewrite PerplexitySearchKernel_launch.
  assert (Hnd : NoDup order).
  { apply (proj2 (NoDup_Permutation_proper _ _ Hp)), NoDup_seq. }
  destruct (launch_search_spec order a Hnd Ha) as [S1 V1].
  destruct (launch_search_spec (seq 0 num_points) a (NoDup_seq _ _) Ha) as [S2 V2].
  apply arrays_eq; [rewrite S1, S2; reflexivity|].
  intros i. rewrite V1, V2.
  destruct (decide (i ∈ order /\ i < num_points)) as [[H1 H2]|Hn].
  - rewrite decide_True; [reflexivity|]. split; [|exact H2]. apply elem_of_seq. lia.
  - rewrite decide_False; [reflexivity|]. intros [H1 H2]. apply Hn. split; [|exact H2].
    apply (proj2 (elem_of_Permutation_proper _ _ _ Hp)), elem_of_seq. lia.
Qed.

End SearchThreads.

(** ** The squared distance *)

Import VpTree VpBuild VpSpec KnnSpec BuildSpec Tsne RunSpec.

Lemma euclidean_sym a b :
  _D a = _D b -> (euclidean_distance_squared a b == euclidean_distance_squared b a)%Q.
Proof.
  intros HD. unfold euclidean_distance_squared, dimensionality. rewrite HD.
  apply (for_loop_rel (fun u v => (u == v)%Q)); [reflexivity|].
  intros i u v _ Huv. cbv zeta. rewrite Huv. ring.
Qed.

Lemma sum_squares_zero n (t : nat -> Q) :
  (for_loop 0 n (fun d dd => (dd + t d * t d)%Q) 0%Q == 0)%Q <->
  forall d, d < n -> (t d == 0)%Q.
Proof.
  induction n as [|n IH].
  - rewrite for_loop_ge by lia. split; [intros _ d Hd; lia|reflexivity].
  - rewrite for_loop_S by lia.
    assert (Hnn : (0 <= for_loop 0 n (fun d dd => (dd + t d * t d)%Q) 0%Q)%Q).
    { apply (for_loop_sum_ge n (fun d => (t d * t d)%Q) 0%Q). intros m _. nra. }
    set (s := for_loop 0 n _ _) in *.
    assert (Hsq : (0 <= t n * t n)%Q) by nra.
    split.
    + intros H d Hd. assert (Hs : (s == 0)%Q) by lra.
      destruct (decide (d = n)) as [->|Hne]; [|apply (proj1 IH Hs); lia].
      assert (Ht : (t n * t n == 0)%Q) by lra.
      destruct (Qmult_integral _ _ Ht); assumption.
    + intros H. rewrite (proj2 IH) by (intros d Hd; apply H; lia).
      rewrite (H n) by lia. ring.
Qed.

Lemma euclidean_zero a b :
  (euclidean_distance_squared a b == 0)%Q <->
  forall d, d < _D a -> (x a d == x b d)%Q.
Proof.
  unfold euclidean_distance_squared, dimensionality.
  rewrite (sum_squares_zero (_D a) (fun d => (x a d - x b d)%Q)).
  split; intros H d Hd; specialize (H d Hd); lra.
Qed.

(** ** The tree [create] builds finds every point it holds *)

Section CreatedTree.
Variable rand : nat -> Z.
Variable RAND_MAX : Z.
Variable nth_element :
  nat -> nat -> nat -> (DataPoint -> DataPoint -> bool) ->
  list DataPoint -> list DataPoint.
Hypothesis rand_ok : rand_post rand RAND_MAX.
Hypothesis nth_element_ok : nth_element_post euclidean_distance_squared nth_element.
Variable items : list DataPoint.

Local Abbreviation tree := (create euclidean_distance_squared rand RAND_MAX nth_element items).

Lemma created_position n :
  n < length items ->
  exists p, p ∈ nodes (snd tree) /\ fst tree !!! p = items !!! n.
Proof.
  intros Hn.
  destruct (create_spec euclidean_distance_squared rand RAND_MAX nth_element
              rand_ok nth_element_ok items) as (Hs & Hnodes & _).
  pose proof (seg_perm_length _ _ _ _ Hs) as Hlen. destruct Hs as [Hp _].
  assert (Hin : items !!! n ∈ items) by (apply list_elem_of_lookup_total_2, Hn).
  apply (proj2 (elem_of_Permutation_proper _ _ _ Hp)) in Hin.
  apply list_elem_of_lookup_total_1 in Hin as (p & Hp' & E).
  exists p. split; [|exact E]. rewrite Hnodes, elem_of_seq. lia.
Qed.

Lemma created_search n k :
  n < length items -> 0 < k ->
  let out := search euclidean_distance_squared (fst tree) (snd tree) (items !!! n) k in
  StronglySorted Qle (snd out) /\
  Forall2 (fun r d => d = euclidean_distance_squared r (items !!! n)) (fst out) (snd out) /\
  exists i r d,
    fst out !! i = Some r /\ snd out !! i = Some d /\ r ∈ items /\ (d == 0)%Q.
Proof.
  intros Hn Hk. cbv zeta.
  destruct (create_spec euclidean_distance_squared rand RAND_MAX nth_element
              rand_ok nth_element_ok items) as (Hs & Hnodes & Hok & _).
  destruct (created_position n Hn) as (p & Hp & Ep).
  set (target := items !!! n) in *.
  pose proof (search_inv_init euclidean_distance_squared (fst tree) target k (snd tree) Hk)
    as H0.
  assert (Hnn : forall a, (0 <= euclidean_distance_squared a target)%Q)
    by (intros a; apply euclidean_nonneg).
  destruct (search_node_keeps euclidean_distance_squared (fst tree) target k Hk Hnn
              (snd tree) (snd tree) _ (fun i Hi => Hi) H0) as [Hinv _].
  assert (Hz := search_node_finds euclidean_distance_squared (fst tree) target k Hk Hnn p
              (fun a => eq_ind _ (fun y => (euclidean_distance_squared a (fst tree !!! p)
                                            == euclidean_distance_squared a y)%Q)
                               (Qeq_refl _) _ Ep)
              (euclidean_same_coordinates _ _ (f_equal _x Ep))
              (snd tree) (snd tree) _ (fun i Hi => Hi) H0 Hok Hp).
  rewrite search_spec. cbv zeta.
  destruct (search_node _ _ _ _ _ _) as [heap tau]. cbn [fst snd] in *.
  destruct Hinv as (Hd & He & _).
  split; [apply descending_sorted, Hd|]. split.
  - apply Forall2_reverse, Forall2_fmap, Forall_Forall2_diag, Forall_forall.
    intros h Hh. apply He, Hh.
  - destruct Hz as [h [Hh Hh0]]. cbn [fst] in Hh.
    pose proof (proj1 (He h Hh)) as Hidx.
    apply list_elem_of_lookup in Hh as [j Hj].
    exists (length heap - S j), (fst tree !!! hindex h), (dist h).
    split; [apply (reverse_fmap_lookup (fun h => fst tree !!! hindex h)), Hj|].
    split; [apply (reverse_fmap_lookup dist), Hj|]. split; [|exact Hh0].
    apply (proj1 (elem_of_Permutation_proper _ _ _ (proj1 Hs))).
    apply list_elem_of_lookup_total_2.
    rewrite Hnodes, elem_of_seq in Hidx. rewrite (seg_perm_length _ _ _ _ Hs). lia.
Qed.

End CreatedTree.

(** ** The data divided by its largest entry *)

Lemma max_X_spec X n :
  (0 <= max_X X n)%Q /\ (forall i, i < n -> (X !!! i <= max_X X n)%Q) /\
  ((max_X X n == 0)%Q \/ exists i, i < n /\ max_X X n = X !!! i).
Proof.
  unfold max_X. induction n as [|n (H0 & Hle & Hex)].
  - rewrite for_loop_ge by lia. split; [apply Qle_refl|].
    split; [intros i Hi; lia|left; reflexivity].
  - rewrite for_loop_S by lia. set (mx := for_loop 0 n _ _) in *.
    destruct (Qlt_bool mx (X !!! n)) eqn:E.
    + apply Qlt_bool_iff in E. split; [lra|]. split.
      * intros i Hi. destruct (decide (i = n)) as [->|Hne]; [apply Qle_refl|].
        specialize (Hle i ltac:(lia)). lra.
      * right. exists n. split; [lia|reflexivity].
    + apply Qlt_bool_false in E. split; [exact H0|]. split.
      * intros i Hi. destruct (decide (i = n)) as [->|Hne]; [exact E|].
        apply Hle. lia.
      * destruct Hex as [Hz|(i & Hi & Ei)]; [left; exact Hz|].
        right. exists i. split; [lia|exact Ei].
Qed.

Lemma scaled_lookup X n i :
  n <= length X -> i < n -> scaled X n !!! i = (X !!! i / max_X X n)%Q.
Proof.
  intros Hn Hi. unfold scaled.
  rewrite (for_loop_insert_lookup n (fun _ v => (v / max_X X n)%Q)) by exact Hn.
  rewrite (proj2 (Nat.ltb_lt i n)) by exact Hi. reflexivity.
Qed.

Lemma scaled_spec X n :
  n <= length X -> (0 < max_X X n)%Q ->
  (forall i, i < n -> (scaled X n !!! i <= 1)%Q) /\
  exists i, i < n /\ (scaled X n !!! i == 1)%Q.
Proof.
  intros Hn Hpos. destruct (max_X_spec X n) as (_ & Hle & Hex). split.
  - intros i Hi. rewrite scaled_lookup by assumption.
    apply Qle_shift_div_r; [exact Hpos|]. specialize (Hle i Hi). lra.
  - destruct Hex as [Hz|(i & Hi & Ei)]; [lra|].
    exists i. split; [exact Hi|]. rewrite scaled_lookup by assumption.
    rewrite <- Ei. field. lra.
Qed.

Lemma scaled_all_nonpositive X n :
  (forall i, i < n -> (X !!! i <= 0)%Q) -> (max_X X n == 0)%Q.
Proof.
  intros H. destruct (max_X_spec X n) as (H0 & _ & Hex).
  destruct Hex as [Hz|(i & Hi & Ei)]; [exact Hz|].
  specialize (H i Hi). rewrite <- Ei in H. lra.
Qed.

(** ** The progress lines *)

Import VpTree Tsne.

Lemma div_succ q n :
  0 < q -> (n + 1) / q = n / q + (if (n + 1) mod q =? 0 then 1 else 0).
Proof.
  intros Hq.
  pose proof (Nat.div_mod_eq n q) as E1. pose proof (Nat.div_mod_eq (n + 1) q) as E2.
  pose proof (Nat.mod_upper_bound n q ltac:(lia)) as B1.
  pose proof (Nat.mod_upper_bound (n + 1) q ltac:(lia)) as B2.
  destruct (Nat.eqb_spec ((n + 1) mod q) 0) as [E|E]; nia.
Qed.

Lemma point_body_log fexp flog read_steps tree objs N K perplexity n st :
  snd (point_body fexp flog read_steps tree objs N K perplexity true n st)
  = if read_steps n mod (N / log_freq) =? 0 then snd st ++ [msg_point] else snd st.
Proof.
  destruct st as [P log]. unfold point_body.
  destruct (search _ _ _ _ _) as [indices distances].
  destruct (for_loop 0 K _ _) as [col val]. reflexivity.
Qed.

Lemma similarities_progress fexp flog rand RAND_MAX nth_element read_steps X N D perplexity K :
  0 < N / log_freq -> (forall n, n < N -> read_steps n = n + 1) ->
  snd (computeGaussianPerplexity fexp flog rand RAND_MAX nth_element read_steps
         X N D perplexity K true)
  = (if Qlt_bool (inject_Z (Z.of_nat K)) perplexity then [msg_perplexity_K] else [])
    ++ [msg_tree_time; msg_building] ++ replicate (N / (N / log_freq)) msg_point.
Proof.
  intros Hq Hone. unfold computeGaussianPerplexity. cbv zeta. cbn [andb].
  set (log0 := if Qlt_bool _ perplexity then [msg_perplexity_K] else []).
  match goal with |- snd (for_loop 0 N ?body (?P, ?l)) = _ =>
    apply (for_loop_inv
             (fun n s => snd s = log0 ++ [msg_tree_time; msg_building]
                                  ++ replicate (n / (N / log_freq)) msg_point)
             0 N body (P, l)) end; [lia| |].
  - cbn [snd]. rewrite Nat.Div0.div_0_l. cbn [replicate].
    rewrite app_nil_r, <- app_assoc. reflexivity.
  - intros n s Hn Hs. rewrite point_body_log, Hs, (Hone n (proj2 Hn)).
    replace (S n) with (n + 1) by lia. rewrite (div_succ _ n Hq).
    destruct ((n + 1) mod (N / log_freq) =? 0).
    + rewrite <- !app_assoc. do 2 f_equal.
      replace (n / (N / log_freq) + 1) with (S (n / (N / log_freq))) by lia.
      rewrite replicate_S_end. reflexivity.
    + rewrite Nat.add_0_r. reflexivity.
Qed.

(** * Further properties of the code *)

Import VpTree VpBuild VpSpec KnnSpec BuildSpec Perplexity PerplexitySearch KernelSpec.
Import Tsne SymSpec OptimSpec DataSpec RunSpec Examples Stubs.

(** ** zeroMean *)

(** X10.  [zeroMean] on an array that holds the [N * D] entries of the matrix:
    the array keeps its length, every entry of the matrix loses the mean of
    its column, the entries behind the matrix are kept, and every column of
    the result adds up to zero (in exact arithmetic). *)
Theorem zeroMean_centres_columns (X : list Q) (N D : nat) :
  N * D <= length X ->
  length (zeroMean X N D) = length X /\
  (forall n d, n < N -> d < D ->
     zeroMean X N D !!! (n * D + d)
     = (X !!! (n * D + d)%nat - column_sum X N D d / inject_Z (Z.of_nat N))%Q) /\
  (forall i, N * D <= i -> zeroMean X N D !!! i = X !!! i) /\
  (forall d, d < D -> (column_sum (zeroMean X N D) N D d == 0)%Q).
Proof.
  intros Hlen. split; [apply zeroMean_length, Hlen|].
  split; [intros n d Hn Hd; apply zeroMean_lookup; assumption|].
  split; [intros i Hi; apply zeroMean_rest; assumption|].
  intros d Hd. destruct N as [|N'].
  - unfold column_sum. rewrite for_loop_ge by lia. reflexivity.
  - apply zeroMean_column_sum; [lia|exact Hlen|exact Hd].
Qed.

Lemma zeroMean_centres_columns_witness :
  length (zeroMean [1; 2; 3; 6]%Q 2 2) = length [1; 2; 3; 6]%Q /\
  (forall n d, n < 2 -> d < 2 ->
     zeroMean [1; 2; 3; 6]%Q 2 2 !!! (n * 2 + d)
     = ([1; 2; 3; 6]%Q !!! (n * 2 + d)%nat
        - column_sum [1; 2; 3; 6]%Q 2 2 d / inject_Z (Z.of_nat 2))%Q) /\
  (forall i, 2 * 2 <= i -> zeroMean [1; 2; 3; 6]%Q 2 2 !!! i = [1; 2; 3; 6]%Q !!! i) /\
  (forall d, d < 2 -> (column_sum (zeroMean [1; 2; 3; 6]%Q 2 2) 2 2 d == 0)%Q).
Proof. apply (zeroMean_centres_columns [1; 2; 3; 6]%Q 2 2). simpl. lia. Defined.

(** ** The training loop *)

(** X14.  The momentum at the start of iteration [t]: 0.5 up to the switch
    iteration [n_iter_early_exag], it included, and 0.8 after it; a supplied
    starting embedding moves the end of the exaggeration, not this switch. *)
Theorem momentum_schedule
  (flog : Q -> Q) (SplitTree : Type) (new_SplitTree : list Q -> nat -> nat -> SplitTree)
  (computeNonEdgeForces : SplitTree -> nat -> Q -> list Q -> nat -> Q -> list Q * Q)
  (sign : Q -> Q) (randn : nat -> Q)
  (P : csr) (N no_dims : nat) (Y0 : list Q) (theta : Q) (max_iter : nat)
  (n_iter_early_exag : Z) (init_from_Y verbose : bool)
  (early_exaggeration learning_rate : Q) (log0 : list string) (t : nat) :
  momentum (training_loop flog SplitTree new_SplitTree computeNonEdgeForces sign randn
              P N no_dims Y0 theta max_iter n_iter_early_exag init_from_Y verbose
              early_exaggeration learning_rate log0 t)
  = if (0 <=? n_iter_early_exag)%Z && (n_iter_early_exag <? Z.of_nat t)%Z
    then final_momentum else 0.5%Q.
Proof.
  destruct init_from_Y; apply training_loop_momentum.
Qed.

(** X12.  Every gain stays above 0.05 through a run: the gains start at 1, and
    neither [gain + 0.2] nor [gain * 0.8 + 0.01] takes a gain above 0.05 to
    0.05 or below. *)
Theorem gains_stay_above_a_twentieth
  (flog : Q -> Q) (SplitTree : Type) (new_SplitTree : list Q -> nat -> nat -> SplitTree)
  (computeNonEdgeForces : SplitTree -> nat -> Q -> list Q -> nat -> Q -> list Q * Q)
  (sign : Q -> Q) (randn : nat -> Q)
  (P : csr) (N no_dims : nat) (Y0 : list Q) (theta : Q) (max_iter : nat)
  (n_iter_early_exag : Z) (init_from_Y verbose : bool)
  (early_exaggeration learning_rate : Q) (log0 : list string) (t i : nat) :
  N * no_dims <= length Y0 -> i < N * no_dims ->
  (0.05 < gains (training_loop flog SplitTree new_SplitTree computeNonEdgeForces sign randn
                   P N no_dims Y0 theta max_iter n_iter_early_exag init_from_Y verbose
                   early_exaggeration learning_rate log0 t) !!! i)%Q.
Proof.
  intros HY Hi. apply training_loop_gains; assumption.
Qed.

Lemma gains_stay_above_a_twentieth_witness :
  (0.05 < gains (training_loop log_approx unit no_tree no_forces sign_model randn_zero
                   three_rows 3 1 [0; 0; 0]%Q 0.5%Q 10 5%Z false false
                   12%Q 200%Q [] 4) !!! 1%nat)%Q.
Proof.
  apply (gains_stay_above_a_twentieth log_approx unit no_tree no_forces sign_model randn_zero
           three_rows 3 1 [0; 0; 0]%Q 0.5%Q 10 5%Z false false 12%Q 200%Q [] 4 1);
    simpl; lia.
Defined.

(** X11.  After every iteration the embedding is centred: each of its [no_dims]
    columns adds up to zero (in exact arithmetic), whatever the gradient
    was. *)
Theorem embedding_centred_after_every_iteration
  (flog : Q -> Q) (SplitTree : Type) (new_SplitTree : list Q -> nat -> nat -> SplitTree)
  (computeNonEdgeForces : SplitTree -> nat -> Q -> list Q -> nat -> Q -> list Q * Q)
  (sign : Q -> Q) (randn : nat -> Q)
  (P : csr) (N no_dims : nat) (Y0 : list Q) (theta : Q) (max_iter : nat)
  (n_iter_early_exag : Z) (init_from_Y verbose : bool)
  (early_exaggeration learning_rate : Q) (log0 : list string) (t d : nat) :
  N * no_dims <= length Y0 -> 0 < t -> d < no_dims ->
  (column_sum
     (Y (training_loop flog SplitTree new_SplitTree computeNonEdgeForces sign randn
           P N no_dims Y0 theta max_iter n_iter_early_exag init_from_Y verbose
           early_exaggeration learning_rate log0 t))
     N no_dims d == 0)%Q.
Proof.
  intros HY Ht Hd. destruct t as [|t]; [lia|]. destruct N as [|N'].
  - unfold column_sum. rewrite for_loop_ge by lia. reflexivity.
  - apply training_loop_centred; [exact HY|lia|exact Hd].
Qed.

Lemma embedding_centred_after_every_iteration_witness :
  (column_sum
     (Y (training_loop log_approx unit no_tree no_forces sign_model randn_zero
           three_rows 3 1 [0; 0; 0]%Q 0.5%Q 10 5%Z false false 12%Q 200%Q [] 4))
     3 1 0 == 0)%Q.
Proof.
  apply (embedding_centred_after_every_iteration log_approx unit no_tree no_forces
           sign_model randn_zero three_rows 3 1 [0; 0; 0]%Q 0.5%Q 10 5%Z false false
           12%Q 200%Q [] 4 0); simpl; lia.
Defined.

(** ** computeGradient *)

(** X15.  Without [eval_error], [computeGradient] returns the error 0 (in exact
    arithmetic): the value is meaningful only in the iterations that ask for
    it.  And [dC] is written in full: two calls that differ only in what
    [dC] held return the same gradient. *)
Theorem computeGradient_error_and_buffer
  (flog : Q -> Q) (SplitTree : Type) (new_SplitTree : list Q -> nat -> nat -> SplitTree)
  (computeNonEdgeForces : SplitTree -> nat -> Q -> list Q -> nat -> Q -> list Q * Q)
  (P : csr) (Y0 : list Q) (N no_dims : nat) (dC : list Q) (theta : Q) :
  (fst (computeGradient flog SplitTree new_SplitTree computeNonEdgeForces
          P Y0 N no_dims dC theta false) == 0)%Q /\
  forall dC' eval_error,
    length dC = N * no_dims -> length dC' = N * no_dims ->
    snd (computeGradient flog SplitTree new_SplitTree computeNonEdgeForces
           P Y0 N no_dims dC theta eval_error)
    = snd (computeGradient flog SplitTree new_SplitTree computeNonEdgeForces
             P Y0 N no_dims dC' theta eval_error).
Proof.
  split; [apply computeGradient_no_error|].
  intros dC' eval_error H H'. apply computeGradient_overwrites; assumption.
Qed.

(** ** The first steps of run *)

(** X18.  The number of neighbours [run] asks [computeGaussianPerplexity] for is
    [(int) (3 * perplexity)] of the perplexity after the first test, and
    leaves room for the point itself: [K + 1 <= N], so the search is never
    asked for more points than there are.  The data passed on are the
    centred data divided by their largest entry. *)
Theorem neighbours_fit_the_data
  (fexp flog : Q -> Q) (rand : nat -> Z) (RAND_MAX : Z)
  (nth_element : nat -> nat -> nat -> (DataPoint -> DataPoint -> bool) ->
                 list DataPoint -> list DataPoint)
  (read_steps : nat -> nat)
  (X : list Q) (N D : nat) (perplexity : Q) (verbose : bool) :
  0 < N -> (0 <= perplexity)%Q ->
  neighbours N perplexity + 1 <= N /\
  (0 <= clamped_perplexity N perplexity)%Q /\
  input_similarities fexp flog rand RAND_MAX nth_element read_steps X N D perplexity
    verbose
  = (let '(P, log') :=
       computeGaussianPerplexity fexp flog rand RAND_MAX nth_element read_steps
         (scaled (zeroMean X N D) (N * D)) N D
         (clamped_perplexity N perplexity) (neighbours N perplexity) verbose in
     (normalize_P (symmetrizeMatrix P N) N,
      (if Qlt_bool (inject_Z (Z.of_nat N - 1)) (3 * perplexity)%Q && verbose
       then [msg_perplexity_large] else []) ++ log')).
Proof.
  intros HN Hp. split; [apply neighbours_bound; assumption|].
  split; [apply clamped_perplexity_nonneg, Hp|]. apply input_similarities_unfold.
Qed.

Lemma neighbours_fit_the_data_witness :
  neighbours 10 30%Q + 1 <= 10 /\
  (0 <= clamped_perplexity 10 30%Q)%Q /\
  input_similarities exp_approx log_approx rand_zero RAND_MAX nth_element_keep
    one_thread ten_points 10 1 30%Q true
  = (let '(P, log') :=
       computeGaussianPerplexity exp_approx log_approx rand_zero RAND_MAX nth_element_keep
         one_thread (scaled (zeroMean ten_points 10 1) (10 * 1)) 10 1
         (clamped_perplexity 10 30%Q) (neighbours 10 30%Q) true in
     (normalize_P (symmetrizeMatrix P 10) 10,
      (if Qlt_bool (inject_Z (Z.of_nat 10 - 1)) (3 * 30)%Q && true
       then [msg_perplexity_large] else []) ++ log')).
Proof.
  apply (neighbours_fit_the_data exp_approx log_approx rand_zero RAND_MAX nth_element_keep
           one_thread ten_points 10 1 30%Q true); [lia|]. vm_compute. discriminate.
Defined.

(** X20.  With [verbose] off, a run writes nothing to stderr but, at most, the
    line of [computeGaussianPerplexity] that is not guarded by [verbose]:
    "Perplexity should be lower than K!", which appears exactly when the
    perplexity after the first test lies strictly between 0 and 1/3. *)
Theorem run_without_verbose_logs_only_the_K_warning
  (fexp flog : Q -> Q) (rand : nat -> Z) (RAND_MAX : Z)
  (nth_element : nat -> nat -> nat -> (DataPoint -> DataPoint -> bool) ->
                 list DataPoint -> list DataPoint)
  (read_steps : nat -> nat)
  (SplitTree : Type) (new_SplitTree : list Q -> nat -> nat -> SplitTree)
  (computeNonEdgeForces : SplitTree -> nat -> Q -> list Q -> nat -> Q -> list Q * Q)
  (sign : Q -> Q) (randn : nat -> Q)
  (X : list Q) (N D : nat) (Y0 : list Q) (no_dims : nat) (perplexity theta : Q)
  (max_iter : nat) (n_iter_early_exag : Z) (init_from_Y : bool)
  (early_exaggeration learning_rate : Q) (final_error : bool) :
  (0 <= perplexity)%Q ->
  snd (run fexp flog rand RAND_MAX nth_element read_steps SplitTree new_SplitTree
         computeNonEdgeForces sign randn X N D Y0 no_dims perplexity theta max_iter
         n_iter_early_exag init_from_Y false early_exaggeration learning_rate final_error)
  = if Qlt_bool 0 (clamped_perplexity N perplexity)
       && Qlt_bool (clamped_perplexity N perplexity) (1 # 3)
    then [msg_perplexity_K] else [].
Proof.
  intros Hp. rewrite run_quiet_log. rewrite (warning_test N perplexity Hp). reflexivity.
Qed.

Lemma run_without_verbose_logs_only_the_K_warning_witness :
  snd (run exp_approx log_approx rand_zero RAND_MAX nth_element_keep one_thread unit
         no_tree no_forces sign_model randn_zero three_points 3 1 [0; 0; 0]%Q 1 0.5%Q 0.5%Q
         10 5%Z false false 12%Q 200%Q false)
  = if Qlt_bool 0 (clamped_perplexity 3 0.5%Q)
       && Qlt_bool (clamped_perplexity 3 0.5%Q) (1 # 3)
    then [msg_perplexity_K] else [].
Proof.
  apply (run_without_verbose_logs_only_the_K_warning exp_approx log_approx rand_zero
           RAND_MAX nth_element_keep one_thread unit no_tree no_forces sign_model
           randn_zero
           three_points 3 1 [0; 0; 0]%Q 1 0.5%Q 0.5%Q 10 5%Z false 12%Q 200%Q false).
  vm_compute. discriminate.
Defined.

Import VpTree Tsne OptimSpec DataSpec RunSpec Examples Stubs.

(** ** The end of the early exaggeration *)

(** X13.  The P-values the gradient of iteration [t] is computed from: the
    normalized values times [early_exaggeration] up to the switch iteration,
    it included, and the normalized values themselves after it (in exact
    arithmetic): the division undoes the multiplication, once. *)
Theorem exaggeration_is_undone
  (flog : Q -> Q) (SplitTree : Type) (new_SplitTree : list Q -> nat -> nat -> SplitTree)
  (computeNonEdgeForces : SplitTree -> nat -> Q -> list Q -> nat -> Q -> list Q * Q)
  (sign : Q -> Q) (randn : nat -> Q)
  (P : csr) (N no_dims : nat) (Y0 : list Q) (theta : Q) (max_iter : nat)
  (n_iter_early_exag : Z) (init_from_Y verbose : bool)
  (early_exaggeration learning_rate : Q) (log0 : list string) (t i : nat) :
  ~ (early_exaggeration == 0)%Q ->
  row_P P !!! N <= length (val_P P) -> i < row_P P !!! N ->
  let v := val (training_loop flog SplitTree new_SplitTree computeNonEdgeForces sign randn
                  P N no_dims Y0 theta max_iter n_iter_early_exag init_from_Y verbose
                  early_exaggeration learning_rate log0 t) !!! i in
  if (0 <=? stop_lying n_iter_early_exag init_from_Y)%Z
     && (stop_lying n_iter_early_exag init_from_Y <? Z.of_nat t)%Z
  then (v == val_P P !!! i)%Q
  else v = (val_P P !!! i * early_exaggeration)%Q.
Proof.
  intros He Hlen Hi. cbv zeta. rewrite training_loop_val.
  assert (Hex : exaggerate P N early_exaggeration !!! i
                = (val_P P !!! i * early_exaggeration)%Q).
  { unfold exaggerate.
    rewrite (for_loop_insert_lookup (row_P P !!! N) (fun _ v => (v * early_exaggeration)%Q))
      by exact Hlen.
    rewrite (proj2 (Nat.ltb_lt _ _)) by exact Hi. reflexivity. }
  destruct (_ && _); [|exact Hex].
  unfold stop_lying_values.
  rewrite (for_loop_insert_lookup (row_P P !!! N) (fun _ v => (v / early_exaggeration)%Q)).
  - rewrite (proj2 (Nat.ltb_lt _ _)) by exact Hi. rewrite Hex. field. exact He.
  - unfold exaggerate.
    rewrite (for_loop_insert_length (row_P P !!! N)
               (fun i v => (v !!! i * early_exaggeration)%Q)). exact Hlen.
Qed.

Lemma exaggeration_is_undone_witness :
  let v := val (training_loop log_approx unit no_tree no_forces sign_model randn_zero
                  three_rows 3 1 [0; 0; 0]%Q 0.5%Q 10 2%Z false false
                  12%Q 200%Q [] 4) !!! 1%nat in
  if (0 <=? stop_lying 2%Z false)%Z && (stop_lying 2%Z false <? Z.of_nat 4)%Z
  then (v == val_P three_rows !!! 1%nat)%Q
  else v = (val_P three_rows !!! 1%nat * 12)%Q.
Proof.
  apply (exaggeration_is_undone log_approx unit no_tree no_forces sign_model randn_zero
           three_rows 3 1 [0; 0; 0]%Q 0.5%Q 10 2%Z false false 12%Q 200%Q [] 4 1).
  - vm_compute. discriminate.
  - simpl. lia.
  - simpl. lia.
Defined.

Import VpTree VpBuild VpSpec KnnSpec BuildSpec Perplexity PerplexitySearch KernelSpec.
Import Tsne SymSpec OptimSpec DataSpec RunSpec Examples Stubs.

(** ** The vantage-point tree *)

(** X9.  The squared distance is never negative, is symmetric between points of
    one dimension, and is zero exactly between points with the same
    coordinates; it does not have the triangle inequality: the points 0, 1
    and 2 of a line are at 4 from end to end and at 1 from each to the
    next. *)
Theorem euclidean_distance_squared_laws :
  (forall a b, (0 <= euclidean_distance_squared a b)%Q) /\
  (forall a b, _D a = _D b ->
     (euclidean_distance_squared a b == euclidean_distance_squared b a)%Q) /\
  (forall a b, (euclidean_distance_squared a b == 0)%Q <->
               forall d, d < _D a -> (x a d == x b d)%Q) /\
  ~ (forall a b c, (euclidean_distance_squared a c
                    <= euclidean_distance_squared a b + euclidean_distance_squared b c)%Q).
Proof.
  split; [apply euclidean_nonneg|]. split; [apply euclidean_sym|].
  split; [apply euclidean_zero|].
  intros H. specialize (H (pt 0 0%Q) (pt 1 1%Q) (pt 2 2%Q)).
  vm_compute in H. apply H. reflexivity.
Qed.

(** X4.  [create] builds a vantage-point tree, given what [rand] and
    [std::nth_element] promise: the items are rearranged, none is lost; the
    nodes hold the positions 0 .. N-1, each once, the root first; and seen
    from the point of a node, no point of its left subtree is farther than
    its threshold and no point of its right subtree is nearer. *)
Theorem create_builds_a_vantage_point_tree
  (distance : DataPoint -> DataPoint -> Q) (rand : nat -> Z) (RAND_MAX : Z)
  (nth_element : nat -> nat -> nat -> (DataPoint -> DataPoint -> bool) ->
                 list DataPoint -> list DataPoint)
  (items : list DataPoint) :
  rand_post rand RAND_MAX -> nth_element_post distance nth_element ->
  let tree := create distance rand RAND_MAX nth_element items in
  fst tree ≡ₚ items /\
  nodes (snd tree) = seq 0 (length items) /\
  vp_ok distance (fst tree) (snd tree).
Proof.
  intros Hrand Hnth. cbv zeta.
  destruct (create_spec distance rand RAND_MAX nth_element Hrand Hnth items)
    as ([Hp _] & Hn & Hok & _).
  split; [exact Hp|]. split; [|exact Hok]. rewrite Hn. f_equal. lia.
Qed.

Lemma create_builds_a_vantage_point_tree_witness :
  let tree := create euclidean_distance_squared rand_zero RAND_MAX nth_element_sort
                six_points in
  fst tree ≡ₚ six_points /\
  nodes (snd tree) = seq 0 (length six_points) /\
  vp_ok euclidean_distance_squared (fst tree) (snd tree).
Proof.
  apply (create_builds_a_vantage_point_tree euclidean_distance_squared rand_zero RAND_MAX
           nth_element_sort six_points).
  - exact rand_zero_post.
  - apply nth_element_sort_post.
Defined.

(** X5.  A search of the tree [create] built, for a point of the data set and
    [k >= 1]: the distances come back in non-decreasing order, each the
    squared distance of the result beside it, and one result is a point of
    the data set at distance zero. *)
Theorem created_tree_finds_every_point
  (rand : nat -> Z) (RAND_MAX : Z)
  (nth_element : nat -> nat -> nat -> (DataPoint -> DataPoint -> bool) ->
                 list DataPoint -> list DataPoint)
  (items : list DataPoint) (n k : nat) :
  rand_post rand RAND_MAX -> nth_element_post euclidean_distance_squared nth_element ->
  n < length items -> 0 < k ->
  let tree := create euclidean_distance_squared rand RAND_MAX nth_element items in
  let out := search euclidean_distance_squared (fst tree) (snd tree) (items !!! n) k in
  StronglySorted Qle (snd out) /\
  Forall2 (fun r d => d = euclidean_distance_squared r (items !!! n)) (fst out) (snd out) /\
  exists i r d,
    fst out !! i = Some r /\ snd out !! i = Some d /\ r ∈ items /\ (d == 0)%Q.
Proof.
  intros Hrand Hnth Hn Hk. cbv zeta.
  apply (created_search rand RAND_MAX nth_element Hrand Hnth items n k Hn Hk).
Qed.

Lemma created_tree_finds_every_point_witness :
  let tree := create euclidean_distance_squared rand_zero RAND_MAX nth_element_sort
                six_points in
  let out := search euclidean_distance_squared (fst tree) (snd tree) (six_points !!! 2) 2 in
  StronglySorted Qle (snd out) /\
  Forall2 (fun r d => d = euclidean_distance_squared r (six_points !!! 2))
          (fst out) (snd out) /\
  exists i r d,
    fst out !! i = Some r /\ snd out !! i = Some d /\ r ∈ six_points /\ (d == 0)%Q.
Proof.
  apply (created_tree_finds_every_point rand_zero RAND_MAX nth_element_sort six_points 2 2).
  - exact rand_zero_post.
  - apply nth_element_sort_post.
  - simpl. lia.
  - lia.
Defined.

(** X6.  A search for [k >= 1] neighbours in a tree whose nodes hold different
    positions and whose distances and thresholds are below [DBL_MAX] returns
    exactly [min k N] results, the items at [min k N] different positions of
    the tree: nothing is pruned before the queue is full. *)
Theorem search_returns_min_k_N_distinct_points
  (distance : DataPoint -> DataPoint -> Q) (items : list DataPoint)
  (root : Node) (target : DataPoint) (k : nat) :
  0 < k -> (forall a, (0 <= distance a target)%Q) -> NoDup (nodes root) ->
  (forall i, i ∈ nodes root -> (distance (items !!! i) target < DBL_MAX)%Q) ->
  (forall th, th ∈ thresholds root -> (0 <= th <= DBL_MAX)%Q) ->
  exists positions,
    NoDup positions /\ (forall i, i ∈ positions -> i ∈ nodes root) /\
    length positions = Nat.min k (length (nodes root)) /\
    fst (search distance items root target k) = (fun i => items !!! i) <$> positions /\
    length (snd (search distance items root target k)) = length positions.
Proof.
  intros Hk Hnn Hnd Hdist Hth.
  pose proof (search_inv_init distance items target k root Hk) as H0.
  pose proof (search_node_count distance items target k Hk Hnn root root ([], DBL_MAX)
                (fun i Hi => Hi) H0 Hdist Hth) as Hlen.
  destruct (search_node_nodup distance items target k root ([], DBL_MAX) Hnd)
    as [Hnodup Hsub]; [constructor|intros h Hh; inversion Hh|].
  rewrite search_spec. cbv zeta. cbn [fst snd].
  set (heap := fst (search_node distance items root target k ([], DBL_MAX))) in *.
  exists (reverse (hindex <$> heap)).
  split; [rewrite reverse_Permutation; exact Hnodup|]. split.
  - intros i Hi. apply elem_of_reverse, list_elem_of_fmap in Hi as (h & -> & Hh).
    destruct (Hsub h Hh) as [H1|H1]; [inversion H1|exact H1].
  - split; [rewrite length_reverse, length_fmap; exact Hlen|]. split.
    + rewrite fmap_reverse, <- list_fmap_compose. reflexivity.
    + rewrite !length_reverse, !length_fmap. reflexivity.
Qed.

Lemma search_returns_min_k_N_distinct_points_witness :
  exists positions,
    NoDup positions /\ (forall i, i ∈ positions -> i ∈ nodes line_tree) /\
    length positions = Nat.min 2 (length (nodes line_tree)) /\
    fst (search euclidean_distance_squared line_items line_tree (pt 7 0%Q) 2)
    = (fun i => line_items !!! i) <$> positions /\
    length (snd (search euclidean_distance_squared line_items line_tree (pt 7 0%Q) 2))
    = length positions.
Proof.
  apply (search_returns_min_k_N_distinct_points euclidean_distance_squared line_items
           line_tree (pt 7 0%Q) 2).
  - lia.
  - intros a. apply euclidean_nonneg.
  - exact (NoDup_seq 0 3).
  - intros i Hi. simpl in Hi.
    repeat (apply elem_of_cons in Hi as [->|Hi]); [..|inversion Hi]; reflexivity.
  - intros th Hth. simpl in Hth.
    repeat (apply elem_of_cons in Hth as [->|Hth]); [..|inversion Hth];
      split; vm_compute; discriminate.
Defined.

(** X7.  For a distance that is symmetric and has the triangle inequality, the
    search is exact: every indexed point that is not among the results is at
    least as far from the target as every result. *)
Theorem search_exact_for_a_metric
  (distance : DataPoint -> DataPoint -> Q) (items : list DataPoint)
  (root : Node) (target : DataPoint) (k : nat) :
  0 < k ->
  (forall a b, (distance a b == distance b a)%Q) ->
  (forall a b c, (distance a c <= distance a b + distance b c)%Q) ->
  vp_ok distance items root ->
  forall q, q ∈ nodes root ->
    items !!! q ∈ fst (search distance items root target k) \/
    Forall (fun d => (d <= distance (items !!! q) target)%Q)
           (snd (search distance items root target k)).
Proof.
  intros Hk Hsym Htri Hok q Hq.
  assert (Hnn : forall a, (0 <= distance a target)%Q).
  { intros a. pose proof (Htri a a a) as H1. pose proof (Htri a target a) as H2.
    pose proof (Hsym target a) as H3. lra. }
  pose proof (search_inv_init distance items target k root Hk) as H0.
  assert (Hb0 : below (([], DBL_MAX) : pqueue * Q)) by (intros h Hh; inversion Hh).
  destruct (search_node_exact distance items target k Hk Hnn Hsym Htri root root
              ([], DBL_MAX) (fun i Hi => Hi) H0 Hb0 Hok) as [(_ & Hbel & _) Hcov].
  rewrite search_spec. cbv zeta. cbn [fst snd].
  set (st := search_node distance items root target k ([], DBL_MAX)) in *.
  destruct (Hcov q Hq) as [(h & Hh & <-)|Hfar].
  - left. apply elem_of_reverse, list_elem_of_fmap. exists h. split; [reflexivity|exact Hh].
  - right. apply Forall_forall. intros d Hd.
    apply elem_of_reverse, list_elem_of_fmap in Hd as (h & -> & Hh).
    specialize (Hbel h Hh). lra.
Qed.

Lemma line_distance_sym a b : (line_distance a b == line_distance b a)%Q.
Proof.
  unfold line_distance. rewrite <- (Qabs_opp (x a 0 - x b 0)).
  apply Qabs_wd. ring.
Qed.

Lemma line_distance_triangle a b c :
  (line_distance a c <= line_distance a b + line_distance b c)%Q.
Proof.
  unfold line_distance.
  assert (E : (x a 0 - x c 0 == (x a 0 - x b 0) + (x b 0 - x c 0))%Q) by ring.
  rewrite (Qabs_wd _ _ E). apply Qabs_triangle.
Qed.

Lemma search_exact_for_a_metric_witness :
  line_items !!! 2%nat ∈ fst (search line_distance line_items line_tree_abs (pt 7 2%Q) 1) \/
  Forall (fun d => (d <= line_distance (line_items !!! 2%nat) (pt 7 2%Q))%Q)
         (snd (search line_distance line_items line_tree_abs (pt 7 2%Q) 1)).
Proof.
  apply (search_exact_for_a_metric line_distance line_items line_tree_abs (pt 7 2%Q) 1).
  - lia.
  - exact line_distance_sym.
  - exact line_distance_triangle.
  - simpl. repeat split;
      try (intros q Hq; repeat (apply elem_of_cons in Hq as [->|Hq]); [..|inversion Hq]);
      vm_compute; discriminate.
  - change (2 ∈ seq 0 3). apply elem_of_seq. lia.
Defined.

(** X8.  With the squared distance, which [computeGaussianPerplexity] uses, the
    search is not exact.  Six points on a line, at 0, 1, 2, 2.5, 3 and 4, in
    the tree [create] builds from them, searched for the two nearest to the
    point at 2: the search returns the point at 2 and the point at 1, at
    squared distance 1, and prunes the subtree of the point at 2.5, which is
    at squared distance 0.25. *)
Theorem search_with_squared_distance_can_miss_the_nearest :
  let tree := create euclidean_distance_squared rand_zero RAND_MAX nth_element_sort
                six_points in
  let out := search euclidean_distance_squared (fst tree) (snd tree) (six_points !!! 2) 2 in
  vp_ok euclidean_distance_squared (fst tree) (snd tree) /\
  fst out = [pt 2 2%Q; pt 1 1%Q] /\
  exists q d,
    q ∈ nodes (snd tree) /\ fst tree !!! q = pt 3 2.5%Q /\
    ((fst tree !!! q) ∉ fst out) /\ d ∈ snd out /\
    (euclidean_distance_squared (fst tree !!! q) (six_points !!! 2%nat) < d)%Q.
Proof.
  cbv zeta. split.
  - apply (create_spec euclidean_distance_squared rand_zero RAND_MAX nth_element_sort
             rand_zero_post (nth_element_sort_post _) six_points).
  - assert (E : create euclidean_distance_squared rand_zero RAND_MAX nth_element_sort
                  six_points
                = (six_points,
                   MkNode 0 6.25%Q
                     (MkNode 1 1%Q Null (MkNode 2 0%Q Null Null))
                     (MkNode 3 0.25%Q Null
                        (MkNode 4 1%Q Null (MkNode 5 0%Q Null Null)))))
      by (vm_compute; reflexivity).
    rewrite E. cbn [fst snd].
    split; [vm_compute; reflexivity|].
    exists 3, 1%Q. split; [change (3 ∈ seq 0 6); apply elem_of_seq; lia|].
    split; [reflexivity|]. split.
    + vm_compute. intros H.
      repeat (apply elem_of_cons in H as [H|H]; [discriminate|]). inversion H.
    + split; [vm_compute; right; left|vm_compute; reflexivity].
Qed.

Import VpTree VpBuild VpSpec KnnSpec BuildSpec Perplexity PerplexitySearch KernelSpec.
Import Tsne SymSpec OptimSpec DataSpec RunSpec Examples Stubs.

(** ** The matrix of the input similarities *)




(** X3.  [symmetrizeMatrix] returns a well-formed sparse matrix when it is given
    one: offsets that start at 0 and do not decrease, columns below [N], and
    no column twice in a row: the test [n <= col_P[i]] keeps a reciprocal
    pair from being stored twice. *)
Theorem symmetrizeMatrix_output_well_formed (P : csr) (N : nat) :
  csr_wf P N -> csr_wf (symmetrizeMatrix P N) N.
Proof.
  intros wf. apply symmetrize_wf, wf.
Qed.

Lemma symmetrizeMatrix_output_well_formed_witness :
  csr_wf (symmetrizeMatrix three_rows 3) 3.
Proof.
  apply (symmetrizeMatrix_output_well_formed three_rows 3). exact three_rows_wf.
Defined.

(** X19.  The data [run] hands on: when some entry is positive, every entry
    divided by [max_X] is at most 1 and the largest is 1; when no entry is
    positive, [max_X] is 0, the start value of the search for the maximum,
    and the division is by zero. *)
Theorem scaled_data_at_most_one (X : list Q) (n : nat) :
  n <= length X ->
  ((0 < max_X X n)%Q ->
   (forall i, i < n -> (scaled X n !!! i <= 1)%Q) /\
   exists i, i < n /\ (scaled X n !!! i == 1)%Q) /\
  ((exists i, i < n /\ (0 < X !!! i)%Q) -> (0 < max_X X n)%Q) /\
  ((forall i, i < n -> (X !!! i <= 0)%Q) -> (max_X X n == 0)%Q).
Proof.
  intros Hn. split; [intros Hpos; apply scaled_spec; assumption|].
  split; [|apply scaled_all_nonpositive].
  intros (i & Hi & Hx). destruct (max_X_spec X n) as (_ & Hle & _).
  specialize (Hle i Hi). lra.
Qed.

Lemma scaled_data_at_most_one_witness :
  ((0 < max_X [-1; 2; 4]%Q 3)%Q ->
   (forall i, i < 3 -> (scaled [-1; 2; 4]%Q 3 !!! i <= 1)%Q) /\
   exists i, i < 3 /\ (scaled [-1; 2; 4]%Q 3 !!! i == 1)%Q) /\
  ((exists i, i < 3 /\ (0 < [-1; 2; 4]%Q !!! i)%Q) -> (0 < max_X [-1; 2; 4]%Q 3)%Q) /\
  ((forall i, i < 3 -> ([-1; 2; 4]%Q !!! i <= 0)%Q) -> (max_X [-1; 2; 4]%Q 3 == 0)%Q).
Proof. apply (scaled_data_at_most_one [-1; 2; 4]%Q 3). simpl. lia. Defined.

(** ** The kernels *)

(** X23.  [ComputePijKernel] does not depend on the order of its threads: a
    launch of [G] threads, as many as there are entries or more, run in any
    order, leaves the array the launch in index order leaves. *)
Theorem ComputePijKernel_any_thread_order
  (fexp : Q -> Q) (pij squared_dist betas : list Q)
  (num_points num_near_neighbors G : nat) (order : list nat) :
  num_points * num_near_neighbors <= G -> order ≡ₚ seq 0 G ->
  launch order (pij_thread fexp squared_dist betas num_points num_near_neighbors) pij
  = ComputePijKernel fexp pij squared_dist betas num_points num_near_neighbors.
Proof.
  intros HG Hp. apply (pij_thread_order fexp pij squared_dist betas _ _ G order HG Hp).
Qed.

Lemma ComputePijKernel_any_thread_order_witness :
  launch [2; 0; 1] (pij_thread exp_approx [0; 1]%Q [1]%Q 1 2) [0; 0]%Q
  = ComputePijKernel exp_approx [0; 0]%Q [0; 1]%Q [1]%Q 1 2.
Proof.
  apply (ComputePijKernel_any_thread_order exp_approx [0; 0]%Q [0; 1]%Q [1]%Q 1 2 3
           [2; 0; 1]); [lia|].
  change (seq 0 3) with [0; 1; 2].
  etransitivity; [apply Permutation_cons_append|reflexivity].
Defined.

(** X24.  [PerplexitySearchKernel] does not depend on the order of its threads
    either, when the four arrays hold an entry for every point: thread [i]
    reads and writes entry [i] only. *)
Theorem PerplexitySearchKernel_any_thread_order
  (flog : Q -> Q) (a : search_arrays) (neg_entropy row_sum : list Q)
  (perplexity_target epsilon : Q) (num_points G : nat) (order : list nat) :
  arrays_sized num_points a -> num_points <= G -> order ≡ₚ seq 0 G ->
  launch order
    (search_thread flog neg_entropy row_sum perplexity_target epsilon num_points) a
  = PerplexitySearchKernel flog a neg_entropy row_sum perplexity_target epsilon num_points.
Proof.
  intros Ha HG Hp. apply (search_thread_order flog _ _ _ _ _ a G order Ha HG Hp).
Qed.

Lemma PerplexitySearchKernel_any_thread_order_witness :
  launch [2; 0; 1]
    (search_thread log_approx [0; 0]%Q [1; 1]%Q 2%Q tol 2) two_arrays
  = PerplexitySearchKernel log_approx two_arrays [0; 0]%Q [1; 1]%Q 2%Q tol 2.
Proof.
  apply (PerplexitySearchKernel_any_thread_order log_approx two_arrays [0; 0]%Q [1; 1]%Q
           2%Q tol 2 3 [2; 0; 1]).
  - unfold arrays_sized. simpl. lia.
  - lia.
  - change (seq 0 3) with [0; 1; 2].
    etransitivity; [apply Permutation_cons_append|reflexivity].
Defined.

Import VpTree Tsne Examples.

(** ** The progress lines of computeGaussianPerplexity *)

(** X22.  With [verbose] on, five points or more, and the points taken one
    after the other (the progress test of point [n] reads
    [steps_completed = n + 1], as in a run with one thread),
    [computeGaussianPerplexity] writes the warning about [K] when it
    applies, the two lines of the tree, and a progress line after every
    [N / 5] points: [N / (N / 5)] lines, between five and nine. *)
Theorem progress_lines
  (fexp flog : Q -> Q) (rand : nat -> Z) (RAND_MAX : Z)
  (nth_element : nat -> nat -> nat -> (DataPoint -> DataPoint -> bool) ->
                 list DataPoint -> list DataPoint)
  (read_steps : nat -> nat)
  (X : list Q) (N D : nat) (perplexity : Q) (K : nat) :
  5 <= N ->
  (forall n, n < N -> read_steps n = n + 1) ->
  snd (computeGaussianPerplexity fexp flog rand RAND_MAX nth_element read_steps
         X N D perplexity K true)
  = (if Qlt_bool (inject_Z (Z.of_nat K)) perplexity then [msg_perplexity_K] else [])
    ++ [msg_tree_time; msg_building] ++ replicate (N / (N / log_freq)) msg_point /\
  5 <= N / (N / log_freq) <= 9.
Proof.
  unfold log_freq. intros HN Hone.
  assert (Hq : 0 < N / 5) by (apply Nat.div_str_pos; lia).
  split; [apply (similarities_progress fexp flog rand RAND_MAX nth_element read_steps
                   X N D perplexity K Hq Hone)|].
  pose proof (Nat.div_mod_eq N 5) as E1.
  pose proof (Nat.mod_upper_bound N 5 ltac:(lia)) as B1.
  split.
  - apply Nat.div_le_lower_bound; lia.
  - enough (N / (N / 5) < 10) by lia.
    apply Nat.Div0.div_lt_upper_bound. lia.
Qed.

Lemma progress_lines_witness :
  snd (computeGaussianPerplexity exp_approx log_approx rand_zero RAND_MAX
         nth_element_keep one_thread ten_points 10 1 0.5%Q 1 true)
  = (if Qlt_bool (inject_Z (Z.of_nat 1)) 0.5%Q then [msg_perplexity_K] else [])
    ++ [msg_tree_time; msg_building] ++ replicate (10 / (10 / log_freq)) msg_point /\
  5 <= 10 / (10 / log_freq) <= 9.
Proof.
  apply (progress_lines exp_approx log_approx rand_zero RAND_MAX nth_element_keep
           one_thread ten_points 10 1 0.5%Q 1).
  - lia.
  - intros n _. reflexivity.
Defined.

Import VpTree VpSpec Float FloatSpec Examples.

(** ** The binary search with the range of a float *)

(** X16.  With the range of a [float] and whatever [exp] and [log] return, the
    [beta] of the binary search is, after any number of turns, never a
    negative number and never minus infinity: it is a number that is not
    negative (zero once the halving has underflowed), plus infinity (once
    the doubling has overflowed) or NaN.  Each of its two bounds is not set
    ([FLT_MAX] or [-FLT_MAX]) or is such a value too. *)
Theorem beta_is_never_a_negative_number
  (fexp flog : Q -> Q) (K : nat) (distances : list float) (perplexity : float)
  (turns : nat) :
  let s := FloatPerplexity.search_loop fexp flog K distances perplexity turns
             (FloatPerplexity.search_init K) in
  not_negative (FloatPerplexity.beta s) /\
  bound_ok (FloatPerplexity.min_beta s) /\
  bound_ok (FloatPerplexity.max_beta s).
Proof.
  cbv zeta. apply float_loop_sane, float_init_sane.
Qed.

(** ** A search for no neighbour *)

(** X25.  A search for [k = 0] neighbours in an index that is not empty, whose
    root is nearer to the target than [DBL_MAX]: the root passes the test
    [dist < tau], the queue has [k = 0] items, and [heap.pop()] is called on
    the empty queue, which is undefined behaviour. *)
Theorem search_for_zero_neighbours_is_undefined
  (distance : DataPoint -> DataPoint -> Q) (items : list DataPoint)
  (idx : nat) (th : Q) (l r : Node) (target : DataPoint) :
  (distance (items !!! idx) target < DBL_MAX)%Q ->
  search_outcome distance items (MkNode idx th l r) target 0 = Undefined.
Proof.
  intros Hd. unfold search_outcome.
  rewrite search_checked_zero; [reflexivity|]. apply Qlt_bool_iff, Hd.
Qed.

Lemma search_for_zero_neighbours_is_undefined_witness :
  search_outcome euclidean_distance_squared line_items
    (MkNode 0 1%Q Null (MkNode 1 4%Q Null (MkNode 2 0%Q Null Null))) (pt 7 0%Q) 0
  = Undefined.
Proof.
  apply (search_for_zero_neighbours_is_undefined euclidean_distance_squared line_items
           0 1%Q Null (MkNode 1 4%Q Null (MkNode 2 0%Q Null Null)) (pt 7 0%Q)).
  reflexivity.
Defined.
